(** * srt_pipeline: SDH subtitle cleaning and forced-cue filtering

    A shallow embedding of [srt_pipeline.py].  Python strings are lists of
    Unicode code points; the regular expressions of the module are kept as
    syntax trees and run by a backtracking matcher with Python's priorities
    (greedy repetition, leftmost alternative first); the [placeholders] list
    that [_store] mutates is threaded as explicit state. *)

From Stdlib Require Import List NArith Bool Arith Lia String Ascii DecimalNat.
Import ListNotations.

Set Implicit Arguments.

(** ** Strings *)

Definition char := N.
Definition str := list char.

Definition ch (a : ascii) : char := N_of_ascii a.

(** [py "text"] is the Python string with the same ASCII characters. *)
Definition py (s : string) : str := map ch (list_ascii_of_string s).

Definition char_eqb : char -> char -> bool := N.eqb.

Fixpoint str_eqb (a b : str) : bool :=
  match a, b with
  | [], [] => true
  | x :: a', y :: b' => char_eqb x y && str_eqb a' b'
  | _, _ => false
  end.

Definition in_range (lo hi c : char) : bool := (N.leb lo c && N.leb c hi)%bool.

Definition mem (c : char) (l : list char) : bool := existsb (char_eqb c) l.

(** ** Character data

    [str.strip], [\s], [\d], [\W], [str.isalpha], [str.isupper] and
    [str.upper] consult the Unicode character database.  The whitespace
    table is small and is given in full.  The other tables are given in full
    for U+0000..U+00FF; for higher code points they are taken from a
    [UnicodeData] parameter. *)

Class UnicodeData : Type := {
  wide_isalpha : char -> bool;
  wide_isupper : char -> bool;
  wide_isdecimal : char -> bool;
  wide_isalnum : char -> bool;
  wide_upper : char -> str
}.

Local Open Scope N_scope.
Local Open Scope bool_scope.

(** [Py_UNICODE_ISSPACE]: what [str.strip()], [str.isspace()] and [\s] use. *)
Definition isspace (c : char) : bool :=
  in_range 9 13 c || in_range 28 32 c || mem c [133; 160; 5760]
  || in_range 8192 8202 c || mem c [8232; 8233; 8239; 8287; 12288].

Definition latin1 (c : char) : bool := N.leb c 255.

Section CharacterData.
Context {U : UnicodeData}.

(** [c.isalpha()] for one character: general categories L*. *)
Definition isalpha (c : char) : bool :=
  if latin1 c then
    (in_range 65 90 c || in_range 97 122 c || mem c [170; 181; 186]
     || in_range 192 214 c || in_range 216 246 c || in_range 248 255 c)
  else wide_isalpha c.

(** [c.isupper()] for one character. *)
Definition isupper (c : char) : bool :=
  if latin1 c then
    (in_range 65 90 c || in_range 192 214 c || in_range 216 222 c)
  else wide_isupper c.

(** [\d]: decimal digits. *)
Definition isdecimal (c : char) : bool :=
  if latin1 c then in_range 48 57 c else wide_isdecimal c.

(** [c.isalnum()]: letters, decimal digits, and the other digits and numbers
    (superscripts and vulgar fractions in Latin-1). *)
Definition isalnum (c : char) : bool :=
  if latin1 c then
    (isalpha c || in_range 48 57 c || mem c [178; 179; 185; 188; 189; 190])
  else wide_isalnum c.

(** [\w]: alphanumeric or underscore. *)
Definition isword (c : char) : bool := isalnum c || char_eqb c (ch "_").

(** The upper-case mapping of one character, as [str.upper()] applies it. *)
Definition upper_char (c : char) : str :=
  if latin1 c then
    if (in_range 97 122 c || in_range 224 246 c || in_range 248 254 c)
    then [(c - 32)%N]
    else if char_eqb c 181 then [924%N]
    else if char_eqb c 223 then [83%N; 83%N]
    else if char_eqb c 255 then [376%N]
    else [c]
  else wide_upper c.

Definition upper (s : str) : str := flat_map upper_char s.

End CharacterData.

Local Close Scope N_scope.

(** ** String methods *)

Fixpoint lstrip_by (p : char -> bool) (s : str) : str :=
  match s with
  | c :: s' => if p c then lstrip_by p s' else s
  | [] => []
  end.

Definition rstrip_by (p : char -> bool) (s : str) : str :=
  rev (lstrip_by p (rev s)).

(** [s.strip()] *)
Definition strip (s : str) : str := rstrip_by isspace (lstrip_by isspace s).

Definition newline : char := 10%N.

(** [s.rstrip("\n")] *)
Definition rstrip_nl (s : str) : str := rstrip_by (char_eqb newline) s.

Fixpoint startswith (p s : str) : bool :=
  match p, s with
  | [], _ => true
  | x :: p', y :: s' => char_eqb x y && startswith p' s'
  | _ :: _, [] => false
  end.

(** [s.replace(old, new)]: every occurrence of [old], left to right, without
    overlap.  [skip] counts the characters of an occurrence still to pass. *)
Fixpoint replace_from (old new s : str) (skip : nat) : str :=
  match s with
  | [] => match old with [] => new | _ => [] end
  | c :: s' =>
      match skip with
      | S n => replace_from old new s' n
      | O =>
          match old with
          | [] => new ++ c :: replace_from old new s' 0
          | _ :: old' =>
              if startswith old s
              then new ++ replace_from old new s' (List.length old')
              else c :: replace_from old new s' 0
          end
      end
  end.

Definition replace (old new s : str) : str := replace_from old new s 0.

Fixpoint uint_digits (d : Decimal.uint) : str :=
  match d with
  | Decimal.Nil => []
  | Decimal.D0 d => 48%N :: uint_digits d
  | Decimal.D1 d => 49%N :: uint_digits d
  | Decimal.D2 d => 50%N :: uint_digits d
  | Decimal.D3 d => 51%N :: uint_digits d
  | Decimal.D4 d => 52%N :: uint_digits d
  | Decimal.D5 d => 53%N :: uint_digits d
  | Decimal.D6 d => 54%N :: uint_digits d
  | Decimal.D7 d => 55%N :: uint_digits d
  | Decimal.D8 d => 56%N :: uint_digits d
  | Decimal.D9 d => 57%N :: uint_digits d
  end.

(** [str(n)] for a non-negative integer. *)
Definition str_of_nat (n : nat) : str := uint_digits (Nat.to_uint n).

(** [sep.join(lines)] *)
Fixpoint join (sep : str) (lines : list str) : str :=
  match lines with
  | [] => []
  | [l] => l
  | l :: ls => l ++ sep ++ join sep ls
  end.

(** ** Regular expressions *)

Inductive regex : Type :=
| Eps
| Cls (p : char -> bool)
| Bol
| Eol
| Cat (r1 r2 : regex)
| Alt (r1 r2 : regex)
| Star (r : regex)
| Grp (i : nat) (r : regex).

Definition Chr (c : char) : regex := Cls (char_eqb c).
Definition Plus (r : regex) : regex := Cat r (Star r).
Definition Opt (r : regex) : regex := Alt r Eps.

(** [r{n,}] *)
Fixpoint AtLeast (n : nat) (r : regex) : regex :=
  match n with
  | O => Star r
  | S n' => Cat r (AtLeast n' r)
  end.

Fixpoint Lit (s : str) : regex :=
  match s with
  | [] => Eps
  | c :: s' => Cat (Chr c) (Lit s')
  end.

(** Captured groups, most recent first. *)
Definition caps := list (nat * str).

Fixpoint group (i : nat) (c : caps) : option str :=
  match c with
  | [] => None
  | (j, s) :: c' => if Nat.eqb i j then Some s else group i c'
  end.

Section Matcher.
Variable R : Type.

(** A continuation receives the position reached, the rest of the subject
    and the groups captured so far. *)
Definition cont := nat -> str -> caps -> option R.

(** Greedy repetition: one more round of [step] first, as long as the round
    consumed something; otherwise go on with [k]. *)
Fixpoint star_loop (step : nat -> str -> caps -> cont -> option R)
    (fuel : nat) (pos : nat) (s : str) (c : caps) (k : cont) : option R :=
  match fuel with
  | O => k pos s c
  | S fuel' =>
      match step pos s c
              (fun pos' s' c' =>
                 if Nat.ltb (List.length s') (List.length s)
                 then star_loop step fuel' pos' s' c' k
                 else None) with
      | Some x => Some x
      | None => k pos s c
      end
  end.

Fixpoint rmatch (r : regex) (pos : nat) (s : str) (c : caps) (k : cont)
  : option R :=
  match r with
  | Eps => k pos s c
  | Cls p =>
      match s with
      | x :: s' => if p x then k (S pos) s' c else None
      | [] => None
      end
  | Bol => if Nat.eqb pos 0 then k pos s c else None
  | Eol =>
      match s with
      | [] => k pos s c
      | [x] => if char_eqb x newline then k pos s c else None
      | _ => None
      end
  | Cat r1 r2 => rmatch r1 pos s c (fun pos' s' c' => rmatch r2 pos' s' c' k)
  | Alt r1 r2 =>
      match rmatch r1 pos s c k with
      | Some x => Some x
      | None => rmatch r2 pos s c k
      end
  | Star r1 => star_loop (rmatch r1) (List.length s) pos s c k
  | Grp i r1 =>
      rmatch r1 pos s c
        (fun pos' s' c' =>
           k pos' s' ((i, firstn (List.length s - List.length s') s) :: c'))
  end.

End Matcher.

(** The last continuation of a match: return the groups. *)
Definition kfin : cont caps := fun _ _ c => Some c.

(** [pattern.match(s)]: the groups of the first match anchored at the start. *)
Definition re_match (r : regex) (s : str) : option caps :=
  rmatch r 0 s [] kfin.

(** [pattern.fullmatch(s)]: the match has to reach the end of [s]. *)
Definition re_fullmatch (r : regex) (s : str) : option caps :=
  rmatch r 0 s [] (fun _ s' c => match s' with [] => Some c | _ => None end).

(** The rest of the subject after the first match starting at [pos]. *)
Definition match_here (r : regex) (pos : nat) (s : str) : option str :=
  rmatch r pos s [] (fun _ s' _ => Some s').

(** [pattern.sub(repl, s)] with a callable [repl] that may update a state
    [St] and sees the matched text ([m.group(0)]).  The subject is scanned
    left to right; on a match the replacement is emitted and the scan resumes
    after it.  [skip] counts the matched characters still to pass.  Every
    pattern of the module matches at least one character; on a zero-width
    match the scan copies the character and moves on. *)
Section Sub.
Variable St : Type.
Variable r : regex.
Variable repl : str -> St -> str * St.

Fixpoint sub_from (pos : nat) (s : str) (skip : nat) (st : St) : str * St :=
  match s with
  | [] => ([], st)
  | c :: s' =>
      match skip with
      | S n => sub_from (S pos) s' n st
      | O =>
          match match_here r pos s with
          | Some rest =>
              match List.length s - List.length rest with
              | S n =>
                  let (out, st1) := repl (firstn (S n) s) st in
                  let (tail, st2) := sub_from (S pos) s' n st1 in
                  (out ++ tail, st2)
              | O =>
                  let (tail, st2) := sub_from (S pos) s' 0 st in
                  (c :: tail, st2)
              end
          | None =>
              let (tail, st2) := sub_from (S pos) s' 0 st in
              (c :: tail, st2)
          end
      end
  end.

Definition re_sub_with (s : str) (st : St) : str * St := sub_from 0 s 0 st.

End Sub.

(** [re.sub(pattern, repl, s)] with a constant replacement. *)
Definition re_sub (r : regex) (new : str) (s : str) : str :=
  fst (re_sub_with r (fun _ (st : unit) => (new, st)) s tt).

(** ** The patterns of the module *)

Local Open Scope N_scope.
Local Open Scope bool_scope.

(** The six note and accidental signs U+2669..U+266D and U+266F, in the order
    of the source. *)
Definition MUSIC_SYMBOLS : list char := [9834; 9835; 9836; 9833; 9837; 9839].

Definition double_quote : char := 34.

Definition ws : regex := Cls isspace.

Definition other_than (x : char) : char -> bool := fun c => negb (char_eqb c x).

(** [<br\s*/?>] under [re.IGNORECASE]: the letters match in either case (no
    other code point folds to [b] or [r]). *)
Definition BR_TAG_RE : regex :=
  Cat (Chr (ch "<"))
    (Cat (Cls (fun c => mem c [ch "b"; ch "B"]))
       (Cat (Cls (fun c => mem c [ch "r"; ch "R"]))
          (Cat (Star ws) (Cat (Opt (Chr (ch "/"))) (Chr (ch ">")))))).

(** [<[^>]+>] *)
Definition HTML_TAG_RE : regex :=
  Cat (Chr (ch "<")) (Cat (Plus (Cls (other_than (ch ">")))) (Chr (ch ">"))).

(** [\{[^}]*\}] *)
Definition ASS_OVERRIDE_RE : regex :=
  Cat (Chr (ch "{")) (Cat (Star (Cls (other_than (ch "}")))) (Chr (ch "}"))).

(** [\\[Nn]] *)
Definition ASS_NEWLINE_RE : regex :=
  Cat (Chr (ch "\")) (Cls (fun c => mem c [ch "N"; ch "n"])).

(** [\[[^\]]*\]] *)
Definition SQUARE_RE : regex :=
  Cat (Chr (ch "[")) (Cat (Star (Cls (other_than (ch "]")))) (Chr (ch "]"))).

(** [\([^)]*\)] *)
Definition PAREN_RE : regex :=
  Cat (Chr (ch "(")) (Cat (Star (Cls (other_than (ch ")")))) (Chr (ch ")"))).

(** [\s+] *)
Definition WS_RUN_RE : regex := Plus ws.

(** The accented capitals both letter classes list: A, E, I, O, U with acute
    (U+00C1, U+00C9, U+00CD, U+00D3, U+00DA), U with diaeresis (U+00DC),
    N with tilde (U+00D1). *)
Definition accented_capitals : list char := [193; 201; 205; 211; 218; 220; 209].

(** The class of [SPEAKER_RE]: [A-Z], the accented capitals, [0-9], space,
    apostrophe, double quote, ampersand, both parentheses, period, hyphen. *)
Definition speaker_class (c : char) : bool :=
  in_range (ch "A") (ch "Z") c || mem c accented_capitals
  || in_range (ch "0") (ch "9") c
  || mem c [ch " "; ch "'"; double_quote; ch "&"; ch "("; ch ")"; ch "."; ch "-"].

(** [.]: anything but a newline. *)
Definition dot (c : char) : bool := negb (char_eqb c newline).

Definition colon : char := ch ":".

(** [\s*(.+)$], what [SPEAKER_RE] asks for after the colon. *)
Definition speaker_tail : regex :=
  Cat (Star ws) (Cat (Grp 2 (Plus (Cls dot))) Eol).

(** [(class{2,}):\s*(.+)$] *)
Definition speaker_head : regex :=
  Cat (Grp 1 (AtLeast 2 (Cls speaker_class))) (Cat (Chr colon) speaker_tail).

(** [^\s*(class{2,}):\s*(.+)$] *)
Definition SPEAKER_RE : regex := Cat Bol (Cat (Star ws) speaker_head).

Section Patterns.
Context {U : UnicodeData}.

(** The class of [FORCED_RE]: [A-Z], the accented capitals, [\s], [\d], [\W]. *)
Definition forced_class (c : char) : bool :=
  in_range (ch "A") (ch "Z") c || mem c accented_capitals || isspace c
  || isdecimal c || negb (isword c).

(** [^class+$|^\{\\an8\}] *)
Definition FORCED_RE : regex :=
  Alt (Cat Bol (Cat (Plus (Cls forced_class)) Eol))
      (Cat Bol (Lit (py "{\an8}"))).

End Patterns.

Local Close Scope N_scope.

(** ** Configuration *)

Record SDHConfig : Type := {
  remove_between_square : bool;
  remove_between_paren : bool;
  between_only_if_separate_line : bool;
  remove_text_before_colon : bool;
  colon_only_if_uppercase : bool;
  remove_if_only_music_symbols : bool
}.

(** [SDHConfig()] *)
Definition default_config : SDHConfig := {|
  remove_between_square := true;
  remove_between_paren := true;
  between_only_if_separate_line := false;
  remove_text_before_colon := true;
  colon_only_if_uppercase := true;
  remove_if_only_music_symbols := true
|}.

(** [PRESETS["conservative"]] *)
Definition conservative_config : SDHConfig := {|
  remove_between_square := true;
  remove_between_paren := true;
  between_only_if_separate_line := true;
  remove_text_before_colon := true;
  colon_only_if_uppercase := true;
  remove_if_only_music_symbols := true
|}.

(** [PRESETS] *)
Definition PRESETS : list (string * SDHConfig) :=
  [("aggressive"%string, default_config);
   ("netflix"%string, default_config);
   ("conservative"%string, conservative_config)].

(** ** Line cleaning *)

Definition is_match (m : option caps) : bool :=
  match m with Some _ => true | None => false end.

(** Truth value of a list or string: non-empty. *)
Definition nonempty_list {A : Type} (l : list A) : bool :=
  match l with [] => false | _ :: _ => true end.

Definition nonempty (s : str) : bool := nonempty_list s.

Definition _only_music (line : str) : bool :=
  let stripped := strip line in
  if negb (nonempty stripped) then false
  else forallb (fun c => mem c MUSIC_SYMBOLS) stripped.

Definition _remove_inline_brackets (line : str) (cfg : SDHConfig) : str :=
  let line :=
    if remove_between_square cfg && negb (between_only_if_separate_line cfg)
    then re_sub SQUARE_RE [] line else line in
  let line :=
    if remove_between_paren cfg && negb (between_only_if_separate_line cfg)
    then re_sub PAREN_RE [] line else line in
  line.

Definition _should_drop_line_for_brackets (line : str) (cfg : SDHConfig) : bool :=
  if negb (between_only_if_separate_line cfg) then false
  else
    let stripped := strip line in
    if remove_between_square cfg && is_match (re_fullmatch SQUARE_RE stripped)
    then true
    else if remove_between_paren cfg && is_match (re_fullmatch PAREN_RE stripped)
    then true
    else false.

(** [f"__TAG_{idx}__"] *)
Definition tag_token (idx : nat) : str :=
  py "__TAG_" ++ str_of_nat idx ++ py "__".

(** The closure [_store] of [clean_line]: the state is [placeholders]. *)
Definition _store (matched : str) (placeholders : list str) : str * list str :=
  let placeholders := placeholders ++ [matched] in
  (tag_token (List.length placeholders - 1), placeholders).

(** The restoring loop of [clean_line], over [enumerate(placeholders)]. *)
Fixpoint restore_from (idx : nat) (placeholders : list str) (line : str) : str :=
  match placeholders with
  | [] => line
  | original :: more =>
      restore_from (S idx) more (replace (tag_token idx) original line)
  end.

(** The four shielding substitutions of [clean_line]. *)
Definition shield (line : str) : str * list str :=
  let placeholders : list str := [] in
  let (line, placeholders) := re_sub_with BR_TAG_RE _store line placeholders in
  let (line, placeholders) := re_sub_with HTML_TAG_RE _store line placeholders in
  let (line, placeholders) := re_sub_with ASS_OVERRIDE_RE _store line placeholders in
  re_sub_with ASS_NEWLINE_RE _store line placeholders.

Section Cleaning.
Context {U : UnicodeData}.

Definition _strip_speaker (line : str) (cfg : SDHConfig) : str :=
  if negb (remove_text_before_colon cfg) then line
  else
    match re_match SPEAKER_RE line with
    | None => line
    | Some m =>
        match group 1 m, group 2 m with
        | Some speaker, Some rest =>
            if colon_only_if_uppercase cfg && negb (str_eqb speaker (upper speaker))
            then line
            else rest
        | _, _ => line
        end
    end.

(** [None] stands for Python's [None]: the line is dropped. *)
Definition clean_line (line : str) (cfg : SDHConfig) : option str :=
  if _should_drop_line_for_brackets line cfg then None
  else
    let (line, placeholders) := shield line in
    let line := _remove_inline_brackets line cfg in
    let line := _strip_speaker line cfg in
    let line := strip (re_sub WS_RUN_RE (py " ") line) in
    if remove_if_only_music_symbols cfg && _only_music line then None
    else Some (restore_from 0 placeholders line).

Definition sdh_to_full_lines (lines : list str) (cfg : SDHConfig) : list str :=
  fold_left
    (fun cleaned line =>
       match clean_line (rstrip_nl line) cfg with
       | Some result => if nonempty result then cleaned ++ [result] else cleaned
       | None => cleaned
       end)
    lines [].

Definition is_all_caps_cue (line : str) : bool :=
  let text := strip line in
  if negb (nonempty text) then false
  else if negb (is_match (re_fullmatch FORCED_RE text)) then false
  else
    let letters := filter isalpha text in
    if Nat.ltb (List.length letters) 2 then false
    else forallb isupper letters.

(** [cue_checker or is_all_caps_cue] *)
Definition checker_or_default (cue_checker : option (str -> bool)) : str -> bool :=
  match cue_checker with
  | Some f => f
  | None => is_all_caps_cue
  end.

Definition full_to_forced_lines (lines : list str)
    (cue_checker : option (str -> bool)) : list str :=
  let checker := checker_or_default cue_checker in
  filter checker lines.

End Cleaning.

(** ** Entries *)

Record SRTBlock : Type := {
  index : str;
  timing : str;
  texts : list str
}.

(** Operations that can raise: [None] stands for an exception. *)
Definition bind {A B : Type} (x : option A) (f : A -> option B) : option B :=
  match x with
  | Some a => f a
  | None => None
  end.

Notation "x <- e ;; k" := (bind e (fun x => k))
  (at level 61, e at next level, right associativity).

(** [lines[i]] raises [IndexError] out of range. *)
Definition item (lines : list str) (i : nat) : option str := nth_error lines i.

Definition _make_block (lines : list str) : option SRTBlock :=
  if Nat.ltb (List.length lines) 2
  then Some {| index := []; timing := []; texts := lines |}
  else
    index <- item lines 0 ;;
    timing <- item lines 1 ;;
    let texts := skipn 2 lines in
    Some {| index := index; timing := timing; texts := texts |}.

(** The state of the loop of [parse_srt]. *)
Definition parse_state : Type := (list SRTBlock * list str)%type.

Definition flush (st : parse_state) : option parse_state :=
  let (blocks, buffer) := st in
  match buffer with
  | [] => Some (blocks, buffer)
  | _ :: _ =>
      block <- _make_block buffer ;;
      Some (blocks ++ [block], [])
  end.

Definition parse_step (st : parse_state) (line : str) : option parse_state :=
  if negb (nonempty (strip line)) then flush st
  else
    let (blocks, buffer) := st in
    Some (blocks, buffer ++ [rstrip_nl line]).

Fixpoint parse_loop (lines : list str) (st : parse_state) : option parse_state :=
  match lines with
  | [] => Some st
  | line :: more =>
      st' <- parse_step st line ;;
      parse_loop more st'
  end.

Definition parse_srt (lines : list str) : option (list SRTBlock) :=
  st <- parse_loop lines ([], []) ;;
  st' <- flush st ;;
  Some (fst st').

(** [str(counter if renumber else block.index or counter)] *)
Definition index_line (renumber : bool) (block : SRTBlock) (counter : nat) : str :=
  if renumber then str_of_nat counter
  else if nonempty (index block) then index block
  else str_of_nat counter.

Definition format_step (renumber : bool) (st : list str * nat) (block : SRTBlock)
  : list str * nat :=
  let (output, counter) := st in
  match texts block with
  | [] => (output, counter)
  | _ :: _ =>
      let output := output ++ [index_line renumber block counter] in
      let output := output ++ [timing block] in
      let output := output ++ texts block in
      let output := output ++ [[]] in
      (output, counter + 1)
  end.

Definition format_srt (blocks : list SRTBlock) (renumber : bool) : list str :=
  fst (fold_left (format_step renumber) blocks ([], 1)).

(** [_text_without_overrides] *)
Definition _text_without_overrides (text : str) : str :=
  re_sub ASS_OVERRIDE_RE [] text.

(** The text [_write_lines] prints or writes. *)
Definition _write_lines (lines : list str) : str :=
  join [newline] lines ++ (match lines with [] => [] | _ :: _ => [newline] end).

Section Pipeline.
Context {U : UnicodeData}.

(** The inner loop of [sdh_to_full_blocks]. *)
Definition clean_texts (lines : list str) (cfg : SDHConfig) : list str :=
  fold_left
    (fun new_texts text =>
       match clean_line text cfg with
       | Some cleaned => if nonempty cleaned then new_texts ++ [cleaned] else new_texts
       | None => new_texts
       end)
    lines [].

Definition sdh_to_full_blocks (blocks : list SRTBlock) (cfg : SDHConfig)
  : list SRTBlock :=
  fold_left
    (fun cleaned_blocks block =>
       let new_texts := clean_texts (texts block) cfg in
       if nonempty_list new_texts
       then cleaned_blocks ++
              [{| index := index block; timing := timing block; texts := new_texts |}]
       else cleaned_blocks)
    blocks [].

Definition full_to_forced_blocks (blocks : list SRTBlock)
    (cue_checker : option (str -> bool)) : list SRTBlock :=
  let checker := checker_or_default cue_checker in
  fold_left
    (fun forced block =>
       if nonempty_list (texts block)
          && forallb (fun t => checker (_text_without_overrides t)) (texts block)
       then forced ++ [block]
       else forced)
    blocks [].

(** The three modes of [main], from parsed blocks to output lines. *)
Inductive mode : Type := sdh_to_full | full_to_forced | sdh_to_forced.

Definition run_mode (m : mode) (blocks : list SRTBlock) (cfg : SDHConfig)
  : list str :=
  let result_blocks :=
    match m with
    | sdh_to_full => sdh_to_full_blocks blocks cfg
    | full_to_forced => full_to_forced_blocks blocks None
    | sdh_to_forced =>
        let full_blocks := sdh_to_full_blocks blocks cfg in
        full_to_forced_blocks full_blocks None
    end in
  format_srt result_blocks true.

End Pipeline.

(** ** Notions used in the statements *)

(** A character table that classifies nothing above U+00FF.  It serves to
    run the functions on inputs within Latin-1, where the tables written out
    above decide alone. *)
Definition latin1_only : UnicodeData := {|
  wide_isalpha := fun _ => false;
  wide_isupper := fun _ => false;
  wide_isdecimal := fun _ => false;
  wide_isalnum := fun _ => false;
  wide_upper := fun c => [c]
|}.

(** [needle in hay] *)
Fixpoint contains (needle hay : str) : bool :=
  match hay with
  | [] => startswith needle []
  | _ :: hay' => startswith needle hay || contains needle hay'
  end.

Definition is_blank (line : str) : bool := negb (nonempty (strip line)).

Definition texts_of (blocks : list SRTBlock) : list (list str) := map texts blocks.

Definition has_texts (block : SRTBlock) : bool := nonempty_list (texts block).

(** The entries [format_srt] does not skip. *)
Definition emitted (blocks : list SRTBlock) : list SRTBlock :=
  filter has_texts blocks.

(** The lines of one formatted entry: index line, timing, texts, separator. *)
Definition entry_lines (renumber : bool) (numbered : nat * SRTBlock) : list str :=
  let (counter, block) := numbered in
  index_line renumber block counter :: timing block :: texts block ++ [[]].

(** The emitted entries with the value of [counter] at each. *)
Definition numbered_from (start : nat) (blocks : list SRTBlock)
  : list (nat * SRTBlock) :=
  combine (seq start (List.length (emitted blocks))) (emitted blocks).

(** The shape the specification describes: a separator between consecutive
    entries and none after the last one. *)
Fixpoint separated (entries : list (list str)) : list str :=
  match entries with
  | [] => []
  | [e] => e
  | e :: more => e ++ [[]] ++ separated more
  end.

Definition entry_body (renumber : bool) (numbered : nat * SRTBlock) : list str :=
  let (counter, block) := numbered in
  index_line renumber block counter :: timing block :: texts block.

(** How the lines of a buffer are laid out in the entry made from it. *)
Definition laid_out (buffer : list str) (block : SRTBlock) : Prop :=
  (buffer = texts block /\ index block = [] /\ timing block = []
   /\ List.length buffer < 2)
  \/ buffer = index block :: timing block :: texts block.

(** The stripped form of a non-blank line of the input. *)
Definition input_line (lines : list str) (x : str) : Prop :=
  exists l, In l lines /\ is_blank l = false /\ x = rstrip_nl l.

(** An entry made from a non-empty buffer of non-blank input lines. *)
Definition good_block (lines : list str) (block : SRTBlock) : Prop :=
  exists buffer,
    buffer <> [] /\ _make_block buffer = Some block /\ laid_out buffer block
    /\ Forall (input_line lines) buffer.

Section Readings.
Context {U : UnicodeData}.

(** What one line contributes to the cleaned texts. *)
Definition kept_line (cfg : SDHConfig) (text : str) : list str :=
  match clean_line text cfg with
  | Some cleaned => if nonempty cleaned then [cleaned] else []
  | None => []
  end.

(** What one entry contributes to the cleaned entries. *)
Definition kept_block (cfg : SDHConfig) (block : SRTBlock) : list SRTBlock :=
  let new_texts := flat_map (kept_line cfg) (texts block) in
  if nonempty_list new_texts
  then [{| index := index block; timing := timing block; texts := new_texts |}]
  else [].

End Readings.

(** Greedy repetition of a one-character class, read off [star_loop]. *)
Fixpoint greedy (R : Type) (p : char -> bool) (pos : nat) (s : str) (c : caps)
    (k : cont R) : option R :=
  match s with
  | x :: s' =>
      if p x
      then match greedy p (S pos) s' c k with
           | Some r => Some r
           | None => k pos s c
           end
      else k pos s c
  | [] => k pos s c
  end.

(** A class cannot go past [s] when [s] is empty or starts outside it. *)
Definition stops (p : char -> bool) (s : str) : Prop :=
  match s with
  | [] => True
  | x :: _ => p x = false
  end.

(** The pattern of a bracketed span: [open], anything but [close], [close]. *)
Definition bracket_re (open close : char) : regex :=
  Cat (Chr open) (Cat (Star (Cls (other_than close))) (Chr close)).

(** The rest of [s] after the first [x], if [x] occurs. *)
Fixpoint after_first (x : char) (s : str) : option str :=
  match s with
  | [] => None
  | y :: s' => if char_eqb x y then Some s' else after_first x s'
  end.

(** The removal of bracketed spans read as a scanner; [inside] tells whether
    the scan is within a span being removed. *)
Fixpoint remove_spans (open close : char) (inside : bool) (s : str) : str :=
  match s with
  | [] => []
  | x :: s' =>
      if inside then remove_spans open close (negb (char_eqb close x)) s'
      else if char_eqb open x && mem close s'
           then remove_spans open close true s'
           else x :: remove_spans open close false s'
  end.

(** The collapsing of whitespace runs read as a scanner; [in_run] tells
    whether the scan is within a run already replaced by a space. *)
Fixpoint collapse (in_run : bool) (s : str) : str :=
  match s with
  | [] => []
  | x :: s' =>
      if isspace x
      then if in_run then collapse true s' else ch " " :: collapse true s'
      else x :: collapse false s'
  end.

(** No [open] of [s] has a [close] after it. *)
Fixpoint unmatched (open close : char) (s : str) : Prop :=
  match s with
  | [] => True
  | x :: s' => (x = open -> ~ In close s') /\ unmatched open close s'
  end.

(** Every whitespace character of [s] is a space, and no two are adjacent. *)
Fixpoint single_spaced (s : str) : Prop :=
  match s with
  | [] => True
  | x :: s' =>
      (isspace x = true -> x = ch " " /\ stops isspace s') /\ single_spaced s'
  end.

(** The characters of [s] other than whitespace. *)
Definition text_of (s : str) : str := filter (fun c => negb (isspace c)) s.

(** [re.sub(r"\s+", " ", s).strip()] read through the scanner. *)
Definition normalize (s : str) : str := strip (collapse false s).

(** A line with none of the characters that start a shielded span. *)
Definition markup_free (line : str) : Prop :=
  ~ In (ch "<") line /\ ~ In (ch "{") line /\ ~ In (ch "\") line.

(** A line the speaker rule cannot match under [cfg]: the rule is off, or
    the line has no colon. *)
Definition speaker_free (cfg : SDHConfig) (line : str) : Prop :=
  remove_text_before_colon cfg = true -> ~ In colon line.

Definition plain (cfg : SDHConfig) (line : str) : Prop :=
  markup_free line /\ speaker_free cfg line.

(** [re.fullmatch] of a bracket pattern, decided on the string. *)
Definition is_span (open close : char) (s : str) : bool :=
  match s with
  | [] => false
  | x :: s' =>
      char_eqb open x
      && match after_first close s' with
         | Some [] => true
         | _ => false
         end
  end.

(** A text that starts with a character other than whitespace. *)
Definition starts_with_text (rest : str) : Prop :=
  match rest with
  | [] => False
  | x :: _ => isspace x = false
  end.

(** [dataclasses.replace(cfg, colon_only_if_uppercase=b)] *)
Definition with_colon_only_if_uppercase (b : bool) (cfg : SDHConfig) : SDHConfig := {|
  remove_between_square := remove_between_square cfg;
  remove_between_paren := remove_between_paren cfg;
  between_only_if_separate_line := between_only_if_separate_line cfg;
  remove_text_before_colon := remove_text_before_colon cfg;
  colon_only_if_uppercase := b;
  remove_if_only_music_symbols := remove_if_only_music_symbols cfg
|}.

(** The name characters as the specification lists them: letters, digits,
    spaces, quotes, ampersand, parentheses, hyphen. *)
Definition spec_name_char {U : UnicodeData} (c : char) : bool :=
  isalpha c || isdecimal c
  || mem c [ch " "; ch "'"; double_quote; ch "&"; ch "("; ch ")"; ch "-"].

(** The lines [SPEAKER_RE] is written for: leading whitespace, a prefix of the
    class, a colon, whitespace, then [rest] up to the end of the line. *)
Definition speaker_shape (line rest : str) : Prop :=
  exists lead prefix gap tail,
    line = lead ++ prefix ++ colon :: gap ++ rest ++ tail
    /\ forallb isspace lead = true
    /\ forallb speaker_class prefix = true
    /\ 2 <= List.length prefix
    /\ forallb isspace gap = true
    /\ rest <> [] /\ forallb dot rest = true
    /\ (tail = [] \/ tail = [newline]).

(** ** Reading, options and the program *)

(** The line boundaries of [str.splitlines()]. *)
Definition is_linebreak (c : char) : bool :=
  (in_range 10 13 c || in_range 28 30 c || mem c [133; 8232; 8233])%N.

(** [s.splitlines()]: [cur] is the line being read.  A carriage return
    followed by a line feed is one boundary; no empty last line is made. *)
Fixpoint split_from (s : str) (cur : str) : list str :=
  match s with
  | [] => match cur with [] => [] | _ :: _ => [cur] end
  | c :: s' =>
      if is_linebreak c
      then
        if char_eqb c 13%N
        then match s' with
             | d :: s'' =>
                 if char_eqb d 10%N then cur :: split_from s'' []
                 else cur :: split_from s' []
             | [] => cur :: split_from s' []
             end
        else cur :: split_from s' []
      else split_from s' (cur ++ [c])
  end.

Definition splitlines (s : str) : list str := split_from s [].

(** Iterating over a text stream: every line keeps its ["\n"]; text after the
    last one is a line of its own. *)
Fixpoint iter_from (s : str) (cur : str) : list str :=
  match s with
  | [] => match cur with [] => [] | _ :: _ => [cur] end
  | c :: s' =>
      if char_eqb c newline then (cur ++ [c]) :: iter_from s' []
      else iter_from s' (cur ++ [c])
  end.

Definition iter_lines (s : str) : list str := iter_from s [].

(** [_read_lines(path)] as a function of [text], the decoded text of the
    stream that [path] selects: standard input for [None], the file
    otherwise. *)
Definition _read_lines (path : option string) (text : str) : list str :=
  match path with
  | None => map rstrip_nl (iter_lines text)
  | Some _ => splitlines text
  end.

(** The [argparse.Namespace] that [build_parser] produces. *)
Module Namespace.
Record t : Type := {
  mode : mode;
  preset : string;
  input : option string;
  output : option string;
  remove_between_square : option bool;
  remove_between_paren : option bool;
  between_only_if_separate_line : option bool;
  remove_text_before_colon : option bool;
  colon_only_if_uppercase : option bool;
  remove_if_only_music_symbols : option bool
}.
End Namespace.

(** [value if value is not None else default] *)
Definition override (value : option bool) (default : bool) : bool :=
  match value with
  | Some b => b
  | None => default
  end.

Definition _apply_overrides (cfg : SDHConfig) (args : Namespace.t) : SDHConfig := {|
  remove_between_square :=
    override (Namespace.remove_between_square args) (remove_between_square cfg);
  remove_between_paren :=
    override (Namespace.remove_between_paren args) (remove_between_paren cfg);
  between_only_if_separate_line :=
    override (Namespace.between_only_if_separate_line args)
      (between_only_if_separate_line cfg);
  remove_text_before_colon :=
    override (Namespace.remove_text_before_colon args) (remove_text_before_colon cfg);
  colon_only_if_uppercase :=
    override (Namespace.colon_only_if_uppercase args) (colon_only_if_uppercase cfg);
  remove_if_only_music_symbols :=
    override (Namespace.remove_if_only_music_symbols args)
      (remove_if_only_music_symbols cfg)
|}.

(** [PRESETS[name]]; [None] stands for [KeyError]. *)
Fixpoint lookup (name : string) (table : list (string * SDHConfig))
  : option SDHConfig :=
  match table with
  | [] => None
  | (key, cfg) :: more => if String.eqb name key then Some cfg else lookup name more
  end.

(** What the code cannot decide: whether the stream an output path selects
    (standard output for [None]) can be opened and written to, and which
    characters the encoding of standard output, with its error handler, can
    encode. *)
Record Env : Type := {
  opens : option string -> bool;
  stdout_encodes : char -> bool
}.

(** The surrogate code points U+D800..U+DFFF, which UTF-8 does not encode. *)
Definition is_surrogate (c : char) : bool := in_range 55296%N 57343%N c.

(** Whether [c] can be written to the stream [path] selects: a file is
    written with [encoding="utf-8"]. *)
Definition encodes (env : Env) (path : option string) (c : char) : bool :=
  match path with
  | None => stdout_encodes env c
  | Some _ => negb (is_surrogate c)
  end.

(** Whether [print(text, end="")] or [path.write_text(text, encoding="utf-8")]
    returns. *)
Definition accepts (env : Env) (path : option string) (text : str) : bool :=
  opens env path && forallb (encodes env path) text.

(** [_write_lines(path, lines)] with its effect: the text written, or [None]
    for the exception ([OSError], [UnicodeEncodeError]) that the write
    raises. *)
Definition _write_lines_to (env : Env) (path : option string) (lines : list str)
  : option str :=
  let text := _write_lines lines in
  if accepts env path text then Some text else None.

(** [main] from the decoded text of the input stream to the text written to
    the output stream: preset, overrides, reading, parsing, the mode,
    formatting, writing.  [None] stands for an exception. *)
Definition main {U : UnicodeData} (env : Env) (args : Namespace.t) (text : str)
  : option str :=
  cfg <- lookup (Namespace.preset args) PRESETS ;;
  let cfg := _apply_overrides cfg args in
  let lines := _read_lines (Namespace.input args) text in
  blocks <- parse_srt lines ;;
  let output_lines := run_mode (Namespace.mode args) blocks cfg in
  _write_lines_to env (Namespace.output args) output_lines.

(** ** More notions used in the statements *)

(** A line that [parse_srt] buffers as it is: not blank, no trailing newline. *)
Definition solid (x : str) : Prop := is_blank x = false /\ rstrip_nl x = x.

(** A line without any line boundary. *)
Definition one_line (x : str) : bool := forallb (fun c => negb (is_linebreak c)) x.

(** The entry [format_srt] writes for an entry met when the counter is [k]. *)
Definition written (renumber : bool) (numbered : nat * SRTBlock) : SRTBlock :=
  let (k, block) := numbered in
  {| index := index_line renumber block k;
     timing := timing block;
     texts := texts block |}.

(** An entry whose lines [parse_srt] reads back as they are. *)
Definition readable (renumber : bool) (block : SRTBlock) : Prop :=
  solid (timing block) /\ Forall solid (texts block)
  /\ (renumber = false -> index block <> [] -> solid (index block)).

(** The test of [full_to_forced_blocks] on one entry. *)
Definition forced_entry {U : UnicodeData} (cue_checker : option (str -> bool))
    (block : SRTBlock) : bool :=
  nonempty_list (texts block)
  && forallb (fun t => checker_or_default cue_checker (_text_without_overrides t))
       (texts block).

(** The entry [_make_block] makes of a single line. *)
Definition lone (x : str) : SRTBlock := {| index := []; timing := []; texts := [x] |}.

(** Index and timing of an entry. *)
Definition header (block : SRTBlock) : str * str := (index block, timing block).

(** [a] is [b] with some characters deleted. *)
Inductive subseq : str -> str -> Prop :=
| subseq_nil : subseq [] []
| subseq_skip (x : char) (a b : str) : subseq a b -> subseq a (x :: b)
| subseq_keep (x : char) (a b : str) : subseq a b -> subseq (x :: a) (x :: b).

(** The arguments with [--output] given as [path]. *)
Definition with_output (path : option string) (args : Namespace.t)
  : Namespace.t := {|
  Namespace.mode := Namespace.mode args;
  Namespace.preset := Namespace.preset args;
  Namespace.input := Namespace.input args;
  Namespace.output := path;
  Namespace.remove_between_square := Namespace.remove_between_square args;
  Namespace.remove_between_paren := Namespace.remove_between_paren args;
  Namespace.between_only_if_separate_line :=
    Namespace.between_only_if_separate_line args;
  Namespace.remove_text_before_colon := Namespace.remove_text_before_colon args;
  Namespace.colon_only_if_uppercase := Namespace.colon_only_if_uppercase args;
  Namespace.remove_if_only_music_symbols :=
    Namespace.remove_if_only_music_symbols args
|}.

(** The arguments with [--colon-only-if-uppercase] given as [value]. *)
Definition with_colon_option (value : option bool) (args : Namespace.t)
  : Namespace.t := {|
  Namespace.mode := Namespace.mode args;
  Namespace.preset := Namespace.preset args;
  Namespace.input := Namespace.input args;
  Namespace.output := Namespace.output args;
  Namespace.remove_between_square := Namespace.remove_between_square args;
  Namespace.remove_between_paren := Namespace.remove_between_paren args;
  Namespace.between_only_if_separate_line :=
    Namespace.between_only_if_separate_line args;
  Namespace.remove_text_before_colon := Namespace.remove_text_before_colon args;
  Namespace.colon_only_if_uppercase := value;
  Namespace.remove_if_only_music_symbols :=
    Namespace.remove_if_only_music_symbols args
|}.

(** A line that [_read_lines] reads as one line from the stream [path]
    selects: standard input breaks lines at the newline only, a file at every
    line boundary. *)
Definition unbroken (path : option string) (l : str) : bool :=
  match path with
  | None => forallb (fun c => negb (char_eqb newline c)) l
  | Some _ => one_line l
  end.

(** An entry whose timing and text lines are read back as they are. *)
Definition sound (path : option string) (block : SRTBlock) : Prop :=
  solid (timing block) /\ Forall solid (texts block)
  /\ unbroken path (timing block) = true
  /\ Forall (fun t => unbroken path t = true) (texts block).

(** An entry whose timing and text lines are made of characters of [P]. *)
Definition made_of (P : char -> bool) (block : SRTBlock) : Prop :=
  forallb P (timing block) = true
  /\ Forall (fun t => forallb P t = true) (texts block).

(** The entries [main] formats: [result_blocks]. *)
Definition result_blocks {U : UnicodeData} (m : mode) (blocks : list SRTBlock)
    (cfg : SDHConfig) : list SRTBlock :=
  match m with
  | sdh_to_full => sdh_to_full_blocks blocks cfg
  | full_to_forced => full_to_forced_blocks blocks None
  | sdh_to_forced =>
      let full_blocks := sdh_to_full_blocks blocks cfg in
      full_to_forced_blocks full_blocks None
  end.

(** ** Lines with tags *)

Definition underscore : char := ch "_".

(** The four kinds of span [clean_line] shields, in the order of its four
    substitutions. *)
Inductive kind : Type := Br | Html | Override | Newline.

Definition pattern (k : kind) : regex :=
  match k with
  | Br => BR_TAG_RE
  | Html => HTML_TAG_RE
  | Override => ASS_OVERRIDE_RE
  | Newline => ASS_NEWLINE_RE
  end.

Definition rank (k : kind) : nat :=
  match k with Br => 0 | Html => 1 | Override => 2 | Newline => 3 end.

(** The inside of a line-break tag, as [BR_TAG_RE] wants it: [b], [r],
    whitespace, then nothing or a slash. *)
Definition is_br (body : str) : bool :=
  match body with
  | c1 :: c2 :: tail =>
      mem c1 [ch "b"; ch "B"] && mem c2 [ch "r"; ch "R"]
      && match lstrip_by isspace tail with
         | [] => true
         | [c] => char_eqb (ch "/") c
         | _ => false
         end
  | _ => false
  end.

(** The kind of a tag: the substitution that shields it. *)
Definition kind_of (t : str) : kind :=
  match t with
  | c :: rest =>
      if char_eqb c (ch "<") then (if is_br (removelast rest) then Br else Html)
      else if char_eqb c (ch "{") then Override
      else Newline
  | [] => Newline
  end.

(** A tag in angle brackets, with at least one character and no angle
    bracket inside; line-break tags are of this make. *)
Definition angle_tag (t : str) : Prop :=
  exists body,
    t = ch "<" :: body ++ [ch ">"]
    /\ body <> [] /\ ~ In (ch ">") body /\ ~ In (ch "<") body.

(** An override in braces, with no closing brace and no opening angle
    bracket inside. *)
Definition override_tag (t : str) : Prop :=
  exists body,
    t = ch "{" :: body ++ [ch "}"]
    /\ ~ In (ch "}") body /\ ~ In (ch "<") body.

(** A line-break escape, backslash and [N] or [n]. *)
Definition newline_tag (t : str) : Prop :=
  exists c, t = [ch "\"; c] /\ mem c [ch "N"; ch "n"] = true.

(** A span of one of these makes, without underscore. *)
Definition tag (t : str) : Prop :=
  ~ In underscore t
  /\ (angle_tag t \/ override_tag t \/ newline_tag t).

(** A text with none of the characters the rules of [clean_line] look for:
    angle bracket, brace, backslash, underscore, square bracket, parenthesis,
    colon. *)
Definition quiet (s : str) : bool :=
  forallb (fun c => negb (mem c (py "<{\_[(:"))) s.

(** A line given as a leading text and tags, each followed by a text. *)
Definition tagged (lead : str) (parts : list (str * str)) : str :=
  lead ++ flat_map (fun p => fst p ++ snd p) parts.

(** The texts after the tags with their whitespace runs collapsed. *)
Definition collapsed {M : Type} (parts : list (M * str)) : list (M * str) :=
  map (fun p => (fst p, collapse false (snd p))) parts.

(** The text after the last tag with its trailing whitespace removed. *)
Fixpoint rstrip_last {M : Type} (parts : list (M * str)) : list (M * str) :=
  match parts with
  | [] => []
  | [(t, s)] => [(t, rstrip_by isspace s)]
  | p :: more => p :: rstrip_last more
  end.

Definition settle {M : Type} (parts : list (M * str)) : list (M * str) :=
  rstrip_last (collapsed parts).

(** A tag as it stands in the line during shielding: itself, or the token
    that stands for it. *)
Inductive mark : Type :=
| Tag (t : str)
| Tok (n : nat).

Definition show (m : mark) : str :=
  match m with
  | Tag t => t
  | Tok n => tag_token n
  end.

Definition shown (parts : list (mark * str)) : list (str * str) :=
  map (fun p => (show (fst p), snd p)) parts.

Definition kind_eqb (a b : kind) : bool := Nat.eqb (rank a) (rank b).

(** One of the four substitutions on the parts of a line: the tags of kind
    [k] are stored and replaced by their tokens. *)
Fixpoint pass (k : kind) (parts : list (mark * str)) (placeholders : list str)
  : list (mark * str) * list str :=
  match parts with
  | [] => ([], placeholders)
  | (Tag t, s) :: more =>
      if kind_eqb (kind_of t) k
      then let (more', placeholders') := pass k more (placeholders ++ [t]) in
           ((Tok (List.length placeholders), s) :: more', placeholders')
      else let (more', placeholders') := pass k more placeholders in
           ((Tag t, s) :: more', placeholders')
  | (Tok n, s) :: more =>
      let (more', placeholders') := pass k more placeholders in
      ((Tok n, s) :: more', placeholders')
  end.

(** The substitution of kind [k] copies [t], wherever it stands. *)
Definition copied (k : kind) (t : str) : Prop :=
  forall pos rest st,
    sub_from (pattern k) _store pos (t ++ rest) 0 st
    = let (tail, st') :=
        sub_from (pattern k) _store (pos + List.length t) rest 0 st in
      (t ++ tail, st').

(** The substitution of kind [k] matches [t], wherever it stands. *)
Definition stored (k : kind) (t : str) : Prop :=
  t <> []
  /\ forall pos rest, match_here (pattern k) pos (t ++ rest) = Some rest.

Definition passable (k : kind) (p : mark * str) : Prop :=
  copied k (snd p)
  /\ match fst p with
     | Tok n => True
     | Tag t => if kind_eqb (kind_of t) k then stored k t else copied k t
     end.

(** A part before the substitution of rank [n]: tags of earlier kinds are
    tokens already. *)
Definition ready (n : nat) (p : mark * str) : Prop :=
  quiet (snd p) = true
  /\ match fst p with
     | Tok _ => True
     | Tag t => tag t /\ n <= rank (kind_of t)
     end.

(** What a mark stands for. *)
Definition orig (placeholders : list str) (m : mark) : str :=
  match m with
  | Tag t => t
  | Tok n => nth n placeholders []
  end.

(** The token of a part stands for a stored tag. *)
Definition indexed (placeholders : list str) (p : mark * str) : Prop :=
  match fst p with
  | Tok n => n < List.length placeholders
  | Tag _ => True
  end.

(** The parts with every mark replaced by what it stands for. *)
Definition restored (placeholders : list str) (parts : list (mark * str))
  : list (str * str) :=
  map (fun p => (orig placeholders (fst p), snd p)) parts.

(** The parts of a line before shielding. *)
Definition tags_of (parts : list (str * str)) : list (mark * str) :=
  map (fun p => (Tag (fst p), snd p)) parts.

(** A line as characters and tokens. *)
Definition piece : Type := (char + nat)%type.

(** A piece that is a character is no underscore: the underscores of the
    line are those of its tokens. *)
Definition sound_piece (p : piece) : Prop :=
  match p with
  | inl c => c <> underscore
  | inr _ => True
  end.

Definition show_piece (p : piece) : str :=
  match p with
  | inl c => [c]
  | inr n => tag_token n
  end.

Definition flatten (pieces : list piece) : str := flat_map show_piece pieces.

Definition chars (s : str) : list piece := map inl s.

(** [replace(token k, original)] on pieces. *)
Definition subst (k : nat) (original : str) (pieces : list piece) : list piece :=
  flat_map (fun p => match p with
                     | inr n => if Nat.eqb n k then chars original else [p]
                     | inl _ => [p]
                     end) pieces.

(** The restoring loop on pieces. *)
Fixpoint restore_pieces (k : nat) (placeholders : list str) (pieces : list piece)
  : list piece :=
  match placeholders with
  | [] => pieces
  | original :: more => restore_pieces (S k) more (subst k original pieces)
  end.

Definition pieces_of (lead : str) (parts : list (mark * str)) : list piece :=
  chars lead
  ++ flat_map (fun p => match fst p with
                        | Tag t => chars t
                        | Tok n => [inr n]
                        end ++ chars (snd p)) parts.

(** The letters of a line, as [is_all_caps_cue] collects them. *)
Definition letters {U : UnicodeData} (text : str) : str := filter isalpha text.

(** * Properties *)

(** ** Loops that append *)

Lemma fold_left_appends (A B : Type) (step : list B -> A -> list B)
    (f : A -> list B) :
  (forall acc x, step acc x = acc ++ f x) ->
  forall l acc, fold_left step l acc = acc ++ flat_map f l.
Proof.
  intros Hstep l; induction l as [|x l IH]; intros acc; simpl.
  - now rewrite app_nil_r.
  - rewrite IH, Hstep, <- app_assoc. reflexivity.
Qed.

Lemma flat_map_singletons (A : Type) (g : A -> list A) (l : list A) :
  (forall x, In x l -> g x = [x]) -> flat_map g l = l.
Proof.
  induction l as [|x l IH]; intros H; simpl; [reflexivity|].
  rewrite (H x) by now left. simpl. f_equal. apply IH.
  intros y Hy. apply H. now right.
Qed.

Lemma flat_map_short (A : Type) (g : A -> list A) (l : list A) :
  (forall x, List.length (g x) <= 1) ->
  List.length (flat_map g l) <= List.length l.
Proof.
  intros Hg; induction l as [|x l IH]; simpl; [lia|].
  rewrite length_app. specialize (Hg x). lia.
Qed.

Lemma flat_map_fixed (A : Type) (g : A -> list A) (l : list A) :
  (forall x, List.length (g x) <= 1) ->
  flat_map g l = l -> forall x, In x l -> g x = [x].
Proof.
  intros Hg; induction l as [|y l IH]; intros Heq x Hx; [destruct Hx|].
  simpl in Heq.
  assert (Hy : g y = [y] /\ flat_map g l = l).
  { destruct (g y) as [|z [|z' more]] eqn:Egy.
    - exfalso. simpl in Heq.
      pose proof (flat_map_short g l Hg) as Hlen.
      rewrite Heq in Hlen. simpl in Hlen. lia.
    - simpl in Heq. injection Heq as Hz Hl. subst z. split; [reflexivity|exact Hl].
    - specialize (Hg y). rewrite Egy in Hg. simpl in Hg. lia. }
  destruct Hy as [Hy Hl]. destruct Hx as [<-|Hx]; [exact Hy|].
  now apply IH.
Qed.

(** ** The formatter *)

Lemma numbered_from_skip (start : nat) (block : SRTBlock) (blocks : list SRTBlock) :
  texts block = [] ->
  numbered_from start (block :: blocks) = numbered_from start blocks.
Proof.
  intros H. unfold numbered_from, emitted. simpl.
  assert (E : has_texts block = false) by (unfold has_texts; now rewrite H).
  now rewrite E.
Qed.

Lemma numbered_from_keep (start : nat) (block : SRTBlock) (blocks : list SRTBlock) :
  texts block <> [] ->
  numbered_from start (block :: blocks)
  = (start, block) :: numbered_from (S start) blocks.
Proof.
  intros H. unfold numbered_from, emitted. simpl.
  assert (E : has_texts block = true).
  { unfold has_texts. destruct (texts block); [congruence|reflexivity]. }
  now rewrite E.
Qed.

Lemma format_loop (renumber : bool) (blocks : list SRTBlock) :
  forall output counter,
    fst (fold_left (format_step renumber) blocks (output, counter))
    = output ++ flat_map (entry_lines renumber) (numbered_from counter blocks).
Proof.
  induction blocks as [|b blocks IH]; intros output counter; simpl.
  - unfold numbered_from. simpl. now rewrite app_nil_r.
  - destruct (texts b) as [|t ts] eqn:Et.
    + rewrite IH, numbered_from_skip by assumption. reflexivity.
    + rewrite IH, numbered_from_keep by congruence.
      simpl. rewrite Et, Nat.add_1_r, <- !app_assoc. reflexivity.
Qed.

Lemma format_srt_entries (blocks : list SRTBlock) (renumber : bool) :
  format_srt blocks renumber
  = flat_map (entry_lines renumber) (numbered_from 1 blocks).
Proof. unfold format_srt. now rewrite format_loop. Qed.

Lemma emitted_have_texts (blocks : list SRTBlock) :
  Forall (fun b => texts b <> []) (emitted blocks).
Proof.
  apply Forall_forall. intros b Hb. apply filter_In in Hb.
  destruct Hb as [_ Hb]. unfold has_texts in Hb.
  destruct (texts b); [discriminate|congruence].
Qed.

Lemma uint_digits_inj (d d' : Decimal.uint) :
  uint_digits d = uint_digits d' -> d = d'.
Proof.
  revert d'; induction d; intros d'; destruct d'; simpl; intros H;
    try discriminate; try reflexivity; inversion H; f_equal; auto.
Qed.

Lemma str_of_nat_inj (i j : nat) : str_of_nat i = str_of_nat j -> i = j.
Proof.
  intros H. apply Unsigned.to_uint_inj. now apply uint_digits_inj.
Qed.

Lemma join_trailing_blank (body : list str) :
  body <> [] -> join [newline] (body ++ [[]]) = join [newline] body ++ [newline].
Proof.
  induction body as [|l [|l' body] IH]; intros H; [congruence| |].
  - simpl. reflexivity.
  - change (join [newline] ((l :: l' :: body) ++ [[]]))
      with (l ++ [newline] ++ join [newline] ((l' :: body) ++ [[]])).
    rewrite IH by discriminate.
    change (join [newline] (l :: l' :: body))
      with (l ++ [newline] ++ join [newline] (l' :: body)).
    now rewrite <- !app_assoc.
Qed.

Lemma entries_end_blank (renumber : bool) (entries : list (nat * SRTBlock)) :
  entries <> [] ->
  exists body, body <> [] /\ flat_map (entry_lines renumber) entries = body ++ [[]].
Proof.
  induction entries as [|[n b] entries IH]; intros H; [congruence|].
  destruct entries as [|e entries].
  - exists (index_line renumber b n :: timing b :: texts b). split; [discriminate|].
    simpl. now rewrite app_nil_r.
  - destruct IH as [body [Hb Heq]]; [discriminate|].
    exists (entry_lines renumber (n, b) ++ body). split.
    + simpl. discriminate.
    + change (flat_map (entry_lines renumber) ((n, b) :: e :: entries))
        with (entry_lines renumber (n, b) ++ flat_map (entry_lines renumber) (e :: entries)).
      rewrite Heq. now rewrite app_assoc.
Qed.

Lemma numbered_from_nil (start : nat) (blocks : list SRTBlock) :
  numbered_from start blocks = [] <-> emitted blocks = [].
Proof.
  unfold numbered_from. destruct (emitted blocks); simpl; split; intros H;
    try reflexivity; discriminate.
Qed.

(** C7.  [format_srt] never emits an entry with zero text lines, whatever
    [renumber] is: the output is made of the entries that have text alone,
    each with its index line, its timing, its texts (at least one) and a
    blank line, and an entry without text lines can be taken out of the input
    without changing the output.  With [renumber] the index lines of the
    emitted entries are 1, 2, 3, ... in order, one per emitted entry, without
    gaps: the output is, for the k-th entry that has text (k from 1), the
    numeral k, the timing, the texts and a blank line; distinct numbers have
    distinct numerals. *)
Theorem format_srt_drops_and_renumbers (blocks : list SRTBlock) :
  (forall renumber,
      format_srt blocks renumber
      = flat_map (fun kb : nat * SRTBlock =>
                    index_line renumber (snd kb) (fst kb)
                      :: timing (snd kb) :: texts (snd kb) ++ [[]])
          (combine (seq 1 (List.length (emitted blocks))) (emitted blocks)))
  /\ (forall renumber before block after,
        blocks = before ++ block :: after -> texts block = [] ->
        format_srt blocks renumber = format_srt (before ++ after) renumber)
  /\ format_srt blocks true
     = flat_map (fun kb : nat * SRTBlock =>
                   str_of_nat (fst kb) :: timing (snd kb) :: texts (snd kb) ++ [[]])
         (combine (seq 1 (List.length (emitted blocks))) (emitted blocks))
  /\ Forall (fun b => texts b <> [] /\ In b blocks) (emitted blocks)
  /\ (forall i j, str_of_nat i = str_of_nat j -> i = j).
Proof.
  split; [|split; [|split; [|split]]].
  - intros renumber. rewrite format_srt_entries. unfold numbered_from.
    apply flat_map_ext. intros [k b]. reflexivity.
  - intros renumber before block after -> Hnone.
    rewrite !format_srt_entries. unfold numbered_from, emitted.
    rewrite !filter_app. cbn [filter].
    assert (E : has_texts block = false) by (unfold has_texts; now rewrite Hnone).
    now rewrite E.
  - rewrite format_srt_entries. unfold numbered_from.
    apply flat_map_ext. intros [k b]. reflexivity.
  - apply Forall_forall. intros b Hb. split.
    + pose proof (emitted_have_texts blocks) as H.
      rewrite Forall_forall in H. now apply H.
    + apply filter_In in Hb. tauto.
  - apply str_of_nat_inj.
Qed.

(** C6, amended.  For each entry that has text, [format_srt] emits an index
    line, the timing unchanged, each text line unchanged and one blank
    separator line, the last emitted entry included: a non-empty output ends
    with the blank line, and the text [_write_lines] makes of it ends with
    two newlines. *)
Theorem format_srt_shape (blocks : list SRTBlock) (renumber : bool) :
  format_srt blocks renumber
  = flat_map (entry_lines renumber) (numbered_from 1 blocks)
  /\ (emitted blocks = [] ->
      format_srt blocks renumber = [] /\ _write_lines (format_srt blocks renumber) = [])
  /\ (emitted blocks <> [] ->
      exists body, body <> []
        /\ format_srt blocks renumber = body ++ [[]]
        /\ _write_lines (format_srt blocks renumber)
           = join [newline] body ++ [newline; newline]).
Proof.
  split; [apply format_srt_entries|]. rewrite format_srt_entries. split.
  - intros H. apply (numbered_from_nil 1) in H. rewrite H. split; reflexivity.
  - intros H.
    destruct (@entries_end_blank renumber (numbered_from 1 blocks)) as [body [Hb Heq]].
    { intros E. apply numbered_from_nil in E. contradiction. }
    exists body. split; [assumption|]. split; [assumption|].
    rewrite Heq. unfold _write_lines.
    rewrite join_trailing_blank by assumption.
    destruct (body ++ [[]]) eqn:E; [now destruct body|].
    now rewrite <- app_assoc.
Qed.

(** C6, as stated, fails: already for one entry the output ends with the
    separator, which the separator-between-entries shape does not have. *)
Lemma format_srt_trailing_separator :
  let entry := {| index := py "1"; timing := py "00:00:01,000 --> 00:00:02,000";
                  texts := [py "Hello"] |} in
  format_srt [entry] true
  = [py "1"; py "00:00:01,000 --> 00:00:02,000"; py "Hello"; []]
  /\ format_srt [entry] true
     <> separated (map (entry_body true) (numbered_from 1 [entry])).
Proof. split; [reflexivity|]. vm_compute. discriminate. Qed.

(** ** The segmenter *)

Lemma make_block_total (buffer : list str) :
  exists block, _make_block buffer = Some block /\ laid_out buffer block.
Proof.
  destruct buffer as [|x [|y more]].
  - eexists; split; [reflexivity|]. left. simpl. repeat split; lia.
  - eexists; split; [reflexivity|]. left. simpl. repeat split; lia.
  - eexists; split; [reflexivity|]. right. reflexivity.
Qed.

Lemma flush_ok (all : list str) (blocks : list SRTBlock) (buffer : list str) :
  Forall (good_block all) blocks -> Forall (input_line all) buffer ->
  exists blocks', flush (blocks, buffer) = Some (blocks', [])
    /\ Forall (good_block all) blocks'
    /\ (buffer = [] -> blocks' = blocks).
Proof.
  intros Hb Hbuf. destruct buffer as [|x buffer].
  - exists blocks. simpl. auto.
  - destruct (make_block_total (x :: buffer)) as [b [Hmk Hlay]].
    exists (blocks ++ [b]). unfold flush. rewrite Hmk. simpl.
    split; [reflexivity|]. split; [|discriminate].
    apply Forall_app. split; [assumption|]. constructor; [|constructor].
    exists (x :: buffer). repeat split; try assumption. discriminate.
Qed.

Lemma parse_loop_ok (all lines : list str) :
  incl lines all ->
  forall blocks buffer,
    Forall (good_block all) blocks -> Forall (input_line all) buffer ->
    exists blocks' buffer', parse_loop lines (blocks, buffer) = Some (blocks', buffer')
      /\ Forall (good_block all) blocks' /\ Forall (input_line all) buffer'.
Proof.
  induction lines as [|line lines IH]; intros Hincl blocks buffer Hb Hbuf.
  - exists blocks, buffer. simpl. auto.
  - assert (Hin : In line all) by (apply Hincl; now left).
    assert (Hincl' : incl lines all) by (intros x Hx; apply Hincl; now right).
    simpl. unfold parse_step.
    destruct (negb (nonempty (strip line))) eqn:Eblank.
    + destruct (flush_ok Hb Hbuf) as [blocks' [Hfl [Hb' _]]].
      rewrite Hfl. simpl. apply IH; auto.
    + simpl. apply IH; auto. apply Forall_app. split; [assumption|].
      constructor; [|constructor]. exists line. auto.
Qed.

Lemma parse_loop_app (l1 l2 : list str) (st : parse_state) :
  parse_loop (l1 ++ l2) st = (st1 <- parse_loop l1 st ;; parse_loop l2 st1).
Proof.
  revert st; induction l1 as [|x l1 IH]; intros st; simpl; [reflexivity|].
  destruct (parse_step st x); simpl; auto.
Qed.

Lemma parse_loop_blank (blanks : list str) (blocks : list SRTBlock) :
  forallb is_blank blanks = true ->
  parse_loop blanks (blocks, []) = Some (blocks, []).
Proof.
  induction blanks as [|x blanks IH]; intros H; simpl; [reflexivity|].
  simpl in H. apply andb_true_iff in H. destruct H as [Hx H].
  unfold parse_step. unfold is_blank in Hx. rewrite Hx. simpl. now apply IH.
Qed.

Lemma parse_step_blank_flushes (st : parse_state) (x : str) :
  is_blank x = true ->
  parse_step st x = None
  \/ exists blocks, parse_step st x = Some (blocks, []).
Proof.
  intros Hx. unfold parse_step. unfold is_blank in Hx. rewrite Hx.
  destruct st as [blocks buffer]. destruct buffer as [|y buffer]; simpl.
  - right. now exists blocks.
  - destruct (_make_block (y :: buffer)); simpl; [right|left]; eauto.
Qed.

(** C10.  [parse_srt] (with [_make_block]) returns on every line sequence;
    each entry it returns was made from a non-empty buffer of non-blank input
    lines, laid out over its index, timing and texts; blank lines alone give
    no entry, and a run of blank lines counts as one blank line. *)
Theorem parse_srt_total_and_nonempty (lines : list str) :
  exists blocks,
    parse_srt lines = Some blocks
    /\ Forall (fun block =>
                 exists buffer,
                   buffer <> [] /\ _make_block buffer = Some block
                   /\ laid_out buffer block
                   /\ Forall (input_line lines) buffer) blocks
    /\ (forallb is_blank lines = true -> blocks = [])
    /\ (forall before blank blanks after,
          lines = before ++ blank :: blanks ++ after ->
          is_blank blank = true -> forallb is_blank blanks = true ->
          parse_srt (before ++ blank :: after) = Some blocks).
Proof.
  destruct (@parse_loop_ok lines lines (incl_refl _) [] [])
    as [blocks1 [buffer1 [Hloop [Hb1 Hbuf1]]]]; try constructor.
  destruct (flush_ok Hb1 Hbuf1) as [blocks [Hfl [Hb _]]].
  assert (Hparse : parse_srt lines = Some blocks).
  { unfold parse_srt. rewrite Hloop. cbn [bind]. rewrite Hfl. reflexivity. }
  exists blocks. split; [exact Hparse|]. split; [exact Hb|]. split.
  - intros Hblank. unfold parse_srt in Hparse.
    rewrite parse_loop_blank in Hparse by assumption.
    simpl in Hparse. congruence.
  - intros before blank blanks after -> Hblank Hblanks.
    rewrite <- Hparse. unfold parse_srt.
    rewrite !parse_loop_app. destruct (parse_loop before ([], [])) as [st|];
      [|reflexivity].
    simpl. destruct (@parse_step_blank_flushes st blank Hblank) as [E|[bs E]];
      rewrite E; simpl; [reflexivity|].
    rewrite parse_loop_app, (parse_loop_blank _ _ Hblanks). reflexivity.
Qed.

(** ** SDH to Full *)

Section FullProperties.
Context {U : UnicodeData}.

Lemma clean_texts_kept (lines : list str) (cfg : SDHConfig) :
  clean_texts lines cfg = flat_map (kept_line cfg) lines.
Proof.
  unfold clean_texts. rewrite fold_left_appends with (f := kept_line cfg).
  - reflexivity.
  - intros acc x. unfold kept_line. destruct (clean_line x cfg) as [c|].
    + destruct (nonempty c); [reflexivity|now rewrite app_nil_r].
    + now rewrite app_nil_r.
Qed.

Lemma sdh_to_full_lines_kept (lines : list str) (cfg : SDHConfig) :
  sdh_to_full_lines lines cfg
  = flat_map (fun line => kept_line cfg (rstrip_nl line)) lines.
Proof.
  unfold sdh_to_full_lines.
  rewrite fold_left_appends with (f := fun line => kept_line cfg (rstrip_nl line)).
  - reflexivity.
  - intros acc x. unfold kept_line. destruct (clean_line (rstrip_nl x) cfg) as [c|].
    + destruct (nonempty c); [reflexivity|now rewrite app_nil_r].
    + now rewrite app_nil_r.
Qed.

Lemma sdh_to_full_blocks_kept (blocks : list SRTBlock) (cfg : SDHConfig) :
  sdh_to_full_blocks blocks cfg = flat_map (kept_block cfg) blocks.
Proof.
  unfold sdh_to_full_blocks. rewrite fold_left_appends with (f := kept_block cfg).
  - reflexivity.
  - intros acc b. unfold kept_block. rewrite clean_texts_kept.
    destruct (nonempty_list _); [reflexivity|now rewrite app_nil_r].
Qed.

Lemma kept_line_spec (cfg : SDHConfig) (text result : str) :
  In result (kept_line cfg text)
  <-> clean_line text cfg = Some result /\ result <> [].
Proof.
  unfold kept_line. destruct (clean_line text cfg) as [c|].
  - destruct c as [|x c]; simpl.
    + split; [tauto|]. intros [E H]. inversion E; subst. congruence.
    + split.
      * intros [<-|[]]. split; [reflexivity|discriminate].
      * intros [E _]. inversion E. now left.
  - simpl. split; [tauto|]. intros [E _]. discriminate.
Qed.

Lemma kept_line_short (cfg : SDHConfig) (text : str) :
  List.length (kept_line cfg text) <= 1.
Proof.
  unfold kept_line. destruct (clean_line text cfg) as [c|]; simpl; [|lia].
  destruct (nonempty c); simpl; lia.
Qed.

Lemma kept_block_short (cfg : SDHConfig) (block : SRTBlock) :
  List.length (kept_block cfg block) <= 1.
Proof.
  unfold kept_block. destruct (nonempty_list _); simpl; lia.
Qed.

Lemma kept_line_falsy (cfg : SDHConfig) (text : str) :
  clean_line text cfg = Some [] \/ clean_line text cfg = None ->
  kept_line cfg text = [].
Proof. unfold kept_line. intros [-> | ->]; reflexivity. Qed.

Lemma kept_block_falsy (cfg : SDHConfig) (block : SRTBlock) :
  Forall (fun t => clean_line t cfg = Some [] \/ clean_line t cfg = None)
    (texts block) ->
  kept_block cfg block = [].
Proof.
  intros H. unfold kept_block.
  replace (flat_map (kept_line cfg) (texts block)) with (@nil str); [reflexivity|].
  induction H as [|t ts Ht _ IH]; simpl; [reflexivity|].
  now rewrite (kept_line_falsy _ _ Ht).
Qed.

Lemma kept_block_texts (cfg : SDHConfig) (block b : SRTBlock) :
  In b (kept_block cfg block) ->
  index b = index block /\ timing b = timing block
  /\ texts b = flat_map (kept_line cfg) (texts block) /\ texts b <> [].
Proof.
  unfold kept_block.
  destruct (flat_map (kept_line cfg) (texts block)) as [|c cs] eqn:E; simpl;
    [tauto|].
  intros [<-|[]]. simpl. repeat split. discriminate.
Qed.

Lemma cleaned_texts_nonempty (blocks : list SRTBlock) (cfg : SDHConfig)
    (b : SRTBlock) (t : str) :
  In b (sdh_to_full_blocks blocks cfg) -> In t (texts b) ->
  t <> [] /\ exists block text,
      In block blocks /\ In text (texts block) /\ clean_line text cfg = Some t.
Proof.
  rewrite sdh_to_full_blocks_kept. intros Hb Ht.
  apply in_flat_map in Hb. destruct Hb as [block [Hblock Hb]].
  apply kept_block_texts in Hb. destruct Hb as [_ [_ [Htexts _]]].
  rewrite Htexts in Ht. apply in_flat_map in Ht. destruct Ht as [text [Htext Ht]].
  apply kept_line_spec in Ht. destruct Ht as [Hc Hne].
  split; [assumption|]. exists block, text. auto.
Qed.

Lemma kept_line_nil (cfg : SDHConfig) (text : str) :
  kept_line cfg text = []
  <-> clean_line text cfg = Some [] \/ clean_line text cfg = None.
Proof.
  split; [|apply kept_line_falsy].
  unfold kept_line. destruct (clean_line text cfg) as [[|c cleaned]|]; simpl;
    auto; discriminate.
Qed.

(** C9.  A line that cleans to the empty string is left out like a line that
    cleans to [None]: both loops keep, in order, exactly the non-empty
    results of [clean_line], and a line contributes nothing in either case;
    so an entry all of whose lines clean to the empty string or to [None] is
    dropped; and [clean_line] does return the empty string, not [None], for
    some lines. *)
Theorem empty_result_is_dropped (cfg : SDHConfig) :
  (forall lines,
      sdh_to_full_lines lines cfg
      = flat_map (fun line => kept_line cfg (rstrip_nl line)) lines)
  /\ (forall blocks,
        sdh_to_full_blocks blocks cfg = flat_map (kept_block cfg) blocks)
  /\ (forall text,
        kept_line cfg text = []
        <-> clean_line text cfg = Some [] \/ clean_line text cfg = None)
  /\ (forall text result,
        In result (kept_line cfg text)
        <-> clean_line text cfg = Some result /\ result <> [])
  /\ (forall before block after,
        Forall (fun t => clean_line t cfg = Some [] \/ clean_line t cfg = None)
          (texts block) ->
        kept_block cfg block = []
        /\ sdh_to_full_blocks (before ++ block :: after) cfg
           = sdh_to_full_blocks (before ++ after) cfg)
  /\ (forall idx tm,
        clean_line (py "[x]") default_config = Some []
        /\ sdh_to_full_lines [py "[x]"] default_config = []
        /\ sdh_to_full_blocks
             [{| index := idx; timing := tm; texts := [py "[x]"; py "(y)"] |}]
             default_config = []).
Proof.
  split; [intros lines; apply sdh_to_full_lines_kept|].
  split; [intros blocks; apply sdh_to_full_blocks_kept|].
  split; [intros text; apply kept_line_nil|].
  split; [intros text result; apply kept_line_spec|]. split.
  - intros before block after H. split; [now apply kept_block_falsy|].
    rewrite !sdh_to_full_blocks_kept, !flat_map_app. simpl.
    now rewrite (kept_block_falsy _ _ H).
  - intros idx tm. split; [vm_compute; reflexivity|].
    split; vm_compute; reflexivity.
Qed.

(** C8.  Scenario E: with [between_only_if_separate_line] and
    [remove_between_square] set, the line [[wind howling]] is dropped by the
    whole-line bracket rule, so the entry (as parsed from its three lines) is
    dropped by SDH to Full and nothing of it reaches the formatted output,
    in the SDH to Full mode as in the SDH to Forced mode. *)
Theorem scenario_E_entry_dropped (cfg : SDHConfig) (renumber : bool) :
  between_only_if_separate_line cfg = true ->
  remove_between_square cfg = true ->
  let entry := {| index := py "1"; timing := py "00:00:01,000 --> 00:00:02,000";
                  texts := [py "[wind howling]"] |} in
  parse_srt [py "1"; py "00:00:01,000 --> 00:00:02,000"; py "[wind howling]"]
  = Some [entry]
  /\ _should_drop_line_for_brackets (py "[wind howling]") cfg = true
  /\ clean_line (py "[wind howling]") cfg = None
  /\ sdh_to_full_blocks [entry] cfg = []
  /\ format_srt (sdh_to_full_blocks [entry] cfg) renumber = []
  /\ run_mode sdh_to_full [entry] cfg = []
  /\ run_mode sdh_to_forced [entry] cfg = [].
Proof.
  intros Hsep Hsq entry.
  assert (Hdrop : _should_drop_line_for_brackets (py "[wind howling]") cfg = true).
  { unfold _should_drop_line_for_brackets. rewrite Hsep, Hsq.
    vm_compute. reflexivity. }
  assert (Hclean : clean_line (py "[wind howling]") cfg = None).
  { unfold clean_line. now rewrite Hdrop. }
  assert (Hblocks : sdh_to_full_blocks [entry] cfg = []).
  { rewrite sdh_to_full_blocks_kept. simpl. rewrite app_nil_r.
    apply kept_block_falsy. simpl. constructor; [now right|constructor]. }
  split; [vm_compute; reflexivity|].
  split; [assumption|]. split; [assumption|]. split; [assumption|].
  unfold run_mode. rewrite Hblocks. repeat split.
Qed.

End FullProperties.

Section ScenarioERun.
#[local] Existing Instance latin1_only.

Lemma scenario_E_conservative_preset :
  between_only_if_separate_line conservative_config = true
  /\ remove_between_square conservative_config = true
  /\ sdh_to_full_blocks
       [{| index := py "1"; timing := py "00:00:01,000 --> 00:00:02,000";
           texts := [py "[wind howling]"] |}] conservative_config = [].
Proof.
  split; [reflexivity|]. split; [reflexivity|].
  apply (@scenario_E_entry_dropped latin1_only conservative_config true);
    reflexivity.
Defined.

End ScenarioERun.

(** ** Applying SDH to Full twice *)

Section Idempotence.
Context {U : UnicodeData}.

Lemma kept_block_fixed_elim (cfg : SDHConfig) (b : SRTBlock) :
  kept_block cfg b = [b] ->
  forall t, In t (texts b) -> clean_line t cfg = Some t.
Proof.
  intros H t Ht.
  assert (Hin : In b (kept_block cfg b)) by (rewrite H; now left).
  apply kept_block_texts in Hin. destruct Hin as [_ [_ [Htexts _]]].
  assert (Hk : kept_line cfg t = [t]).
  { apply flat_map_fixed with (l := texts b); auto using kept_line_short. }
  assert (Hin : In t (kept_line cfg t)) by (rewrite Hk; now left).
  now apply kept_line_spec in Hin.
Qed.

Lemma kept_block_fixed_intro (cfg : SDHConfig) (b : SRTBlock) :
  texts b <> [] ->
  (forall t, In t (texts b) -> t <> [] /\ clean_line t cfg = Some t) ->
  kept_block cfg b = [b].
Proof.
  intros Hne Hfix.
  assert (Hsame : flat_map (kept_line cfg) (texts b) = texts b).
  { apply flat_map_singletons. intros t Ht. destruct (Hfix t Ht) as [Ht0 Hc].
    unfold kept_line. rewrite Hc. destruct t; [congruence|reflexivity]. }
  unfold kept_block. rewrite Hsame. destruct b as [idx tm ts]. simpl in *.
  destruct ts; [congruence|reflexivity].
Qed.

(** A second application changes nothing exactly when every text line that
    survived the first one is returned unchanged by [clean_line]. *)
Lemma twice_same_iff_fixed (blocks : list SRTBlock) (cfg : SDHConfig) :
  sdh_to_full_blocks (sdh_to_full_blocks blocks cfg) cfg
  = sdh_to_full_blocks blocks cfg
  <-> (forall b t,
         In b (sdh_to_full_blocks blocks cfg) -> In t (texts b) ->
         clean_line t cfg = Some t).
Proof.
  split.
  - intros H b t Hb Ht.
    rewrite sdh_to_full_blocks_kept in H at 1.
    apply kept_block_fixed_elim with (b := b); [|assumption].
    apply flat_map_fixed with (l := sdh_to_full_blocks blocks cfg);
      auto using kept_block_short.
  - intros H. rewrite sdh_to_full_blocks_kept at 1.
    apply flat_map_singletons. intros b Hb.
    apply kept_block_fixed_intro.
    + rewrite sdh_to_full_blocks_kept in Hb. apply in_flat_map in Hb.
      destruct Hb as [block [_ Hb]]. now apply kept_block_texts in Hb.
    + intros t Ht. split; [|exact (H b t Hb Ht)].
      now destruct (cleaned_texts_nonempty _ _ _ _ Hb Ht).
Qed.

End Idempotence.

(** ** Shielding *)

Section ShieldRuns.
Context {U : UnicodeData}.

(** C1 fails on the code.  A tag inside an override is recorded first, the
    override around its placeholder second, and the restoring loop puts them
    back in that order: the tag is lost and its placeholder shows in the
    result.  A placeholder token written by the user is rewritten into a tag.
    A tag inside a bracketed annotation is deleted with the annotation. *)
Theorem shielded_spans_not_restored :
  shield (py "{<i>}") = (py "__TAG_1__", [py "<i>"; py "{__TAG_0__}"])
  /\ clean_line (py "{<i>}") default_config = Some (py "{__TAG_0__}")
  /\ contains (py "<i>") (py "{__TAG_0__}") = false
  /\ shield (py "__TAG_0__ <i>") = (py "__TAG_0__ __TAG_0__", [py "<i>"])
  /\ clean_line (py "__TAG_0__ <i>") default_config = Some (py "<i> <i>")
  /\ shield (py "[<i>]") = (py "[__TAG_0__]", [py "<i>"])
  /\ clean_line (py "[<i>]") default_config = Some []
  /\ clean_line (py "[<i>door creaks</i>] Hello") default_config
     = Some (py "Hello").
Proof.
  split; [vm_compute; reflexivity|]. split; [vm_compute; reflexivity|].
  split; [vm_compute; reflexivity|]. split; [vm_compute; reflexivity|].
  split; [vm_compute; reflexivity|]. split; [vm_compute; reflexivity|].
  split; vm_compute; reflexivity.
Qed.

End ShieldRuns.

(** ** The cue classifier *)

Section ClassifierRuns.
Context {U : UnicodeData}.

(** C2, amended.  Scenario C: the line is not classified as forced, because
    the classifier reads angle-bracket markup like any other text and the
    lower-case letter of the tag is outside the pattern; the entry is dropped
    by Full to Forced.  Without the tags the text is forced, and with the
    styling written as override codes the entry is kept as it is. *)
Theorem scenario_C_markup_is_classified (idx tm : str) :
  let line := py "<i>HELLO THERE</i>" in
  forced_class (ch "i") = false
  /\ re_fullmatch FORCED_RE line = None
  /\ is_all_caps_cue line = false
  /\ _text_without_overrides line = line
  /\ full_to_forced_blocks [{| index := idx; timing := tm; texts := [line] |}] None
     = []
  /\ is_all_caps_cue (py "HELLO THERE") = true
  /\ full_to_forced_blocks
       [{| index := idx; timing := tm; texts := [py "{\i1}HELLO THERE{\i0}"] |}] None
     = [{| index := idx; timing := tm; texts := [py "{\i1}HELLO THERE{\i0}"] |}].
Proof.
  split; [vm_compute; reflexivity|]. split; [vm_compute; reflexivity|].
  split; [vm_compute; reflexivity|]. split; [vm_compute; reflexivity|].
  split; [vm_compute; reflexivity|]. split; vm_compute; reflexivity.
Qed.

(** C4, amended.  A line that is exactly the override [{\an8}] matches the
    pattern of the classifier (its second alternative) but is not classified
    as forced: the classifier also wants at least two letters, all upper
    case, and the letters a and n of the code are not.  Full to Forced strips
    the override before asking, so it asks about the empty string, and an
    entry whose lines are all [{\an8}] is dropped. *)
Theorem an8_alone_not_forced (idx tm : str) (n : nat) :
  let an8 := py "{\an8}" in
  is_match (re_fullmatch FORCED_RE an8) = true
  /\ filter isalpha an8 = py "an"
  /\ is_all_caps_cue an8 = false
  /\ _text_without_overrides an8 = []
  /\ full_to_forced_blocks
       [{| index := idx; timing := tm; texts := repeat an8 n |}] None = [].
Proof.
  split; [vm_compute; reflexivity|]. split; [vm_compute; reflexivity|].
  split; [vm_compute; reflexivity|]. split; [vm_compute; reflexivity|].
  destruct n; vm_compute; reflexivity.
Qed.

End ClassifierRuns.

Section ScenarioCRun.
#[local] Existing Instance latin1_only.

(** C4, as stated, fails. *)
Lemma an8_entry_not_retained :
  let entry := {| index := py "1"; timing := py "00:00:01,000 --> 00:00:02,000";
                  texts := [py "{\an8}"] |} in
  is_all_caps_cue (py "{\an8}") = false
  /\ full_to_forced_lines [py "{\an8}"] None = []
  /\ full_to_forced_blocks [entry] None = [].
Proof.
  split; [vm_compute; reflexivity|]. split; vm_compute; reflexivity.
Qed.

(** C2, as stated, fails. *)
Lemma scenario_C_not_forced :
  let entry := {| index := py "1"; timing := py "00:00:01,000 --> 00:00:02,000";
                  texts := [py "<i>HELLO THERE</i>"] |} in
  is_all_caps_cue (py "<i>HELLO THERE</i>") = false
  /\ full_to_forced_blocks [entry] None = [].
Proof. split; vm_compute; reflexivity. Qed.

End ScenarioCRun.

(** ** Greedy repetition of a class *)

Section GreedyFacts.
Variable R : Type.
Variable p : char -> bool.
Variable k : cont R.

Lemma star_loop_cls (fuel : nat) :
  forall pos s c,
    List.length s <= fuel ->
    star_loop (rmatch (Cls p)) fuel pos s c k = greedy p pos s c k.
Proof.
  induction fuel as [|fuel IH]; intros pos s c Hlen.
  - destruct s; [reflexivity|]. simpl in Hlen. lia.
  - destruct s as [|x s]; [reflexivity|].
    cbn [star_loop rmatch greedy]. destruct (p x); [|reflexivity].
    assert (Hlt : Nat.ltb (List.length s) (List.length (x :: s)) = true)
      by (apply Nat.ltb_lt; simpl; lia).
    rewrite Hlt, IH by (simpl in Hlen; lia). reflexivity.
Qed.

Lemma rmatch_star_cls (pos : nat) (s : str) (c : caps) :
  rmatch (Star (Cls p)) pos s c k = greedy p pos s c k.
Proof. cbn [rmatch]. now apply star_loop_cls. Qed.

Lemma greedy_max (pre : str) :
  forall pos s c r,
    forallb p pre = true -> stops p s ->
    k (pos + List.length pre) s c = Some r ->
    greedy p pos (pre ++ s) c k = Some r.
Proof.
  induction pre as [|x pre IH]; intros pos s c r Hpre Hstop Hk.
  - simpl in *. rewrite Nat.add_0_r in Hk.
    destruct s as [|y s]; [assumption|]. simpl in *. now rewrite Hstop.
  - simpl in Hpre. apply andb_true_iff in Hpre. destruct Hpre as [Hx Hpre].
    cbn [app greedy]. rewrite Hx.
    rewrite (IH (S pos) s c r); auto.
    simpl in Hk. now rewrite Nat.add_succ_r in Hk.
Qed.

Lemma greedy_some :
  forall s pos c r,
    greedy p pos s c k = Some r ->
    exists pre s',
      s = pre ++ s' /\ forallb p pre = true
      /\ k (pos + List.length pre) s' c = Some r.
Proof.
  induction s as [|x s IH]; intros pos c r H.
  - exists [], []. simpl in *. rewrite Nat.add_0_r. auto.
  - cbn [greedy] in H. destruct (p x) eqn:Hx.
    + destruct (greedy p (S pos) s c k) as [r'|] eqn:G.
      * inversion H; subst r'. apply IH in G.
        destruct G as [pre [s' [-> [Hpre Hk]]]].
        exists (x :: pre), s'. simpl. rewrite Hx, Hpre, Nat.add_succ_r. auto.
      * exists [], (x :: s). simpl. rewrite Nat.add_0_r. auto.
    + exists [], (x :: s). simpl. rewrite Nat.add_0_r. auto.
Qed.

Lemma greedy_succeeds (pre : str) :
  forall pos s c,
    forallb p pre = true ->
    k (pos + List.length pre) s c <> None ->
    greedy p pos (pre ++ s) c k <> None.
Proof.
  induction pre as [|x pre IH]; intros pos s c Hpre Hk.
  - simpl in *. rewrite Nat.add_0_r in Hk.
    destruct s as [|y s]; [assumption|]. cbn [greedy].
    destruct (p y); [|assumption].
    destruct (greedy p (S pos) s c k); [discriminate|assumption].
  - simpl in Hpre. apply andb_true_iff in Hpre. destruct Hpre as [Hx Hpre].
    cbn [app greedy]. rewrite Hx.
    specialize (IH (S pos) s c Hpre).
    destruct (greedy p (S pos) (pre ++ s) c k); [discriminate|].
    exfalso. apply IH; [|reflexivity].
    simpl in Hk. now rewrite Nat.add_succ_r in Hk.
Qed.

End GreedyFacts.

(** ** The equations of the matcher *)

Section MatcherEquations.
Variable R : Type.
Variable k : cont R.

Lemma rmatch_cat (r1 r2 : regex) (pos : nat) (s : str) (c : caps) :
  rmatch (Cat r1 r2) pos s c k
  = rmatch r1 pos s c (fun pos' s' c' => rmatch r2 pos' s' c' k).
Proof. reflexivity. Qed.

Lemma rmatch_grp (i : nat) (r : regex) (pos : nat) (s : str) (c : caps) :
  rmatch (Grp i r) pos s c k
  = rmatch r pos s c
      (fun pos' s' c' =>
         k pos' s' ((i, firstn (List.length s - List.length s') s) :: c')).
Proof. reflexivity. Qed.

Lemma rmatch_alt (r1 r2 : regex) (pos : nat) (s : str) (c : caps) :
  rmatch (Alt r1 r2) pos s c k
  = match rmatch r1 pos s c k with
    | Some x => Some x
    | None => rmatch r2 pos s c k
    end.
Proof. reflexivity. Qed.

Lemma rmatch_cls (p : char -> bool) (pos : nat) (x : char) (s : str) (c : caps) :
  rmatch (Cls p) pos (x :: s) c k = if p x then k (S pos) s c else None.
Proof. reflexivity. Qed.

Lemma rmatch_cls_nil (p : char -> bool) (pos : nat) (c : caps) :
  rmatch (Cls p) pos [] c k = None.
Proof. reflexivity. Qed.

Lemma rmatch_eol (pos : nat) (s : str) (c : caps) :
  rmatch Eol pos s c k
  = match s with
    | [] => k pos s c
    | [x] => if char_eqb x newline then k pos s c else None
    | _ => None
    end.
Proof. reflexivity. Qed.

Lemma rmatch_bol (pos : nat) (s : str) (c : caps) :
  rmatch Bol pos s c k = if Nat.eqb pos 0 then k pos s c else None.
Proof. reflexivity. Qed.

End MatcherEquations.

(** ** The speaker pattern *)

Lemma firstn_consumed (A : Type) (a b : list A) :
  firstn (List.length (a ++ b) - List.length b) (a ++ b) = a.
Proof.
  rewrite length_app, Nat.add_sub, firstn_app, Nat.sub_diag, firstn_all.
  simpl. now rewrite app_nil_r.
Qed.

Lemma first_occurrence (x : char) (a a' b b' : str) :
  ~ In x a -> ~ In x a' -> a ++ x :: b = a' ++ x :: b' -> a = a' /\ b = b'.
Proof.
  revert a'; induction a as [|y a IH]; intros a' Ha Ha' H.
  - destruct a' as [|y' a']; simpl in H.
    + inversion H. auto.
    + inversion H; subst. exfalso. apply Ha'. now left.
  - destruct a' as [|y' a']; simpl in H.
    + inversion H; subst. exfalso. apply Ha. now left.
    + inversion H; subst. destruct (IH a') as [-> ->]; auto.
      * intros Hin. apply Ha. now right.
      * intros Hin. apply Ha'. now right.
Qed.

Lemma class_excludes (p : char -> bool) (x : char) (s : str) :
  p x = false -> forallb p s = true -> ~ In x s.
Proof.
  intros Hx Hs Hin. rewrite forallb_forall in Hs.
  specialize (Hs x Hin). congruence.
Qed.

Lemma char_eqb_eq (x y : char) : char_eqb x y = true <-> x = y.
Proof. apply N.eqb_eq. Qed.

Lemma str_eqb_refl (s : str) : str_eqb s s = true.
Proof.
  induction s as [|x s IH]; simpl; [reflexivity|].
  rewrite IH. unfold char_eqb. now rewrite N.eqb_refl.
Qed.

(** After the colon: the whitespace is skipped and the rest of the line is
    captured as group 2. *)
Lemma speaker_tail_forward (pos : nat) (gap : str) (x : char) (more tail : str)
    (c : caps) :
  forallb isspace gap = true ->
  isspace x = false -> forallb dot (x :: more) = true ->
  tail = [] \/ tail = [newline] ->
  rmatch speaker_tail pos (gap ++ (x :: more) ++ tail) c kfin
  = Some ((2, x :: more) :: c).
Proof.
  intros Hgap Hx Hdot Htail. unfold speaker_tail, ws.
  rewrite rmatch_cat, rmatch_star_cls.
  apply greedy_max; [assumption|exact Hx|].
  simpl in Hdot. apply andb_true_iff in Hdot. destruct Hdot as [Hdx Hdot].
  unfold Plus. rewrite rmatch_cat, rmatch_grp, rmatch_cat.
  cbn [app]. rewrite rmatch_cls, Hdx, rmatch_star_cls.
  apply greedy_max; [assumption| |].
  - destruct Htail as [-> | ->]; simpl; reflexivity.
  - change (x :: more ++ tail) with ((x :: more) ++ tail).
    rewrite firstn_consumed, rmatch_eol.
    destruct Htail as [-> | ->]; reflexivity.
Qed.

Lemma speaker_tail_sound (pos : nat) (s : str) (c m : caps) :
  rmatch speaker_tail pos s c kfin = Some m ->
  exists gap rest tail,
    s = gap ++ rest ++ tail /\ forallb isspace gap = true
    /\ rest <> [] /\ forallb dot rest = true
    /\ (tail = [] \/ tail = [newline])
    /\ m = (2, rest) :: c.
Proof.
  unfold speaker_tail, ws. rewrite rmatch_cat, rmatch_star_cls.
  intros H. apply greedy_some in H.
  destruct H as [gap [s1 [-> [Hgap H]]]].
  unfold Plus in H. rewrite rmatch_cat, rmatch_grp, rmatch_cat in H.
  destruct s1 as [|x s1]; [discriminate|].
  rewrite rmatch_cls in H.
  destruct (dot x) eqn:Hx; [|discriminate].
  rewrite rmatch_star_cls in H.
  apply greedy_some in H. destruct H as [run [tail [-> [Hrun H]]]].
  change (x :: run ++ tail) with ((x :: run) ++ tail) in H.
  rewrite firstn_consumed, rmatch_eol in H.
  exists gap, (x :: run), tail.
  assert (Htail : (tail = [] \/ tail = [newline]) /\ m = (2, x :: run) :: c).
  { destruct tail as [|y [|z tail]].
    - inversion H. auto.
    - destruct (char_eqb y newline) eqn:Hy; [|discriminate].
      apply char_eqb_eq in Hy. subst y. inversion H. auto.
    - discriminate. }
  destruct Htail as [Htail Hm].
  repeat split; try assumption.
  - discriminate.
  - simpl. now rewrite Hx, Hrun.
Qed.

Lemma speaker_class_colon : speaker_class colon = false.
Proof. reflexivity. Qed.

Lemma isspace_colon : isspace colon = false.
Proof. reflexivity. Qed.

(** Before the colon: at least two characters of the class, captured as
    group 1. *)
Lemma speaker_head_forward (pos : nat) (prefix rest : str) (c m : caps) :
  forallb speaker_class prefix = true -> 2 <= List.length prefix ->
  (forall pos', rmatch speaker_tail pos' rest ((1, prefix) :: c) kfin = Some m) ->
  rmatch speaker_head pos (prefix ++ colon :: rest) c kfin = Some m.
Proof.
  intros Hclass Hlen Htail.
  destruct prefix as [|x [|y run]]; simpl in Hlen; try lia.
  simpl in Hclass. apply andb_true_iff in Hclass. destruct Hclass as [Hx Hclass].
  apply andb_true_iff in Hclass. destruct Hclass as [Hy Hrun].
  unfold speaker_head. rewrite rmatch_cat, rmatch_grp. cbn [AtLeast app].
  rewrite rmatch_cat, rmatch_cls, Hx, rmatch_cat, rmatch_cls, Hy, rmatch_star_cls.
  apply greedy_max; [assumption|exact speaker_class_colon|].
  change (x :: y :: run ++ colon :: rest) with ((x :: y :: run) ++ colon :: rest).
  rewrite firstn_consumed, rmatch_cat. unfold Chr. rewrite rmatch_cls.
  unfold char_eqb. rewrite N.eqb_refl. apply Htail.
Qed.

Lemma speaker_head_sound (pos : nat) (s : str) (c m : caps) :
  rmatch speaker_head pos s c kfin = Some m ->
  exists prefix rest pos',
    s = prefix ++ colon :: rest
    /\ forallb speaker_class prefix = true /\ 2 <= List.length prefix
    /\ rmatch speaker_tail pos' rest ((1, prefix) :: c) kfin = Some m.
Proof.
  unfold speaker_head. rewrite rmatch_cat, rmatch_grp. cbn [AtLeast].
  rewrite rmatch_cat. intros H.
  destruct s as [|x s]; [discriminate|]. rewrite rmatch_cls in H.
  destruct (speaker_class x) eqn:Hx; [|discriminate].
  rewrite rmatch_cat in H.
  destruct s as [|y s]; [discriminate|]. rewrite rmatch_cls in H.
  destruct (speaker_class y) eqn:Hy; [|discriminate].
  rewrite rmatch_star_cls in H. apply greedy_some in H.
  destruct H as [run [s' [-> [Hrun H]]]].
  change (x :: y :: run ++ s') with ((x :: y :: run) ++ s') in H.
  rewrite firstn_consumed, rmatch_cat in H. unfold Chr in H.
  destruct s' as [|z rest]; [discriminate|]. rewrite rmatch_cls in H.
  destruct (char_eqb colon z) eqn:Hz; [|discriminate].
  apply char_eqb_eq in Hz. subst z.
  exists (x :: y :: run), rest. eexists. split; [reflexivity|].
  split; [simpl; now rewrite Hx, Hy, Hrun|]. split; [simpl; lia|]. exact H.
Qed.

Lemma re_match_speaker_sound (line : str) (m : caps) :
  re_match SPEAKER_RE line = Some m ->
  exists lead prefix gap rest tail,
    line = lead ++ prefix ++ colon :: gap ++ rest ++ tail
    /\ forallb isspace lead = true
    /\ forallb speaker_class prefix = true /\ 2 <= List.length prefix
    /\ forallb isspace gap = true
    /\ rest <> [] /\ forallb dot rest = true
    /\ (tail = [] \/ tail = [newline])
    /\ m = [(2, rest); (1, prefix)].
Proof.
  unfold re_match, SPEAKER_RE, ws. rewrite rmatch_cat, rmatch_bol. cbn [Nat.eqb].
  rewrite rmatch_cat, rmatch_star_cls. intros H.
  apply greedy_some in H. destruct H as [lead [s [-> [Hlead H]]]].
  apply speaker_head_sound in H.
  destruct H as [prefix [after [pos' [-> [Hclass [Hlen H]]]]]].
  apply speaker_tail_sound in H.
  destruct H as [gap [rest [tail [-> [Hgap [Hne [Hdot [Htail ->]]]]]]]].
  exists lead, prefix, gap, rest, tail. repeat split; assumption.
Qed.

Lemma re_match_speaker_forward (lead prefix gap : str) (x : char) (more tail : str) :
  forallb isspace lead = true ->
  forallb speaker_class prefix = true -> 2 <= List.length prefix ->
  forallb isspace gap = true ->
  isspace x = false -> forallb dot (x :: more) = true ->
  tail = [] \/ tail = [newline] ->
  exists speaker,
    re_match SPEAKER_RE (lead ++ prefix ++ colon :: gap ++ (x :: more) ++ tail)
    = Some [(2, x :: more); (1, speaker)]
    /\ forallb speaker_class speaker = true.
Proof.
  intros Hlead Hclass Hlen Hgap Hx Hdot Htail.
  set (after := gap ++ (x :: more) ++ tail).
  assert (Hafter : forall pos c,
             rmatch speaker_tail pos after c kfin = Some ((2, x :: more) :: c)).
  { intros pos c. now apply speaker_tail_forward. }
  unfold re_match, SPEAKER_RE, ws. rewrite rmatch_cat, rmatch_bol. cbn [Nat.eqb].
  rewrite rmatch_cat, rmatch_star_cls.
  destruct (greedy isspace 0 (lead ++ prefix ++ colon :: after) []
              (fun pos' s' c' => rmatch speaker_head pos' s' c' kfin))
    as [m|] eqn:G.
  - apply greedy_some in G. destruct G as [lead' [s [Hsplit [Hlead' H]]]].
    apply speaker_head_sound in H.
    destruct H as [speaker [after' [pos' [-> [Hsp [_ H]]]]]].
    assert (Hsame : after' = after).
    { rewrite !app_assoc in Hsplit.
      apply first_occurrence in Hsplit; [now destruct Hsplit| |].
      - intros Hin. apply in_app_or in Hin. destruct Hin as [Hin|Hin].
        + exact (class_excludes _ _ _ isspace_colon Hlead Hin).
        + exact (class_excludes _ _ _ speaker_class_colon Hclass Hin).
      - intros Hin. apply in_app_or in Hin. destruct Hin as [Hin|Hin].
        + exact (class_excludes _ _ _ isspace_colon Hlead' Hin).
        + exact (class_excludes _ _ _ speaker_class_colon Hsp Hin). }
    subst after'. rewrite Hafter in H. inversion H; subst m.
    exists speaker. split; [reflexivity|assumption].
  - exfalso. revert G. apply greedy_succeeds; [assumption|].
    rewrite (@speaker_head_forward _ prefix after [] [(2, x :: more); (1, prefix)]);
      [discriminate|assumption|assumption|].
    intros pos'. apply Hafter.
Qed.

Section SpeakerRule.
Context {U : UnicodeData}.

Lemma upper_char_fixed (c : char) :
  (c <= 255)%N ->
  ~ (97 <= c <= 122)%N -> ~ (224 <= c <= 246)%N -> ~ (248 <= c <= 254)%N ->
  c <> 181%N -> c <> 223%N -> c <> 255%N ->
  upper_char c = [c].
Proof.
  intros Hl Ha Hb Hc H1 H2 H3.
  unfold upper_char, latin1, in_range, char_eqb.
  destruct (N.leb_spec c 255); [|lia].
  destruct (N.leb_spec 97 c), (N.leb_spec c 122); try lia;
    destruct (N.leb_spec 224 c), (N.leb_spec c 246); try lia;
    destruct (N.leb_spec 248 c), (N.leb_spec c 254); try lia; simpl;
    destruct (N.eqb_spec c 181); try lia;
    destruct (N.eqb_spec c 223); try lia;
    destruct (N.eqb_spec c 255); try lia; reflexivity.
Qed.

(** Every character of the speaker class is its own upper case. *)
Lemma upper_char_speaker_class (c : char) :
  speaker_class c = true -> upper_char c = [c].
Proof.
  unfold speaker_class, accented_capitals, double_quote, mem, in_range, char_eqb.
  cbn [existsb].
  repeat match goal with
         | |- context [ch ?a] =>
             let v := eval vm_compute in (ch a) in change (ch a) with v
         end.
  intros H.
  repeat match type of H with
         | (_ || _)%bool = true => apply orb_true_iff in H; destruct H as [H|H]
         end;
    try discriminate;
    try (apply andb_true_iff in H; destruct H as [H H']; apply N.leb_le in H, H');
    try apply N.eqb_eq in H;
    apply upper_char_fixed; lia.
Qed.

Lemma upper_speaker (s : str) :
  forallb speaker_class s = true -> upper s = s.
Proof.
  induction s as [|x s IH]; intros H; [reflexivity|].
  simpl in H. apply andb_true_iff in H. destruct H as [Hx Hs].
  unfold upper in *. simpl. rewrite (upper_char_speaker_class _ Hx), IH by assumption.
  reflexivity.
Qed.

Lemma strip_speaker_matched (line speaker rest : str) (cfg : SDHConfig) :
  remove_text_before_colon cfg = true ->
  re_match SPEAKER_RE line = Some [(2, rest); (1, speaker)] ->
  forallb speaker_class speaker = true ->
  _strip_speaker line cfg = rest.
Proof.
  intros Hcfg Hm Hsp. unfold _strip_speaker. rewrite Hcfg, Hm. cbn.
  rewrite (upper_speaker _ Hsp), str_eqb_refl, andb_false_r. reflexivity.
Qed.

Lemma strip_speaker_off (line : str) (cfg : SDHConfig) :
  remove_text_before_colon cfg = false -> _strip_speaker line cfg = line.
Proof. intros H. unfold _strip_speaker. now rewrite H. Qed.

Lemma strip_speaker_cases (line : str) (cfg : SDHConfig) :
  _strip_speaker line cfg = line
  \/ (remove_text_before_colon cfg = true
      /\ speaker_shape line (_strip_speaker line cfg)).
Proof.
  destruct (remove_text_before_colon cfg) eqn:Hcfg;
    [|left; now apply strip_speaker_off].
  destruct (re_match SPEAKER_RE line) as [m|] eqn:Hm.
  - right. split; [reflexivity|].
    destruct (re_match_speaker_sound _ Hm)
      as [lead [prefix [gap [rest [tail [Hline [Hlead [Hclass [Hlen [Hgap
         [Hne [Hdot [Htail ->]]]]]]]]]]]]].
    rewrite (strip_speaker_matched line cfg Hcfg Hm Hclass).
    exists lead, prefix, gap, tail. repeat split; assumption.
  - left. unfold _strip_speaker. now rewrite Hcfg, Hm.
Qed.

(** The check on [colon_only_if_uppercase] never fires: the class of
    [SPEAKER_RE] has no lower-case letter. *)
Lemma colon_only_if_uppercase_has_no_effect (line : str) (cfg : SDHConfig) (b : bool) :
  _strip_speaker line (with_colon_only_if_uppercase b cfg) = _strip_speaker line cfg.
Proof.
  destruct (remove_text_before_colon cfg) eqn:Hcfg.
  - destruct (re_match SPEAKER_RE line) as [m|] eqn:Hm.
    + destruct (re_match_speaker_sound _ Hm)
        as [lead [prefix [gap [rest [tail [Hline [Hlead [Hclass [Hlen [Hgap
           [Hne [Hdot [Htail ->]]]]]]]]]]]]].
      rewrite (strip_speaker_matched line cfg Hcfg Hm Hclass).
      now apply strip_speaker_matched with (speaker := prefix).
    + unfold _strip_speaker. simpl. now rewrite Hcfg, Hm.
  - rewrite !strip_speaker_off; auto.
Qed.

(** C5, amended.  With [remove_text_before_colon] set: a line made of
    optional leading whitespace, a prefix of at least two characters of the
    class of [SPEAKER_RE], a colon, optional whitespace, and a text that
    starts with a non-whitespace character and runs without newline to the
    end of the line (or to one final newline) is replaced by that text,
    whatever [colon_only_if_uppercase] is; and with [colon_only_if_uppercase]
    set, a line the rule changes is of that make (prefix of the class, colon,
    text), so every other line is left unchanged. *)
Theorem speaker_prefix_removed (cfg : SDHConfig) :
  remove_text_before_colon cfg = true ->
  (forall lead prefix gap rest tail,
      forallb isspace lead = true ->
      forallb speaker_class prefix = true -> 2 <= List.length prefix ->
      forallb isspace gap = true ->
      starts_with_text rest -> forallb dot rest = true ->
      tail = [] \/ tail = [newline] ->
      _strip_speaker (lead ++ prefix ++ colon :: gap ++ rest ++ tail) cfg = rest)
  /\ (colon_only_if_uppercase cfg = true ->
      forall line,
        _strip_speaker line cfg <> line ->
        speaker_shape line (_strip_speaker line cfg)).
Proof.
  intros Hcfg. split.
  - intros lead prefix gap rest tail Hlead Hclass Hlen Hgap Hstart Hdot Htail.
    destruct rest as [|x more]; [destruct Hstart|]. simpl in Hstart.
    destruct (re_match_speaker_forward lead prefix gap x more
                Hlead Hclass Hlen Hgap Hstart Hdot Htail) as [speaker [Hm Hsp]].
    exact (strip_speaker_matched _ cfg Hcfg Hm Hsp).
  - intros _ line Hchanged.
    destruct (strip_speaker_cases line cfg) as [Hsame|[_ Hshape]];
      [contradiction|assumption].
Qed.

End SpeakerRule.

Section SpeakerRuns.
#[local] Existing Instance latin1_only.

Lemma speaker_prefix_removed_scenario_A :
  remove_text_before_colon default_config = true
  /\ _strip_speaker (py " JOHN: Get out!") default_config = py "Get out!".
Proof.
  split; [reflexivity|].
  apply (proj1 (@speaker_prefix_removed latin1_only default_config eq_refl)
           (py " ") (py "JOHN") (py " ") (py "Get out!") []);
    try (vm_compute; reflexivity).
  - vm_compute. lia.
  - now left.
Defined.

(** C5, as stated, fails.  A prefix with an accented capital outside the
    class (here A with grave) is not removed, although it is made of letters
    and entirely upper case; and a prefix with a period, which the stated
    character set does not have, is removed. *)
Lemma speaker_prefix_claim_fails :
  let grave := [192; 66]%N ++ py ": hi" in
  (forallb spec_name_char [192; 66]%N = true
   /\ forallb isupper [192; 66]%N = true
   /\ _strip_speaker grave default_config = grave
   /\ clean_line grave default_config = Some grave)
  /\ (spec_name_char (ch ".") = false
      /\ _strip_speaker (py "MR. SMITH: hi") default_config = py "hi"
      /\ clean_line (py "MR. SMITH: hi") default_config = Some (py "hi")).
Proof.
  intros grave.
  split; [split; [|split; [|split]]; vm_compute; reflexivity|].
  split; [|split]; vm_compute; reflexivity.
Qed.

(** A prefix with a lower-case letter is kept even with
    [colon_only_if_uppercase] unset. *)
Lemma lower_case_prefix_kept :
  let any_case := with_colon_only_if_uppercase false default_config in
  forallb spec_name_char (py "John") = true
  /\ _strip_speaker (py "John: hi") any_case = py "John: hi"
  /\ clean_line (py "John: hi") any_case = Some (py "John: hi").
Proof.
  intros any_case. split; [|split]; vm_compute; reflexivity.
Qed.

End SpeakerRuns.

(** ** The second alternative of the forced pattern *)

Section ForcedPattern.
Context {U : UnicodeData}.

Lemma rmatch_lit (R : Type) (k : cont R) (l : str) :
  forall pos s c r,
    rmatch (Lit l) pos s c k = Some r ->
    exists s', s = l ++ s' /\ k (pos + List.length l) s' c = Some r.
Proof.
  induction l as [|x l IH]; intros pos s c r H.
  - exists s. simpl in *. rewrite Nat.add_0_r. auto.
  - cbn [Lit] in H. rewrite rmatch_cat in H. unfold Chr in H.
    destruct s as [|y s]; [discriminate|]. rewrite rmatch_cls in H.
    destruct (char_eqb x y) eqn:Hxy; [|discriminate].
    apply char_eqb_eq in Hxy. subst y.
    apply IH in H. destruct H as [s' [-> H]].
    exists s'. simpl. rewrite Nat.add_succ_r. auto.
Qed.

(** A line the classifier accepts is accepted through the first alternative
    of [FORCED_RE]: the only text the second one matches in full is the
    override itself, which the letter test rejects. *)
Lemma forced_cue_is_all_class (line : str) :
  is_all_caps_cue line = true ->
  is_match (re_fullmatch (Cat Bol (Cat (Plus (Cls forced_class)) Eol)) (strip line))
  = true.
Proof.
  intros H.
  destruct (re_fullmatch (Cat Bol (Cat (Plus (Cls forced_class)) Eol)) (strip line))
    as [m|] eqn:H1; [reflexivity|]. exfalso.
  assert (H2 : re_fullmatch FORCED_RE (strip line)
               = re_fullmatch (Cat Bol (Lit (py "{\an8}"))) (strip line)).
  { unfold re_fullmatch in *. unfold FORCED_RE. rewrite rmatch_alt, H1. reflexivity. }
  unfold is_all_caps_cue in H. cbv zeta in H. rewrite H2 in H.
  destruct (negb (nonempty (strip line))); [discriminate|].
  destruct (re_fullmatch (Cat Bol (Lit (py "{\an8}"))) (strip line)) as [m|] eqn:H3;
    [|discriminate].
  unfold re_fullmatch in H3. rewrite rmatch_cat, rmatch_bol in H3.
  cbn [Nat.eqb] in H3. apply rmatch_lit in H3. destruct H3 as [s' [Htext Hk]].
  destruct s' as [|y s']; [|discriminate]. rewrite app_nil_r in Htext.
  rewrite Htext in H. vm_compute in H. discriminate.
Qed.

End ForcedPattern.

(** ** The scenarios of the specification *)

Section ScenarioRuns.
Context {U : UnicodeData}.

Example scenario_A_speaker_and_annotation :
  clean_line (py "(door creaks) JOHN: Get out!") default_config
  = Some (py "Get out!").
Proof. vm_compute. reflexivity. Qed.

(** A line of music symbols alone is dropped; with a space between the
    symbols it is kept, since the space is not a music symbol. *)
Example music_only_line :
  clean_line [9834%N] default_config = None
  /\ clean_line [9834%N; 9835%N] default_config = None
  /\ clean_line ([9834%N] ++ py " " ++ [9834%N]) default_config
     = Some ([9834%N] ++ py " " ++ [9834%N]).
Proof. split; [|split]; vm_compute; reflexivity. Qed.

Example scenario_D_short_line (idx tm : str) :
  is_all_caps_cue (py "Hi.") = false
  /\ full_to_forced_blocks [{| index := idx; timing := tm; texts := [py "Hi."] |}] None
     = [].
Proof. split; vm_compute; reflexivity. Qed.

End ScenarioRuns.

(** ** The substitutions as scanners *)

Lemma after_first_split (x : char) (s rest : str) :
  after_first x s = Some rest <->
  exists body, s = body ++ x :: rest /\ ~ In x body.
Proof.
  revert rest; induction s as [|y s IH]; intros rest; simpl.
  - split; [discriminate|]. intros [body [H _]]. now destruct body.
  - destruct (char_eqb x y) eqn:Hxy.
    + apply char_eqb_eq in Hxy. subst y. split.
      * intros H. inversion H; subst. exists []. auto.
      * intros [body [H Hn]]. destruct body as [|z body]; simpl in H.
        -- now inversion H.
        -- inversion H; subst. exfalso. apply Hn. now left.
    + assert (Hne : x <> y) by (intros ->; unfold char_eqb in Hxy;
                                 now rewrite N.eqb_refl in Hxy).
      rewrite IH. split.
      * intros [body [-> Hn]]. exists (y :: body). split; [reflexivity|].
        intros [E|Hin]; [congruence|contradiction].
      * intros [body [H Hn]]. destruct body as [|z body]; simpl in H.
        -- inversion H; congruence.
        -- inversion H; subst. exists body. split; [reflexivity|].
           intros Hin. apply Hn. now right.
Qed.

Lemma after_first_none (x : char) (s : str) :
  after_first x s = None <-> mem x s = false.
Proof.
  induction s as [|y s IH]; simpl; [tauto|].
  destruct (char_eqb x y); simpl; [split; discriminate|exact IH].
Qed.

Lemma mem_in (x : char) (s : str) : mem x s = true <-> In x s.
Proof.
  unfold mem. rewrite existsb_exists. split.
  - intros [y [Hin Hxy]]. apply char_eqb_eq in Hxy. now subst.
  - intros Hin. exists x. split; [assumption|]. now apply char_eqb_eq.
Qed.

Lemma char_eqb_neq (x y : char) : char_eqb x y = false <-> x <> y.
Proof. unfold char_eqb. apply N.eqb_neq. Qed.

Lemma greedy_until (close : char) (s : str) :
  forall pos c,
    greedy (other_than close) pos s c
      (fun pos' s' c' => rmatch (Chr close) pos' s' c' (fun _ s'' _ => Some s''))
    = after_first close s.
Proof.
  induction s as [|x s IH]; intros pos c; [reflexivity|].
  cbn [greedy after_first]. unfold other_than at 1.
  destruct (char_eqb x close) eqn:Hx.
  - apply char_eqb_eq in Hx. subst x. cbn [negb]. unfold Chr.
    rewrite rmatch_cls. unfold char_eqb. now rewrite N.eqb_refl.
  - cbn [negb]. rewrite IH.
    assert (Hx' : char_eqb close x = false).
    { apply char_eqb_neq. apply char_eqb_neq in Hx. congruence. }
    rewrite Hx'. destruct (after_first close s); [reflexivity|].
    unfold Chr. now rewrite rmatch_cls, Hx'.
Qed.

Lemma match_here_bracket (open close : char) (pos : nat) (s : str) :
  match_here (bracket_re open close) pos s
  = match s with
    | [] => None
    | x :: s' => if char_eqb open x then after_first close s' else None
    end.
Proof.
  unfold match_here, bracket_re. rewrite rmatch_cat. unfold Chr at 1.
  destruct s as [|x s']; [reflexivity|]. rewrite rmatch_cls.
  destruct (char_eqb open x); [|reflexivity].
  rewrite rmatch_cat, rmatch_star_cls. apply greedy_until.
Qed.

Lemma remove_spans_inside (open close : char) (body rest : str) :
  ~ In close body ->
  remove_spans open close true (body ++ close :: rest)
  = remove_spans open close false rest.
Proof.
  induction body as [|y body IH]; intros Hn; simpl.
  - unfold char_eqb. now rewrite N.eqb_refl.
  - assert (Hy : char_eqb close y = false).
    { apply char_eqb_neq. intros ->. apply Hn. now left. }
    rewrite Hy. simpl. apply IH. intros Hin. apply Hn. now right.
Qed.

(** [re.sub] of a bracket pattern by the empty string is the scanner. *)
Lemma sub_from_bracket (open close : char) (s : str) :
  forall pos,
    sub_from (bracket_re open close) (fun _ (st : unit) => ([], st)) pos s 0 tt
    = (remove_spans open close false s, tt)
    /\ (forall body rest,
          s = body ++ close :: rest -> ~ In close body ->
          sub_from (bracket_re open close) (fun _ (st : unit) => ([], st))
            pos s (S (List.length body)) tt
          = (remove_spans open close false rest, tt)).
Proof.
  induction s as [|x s IH]; intros pos.
  - split; [reflexivity|]. intros body rest H. now destruct body.
  - split.
    + cbn [sub_from]. rewrite match_here_bracket. cbn [remove_spans].
      destruct (char_eqb open x) eqn:Hx; cbn [andb].
      * destruct (after_first close s) as [rest|] eqn:Haf.
        -- apply after_first_split in Haf. destruct Haf as [body [Hs Hn]].
           assert (Hmem : mem close s = true).
           { apply mem_in. rewrite Hs. apply in_or_app. right. now left. }
           rewrite Hmem.
           assert (Hlen : List.length (x :: s) - List.length rest
                          = S (S (List.length body))).
           { rewrite Hs. cbn [List.length]. rewrite length_app.
             cbn [List.length]. lia. }
           rewrite Hlen.
           destruct (IH (S pos)) as [_ IH2]. rewrite (IH2 body rest Hs Hn).
           rewrite Hs, remove_spans_inside by assumption. reflexivity.
        -- apply after_first_none in Haf. rewrite Haf.
           destruct (IH (S pos)) as [IH1 _]. now rewrite IH1.
      * destruct (IH (S pos)) as [IH1 _]. now rewrite IH1.
    + intros body rest H Hn. cbn [sub_from].
      destruct body as [|y body]; simpl in H; inversion H; subst.
      * destruct (IH (S pos)) as [IH1 _]. exact (IH1).
      * destruct (IH (S pos)) as [_ IH2]. apply IH2; [reflexivity|].
        intros Hin. apply Hn. now right.
Qed.

Lemma re_sub_bracket (open close : char) (s : str) :
  re_sub (bracket_re open close) [] s = remove_spans open close false s.
Proof.
  unfold re_sub, re_sub_with.
  destruct (sub_from_bracket open close s 0) as [H _].
  exact (f_equal fst H).
Qed.

Lemma greedy_all (p : char -> bool) (s : str) :
  forall pos c,
    greedy p pos s c (fun _ s' _ => Some s') = Some (lstrip_by p s).
Proof.
  induction s as [|x s IH]; intros pos c; [reflexivity|].
  cbn [greedy lstrip_by]. destruct (p x); [|reflexivity]. now rewrite IH.
Qed.

Lemma match_here_ws (pos : nat) (s : str) :
  match_here WS_RUN_RE pos s
  = match s with
    | [] => None
    | x :: s' => if isspace x then Some (lstrip_by isspace s') else None
    end.
Proof.
  unfold match_here, WS_RUN_RE, Plus, ws. rewrite rmatch_cat.
  destruct s as [|x s']; [reflexivity|]. rewrite rmatch_cls.
  destruct (isspace x); [|reflexivity].
  rewrite rmatch_star_cls. apply greedy_all.
Qed.

Lemma lstrip_split (p : char -> bool) (s : str) :
  exists run, s = run ++ lstrip_by p s /\ forallb p run = true.
Proof.
  induction s as [|x s [run [Hs Hrun]]]; [now exists []|].
  simpl. destruct (p x) eqn:Hx.
  - exists (x :: run). simpl. rewrite Hx, Hrun. split; [now f_equal|reflexivity].
  - now exists [].
Qed.

Lemma lstrip_stops (p : char -> bool) (s : str) : stops p (lstrip_by p s).
Proof.
  induction s as [|x s IH]; simpl; [exact I|].
  destruct (p x) eqn:Hx; [assumption|exact Hx].
Qed.

Lemma collapse_stops (s : str) :
  stops isspace s -> collapse true s = collapse false s.
Proof.
  destruct s as [|x s]; simpl; [reflexivity|]. now intros ->.
Qed.

(** [re.sub] of [\s+] by one space is the scanner. *)
Lemma sub_from_ws (s : str) :
  forall pos,
    sub_from WS_RUN_RE (fun _ (st : unit) => (py " ", st)) pos s 0 tt
    = (collapse false s, tt)
    /\ (forall run rest,
          s = run ++ rest -> forallb isspace run = true -> stops isspace rest ->
          sub_from WS_RUN_RE (fun _ (st : unit) => (py " ", st))
            pos s (List.length run) tt
          = (collapse true s, tt)).
Proof.
  induction s as [|x s IH]; intros pos.
  - split; [reflexivity|]. intros run rest H _ _.
    destruct run; [reflexivity|discriminate].
  - assert (Hfirst :
      sub_from WS_RUN_RE (fun _ (st : unit) => (py " ", st)) pos (x :: s) 0 tt
      = (collapse false (x :: s), tt)).
    { cbn [sub_from]. rewrite match_here_ws. cbn [collapse].
      destruct (isspace x) eqn:Hx.
      - destruct (lstrip_split isspace s) as [run [Hs Hrun]].
        assert (Hlen : List.length (x :: s) - List.length (lstrip_by isspace s)
                       = S (List.length run)).
        { rewrite Hs at 1. cbn [List.length]. rewrite length_app. lia. }
        rewrite Hlen. destruct (IH (S pos)) as [_ IH2].
        rewrite (IH2 run (lstrip_by isspace s) Hs Hrun (lstrip_stops _ _)).
        reflexivity.
      - destruct (IH (S pos)) as [IH1 _]. now rewrite IH1. }
    split; [exact Hfirst|].
    intros run rest H Hrun Hstop. destruct run as [|y run]; simpl in H.
    + subst rest. cbn [List.length]. rewrite Hfirst.
      now rewrite collapse_stops.
    + inversion H; subst. simpl in Hrun. apply andb_true_iff in Hrun.
      destruct Hrun as [Hy Hrun]. cbn [List.length sub_from collapse].
      rewrite Hy. destruct (IH (S pos)) as [_ IH2].
      now apply IH2 with (rest := rest).
Qed.

Lemma re_sub_ws (s : str) :
  re_sub WS_RUN_RE (py " ") s = collapse false s.
Proof.
  unfold re_sub, re_sub_with. destruct (sub_from_ws s 0) as [H _].
  exact (f_equal fst H).
Qed.

(** ** Lines without markup *)

Lemma sub_from_absent (St : Type) (x : char) (r : regex)
    (repl : str -> St -> str * St) (s : str) :
  ~ In x s ->
  forall pos st, sub_from (Cat (Chr x) r) repl pos s 0 st = (s, st).
Proof.
  induction s as [|y s IH]; intros Hn pos st; [reflexivity|].
  cbn [sub_from]. unfold match_here. rewrite rmatch_cat. unfold Chr.
  rewrite rmatch_cls.
  assert (Hy : char_eqb x y = false).
  { apply char_eqb_neq. intros ->. apply Hn. now left. }
  rewrite Hy, IH; [reflexivity|]. intros Hin. apply Hn. now right.
Qed.

Lemma shield_plain (line : str) :
  ~ In (ch "<") line -> ~ In (ch "{") line -> ~ In (ch "\") line ->
  shield line = (line, []).
Proof.
  intros Hlt Hbrace Hback. unfold shield, re_sub_with.
  unfold BR_TAG_RE. rewrite sub_from_absent by assumption.
  unfold HTML_TAG_RE. rewrite sub_from_absent by assumption.
  unfold ASS_OVERRIDE_RE. rewrite sub_from_absent by assumption.
  unfold ASS_NEWLINE_RE. now rewrite sub_from_absent by assumption.
Qed.

Lemma remove_spans_in (open close : char) (c : char) (s : str) :
  forall inside, In c (remove_spans open close inside s) -> In c s.
Proof.
  induction s as [|x s IH]; intros inside H; [destruct H|].
  cbn [remove_spans] in H. destruct inside.
  - right. eapply IH. exact H.
  - destruct (char_eqb open x && mem close s).
    + right. eapply IH. exact H.
    + destruct H as [<-|H]; [now left|]. right. eapply IH. exact H.
Qed.

Lemma remove_spans_unmatched (open close : char) (s : str) :
  forall inside, unmatched open close (remove_spans open close inside s).
Proof.
  induction s as [|x s IH]; intros inside; [exact I|].
  cbn [remove_spans]. destruct inside; [apply IH|].
  destruct (char_eqb open x && mem close s) eqn:Hc; [apply IH|].
  split; [|apply IH]. intros -> Hin.
  apply remove_spans_in in Hin. apply mem_in in Hin.
  unfold char_eqb in Hc. rewrite N.eqb_refl, Hin in Hc. discriminate.
Qed.

Lemma remove_spans_fixed (open close : char) (s : str) :
  unmatched open close s -> remove_spans open close false s = s.
Proof.
  induction s as [|x s IH]; [intros _; reflexivity|intros [Hx Hs]].
  cbn [remove_spans].
  destruct (char_eqb open x && mem close s) eqn:Hc.
  - apply andb_true_iff in Hc. destruct Hc as [Hox Hmem].
    apply char_eqb_eq in Hox. apply mem_in in Hmem. subst x.
    exfalso. now apply Hx.
  - now rewrite IH.
Qed.

(** What is unmatched stays unmatched when spans are removed. *)
Lemma remove_spans_keeps_unmatched (o c open close : char) (s : str) :
  forall inside,
    unmatched o c s -> unmatched o c (remove_spans open close inside s).
Proof.
  induction s as [|x s IH]; intros inside; [intros _; exact I|intros [Hx Hs]].
  cbn [remove_spans]. destruct inside; [now apply IH|].
  destruct (char_eqb open x && mem close s); [now apply IH|].
  split; [|now apply IH]. intros E Hin. apply (Hx E).
  eapply remove_spans_in. exact Hin.
Qed.

(** ** Whitespace normalization *)

Lemma isspace_space : isspace (ch " ") = true.
Proof. reflexivity. Qed.

Lemma lstrip_fixed (p : char -> bool) (s : str) :
  stops p s -> lstrip_by p s = s.
Proof. destruct s as [|x s]; simpl; [reflexivity|]. now intros ->. Qed.

Lemma lstrip_idem (p : char -> bool) (s : str) :
  lstrip_by p (lstrip_by p s) = lstrip_by p s.
Proof. apply lstrip_fixed, lstrip_stops. Qed.

Lemma rstrip_split (p : char -> bool) (s : str) :
  exists run, s = rstrip_by p s ++ run /\ forallb p run = true.
Proof.
  unfold rstrip_by. destruct (lstrip_split p (rev s)) as [run [Hs Hrun]].
  exists (rev run). split.
  - rewrite <- rev_app_distr, <- Hs. symmetry. apply rev_involutive.
  - rewrite forallb_forall in *. intros x Hx. apply Hrun. now apply in_rev.
Qed.

Lemma rstrip_idem (p : char -> bool) (s : str) :
  rstrip_by p (rstrip_by p s) = rstrip_by p s.
Proof. unfold rstrip_by. now rewrite rev_involutive, lstrip_idem. Qed.

Lemma stops_prefix (p : char -> bool) (a b : str) :
  stops p (a ++ b) -> stops p a.
Proof. destruct a; simpl; auto. Qed.

Lemma strip_stops (s : str) : stops isspace (strip s).
Proof.
  unfold strip.
  destruct (rstrip_split isspace (lstrip_by isspace s)) as [run [Hs _]].
  apply stops_prefix with (b := run). rewrite <- Hs. apply lstrip_stops.
Qed.

Lemma strip_idem (s : str) : strip (strip s) = strip s.
Proof.
  unfold strip at 1. rewrite (lstrip_fixed _ _ (strip_stops s)).
  unfold strip. apply rstrip_idem.
Qed.

Lemma lstrip_in (p : char -> bool) (c : char) (s : str) :
  In c (lstrip_by p s) -> In c s.
Proof.
  destruct (lstrip_split p s) as [run [Hs _]]. intros H.
  rewrite Hs. apply in_or_app. now right.
Qed.

Lemma rstrip_in (p : char -> bool) (c : char) (s : str) :
  In c (rstrip_by p s) -> In c s.
Proof.
  destruct (rstrip_split p s) as [run [Hs _]]. intros H.
  rewrite Hs. apply in_or_app. now left.
Qed.

Lemma strip_in (c : char) (s : str) : In c (strip s) -> In c s.
Proof. unfold strip. intros H. now apply rstrip_in, lstrip_in in H. Qed.

Lemma text_of_lstrip (s : str) : text_of (lstrip_by isspace s) = text_of s.
Proof.
  induction s as [|x s IH]; [reflexivity|]. cbn [lstrip_by].
  destruct (isspace x) eqn:Hx; [|reflexivity].
  rewrite IH. unfold text_of. cbn [filter]. now rewrite Hx.
Qed.

Lemma text_of_rstrip (s : str) : text_of (rstrip_by isspace s) = text_of s.
Proof.
  unfold rstrip_by, text_of. rewrite filter_rev.
  fold (text_of (lstrip_by isspace (rev s))). rewrite text_of_lstrip.
  unfold text_of. now rewrite filter_rev, rev_involutive.
Qed.

Lemma text_of_strip (s : str) : text_of (strip s) = text_of s.
Proof. unfold strip. now rewrite text_of_rstrip, text_of_lstrip. Qed.

Lemma text_of_collapse (s : str) :
  forall in_run, text_of (collapse in_run s) = text_of s.
Proof.
  induction s as [|x s IH]; intros in_run; [reflexivity|].
  cbn [collapse]. unfold text_of in *. destruct (isspace x) eqn:Hx.
  - cbn [filter]. rewrite Hx. cbn [negb]. destruct in_run; [apply IH|].
    cbn [filter]. rewrite isspace_space. apply IH.
  - cbn [filter]. rewrite Hx. cbn [negb]. f_equal. apply IH.
Qed.

Lemma text_of_normalize (s : str) : text_of (normalize s) = text_of s.
Proof. unfold normalize. now rewrite text_of_strip, text_of_collapse. Qed.

Lemma collapse_in (c : char) (s : str) :
  forall in_run, In c (collapse in_run s) -> In c s \/ c = ch " ".
Proof.
  induction s as [|x s IH]; intros in_run H; [destruct H|].
  cbn [collapse] in H. destruct (isspace x).
  - destruct in_run.
    + destruct (IH _ H); [left; now right|now right].
    + destruct H as [<-|H]; [now right|].
      destruct (IH _ H); [left; now right|now right].
  - destruct H as [<-|H]; [left; now left|].
    destruct (IH _ H); [left; now right|now right].
Qed.

Lemma normalize_in (c : char) (s : str) :
  In c (normalize s) -> In c s \/ c = ch " ".
Proof. unfold normalize. intros H. apply strip_in in H. eapply collapse_in, H. Qed.

Lemma collapse_true_stops (s : str) : stops isspace (collapse true s).
Proof.
  induction s as [|x s IH]; [exact I|]. cbn [collapse].
  destruct (isspace x) eqn:Hx; [assumption|exact Hx].
Qed.

Lemma collapse_single_spaced (s : str) :
  forall in_run, single_spaced (collapse in_run s).
Proof.
  induction s as [|x s IH]; intros in_run; [exact I|]. cbn [collapse].
  destruct (isspace x) eqn:Hx.
  - destruct in_run; [apply IH|]. split; [|apply IH].
    intros _. split; [reflexivity|apply collapse_true_stops].
  - split; [|apply IH]. intros E. congruence.
Qed.

Lemma single_spaced_suffix (a b : str) :
  single_spaced (a ++ b) -> single_spaced b.
Proof.
  induction a as [|x a IH]; [auto|]. intros [_ H]. now apply IH.
Qed.

Lemma single_spaced_prefix (a b : str) :
  single_spaced (a ++ b) -> single_spaced a.
Proof.
  induction a as [|x a IH]; [intros _; exact I|]. intros [Hx H].
  split; [|now apply IH]. intros E. destruct (Hx E) as [Hsp Hst].
  split; [assumption|]. now apply stops_prefix with (b := b).
Qed.

Lemma collapse_fixed (s : str) :
  single_spaced s -> collapse false s = s.
Proof.
  induction s as [|x s IH]; [intros _; reflexivity|]. intros [Hx Hs].
  cbn [collapse]. destruct (isspace x) eqn:Ex.
  - destruct (Hx eq_refl) as [-> Hst].
    now rewrite (collapse_stops _ Hst), IH.
  - now rewrite IH.
Qed.

Lemma normalize_single_spaced (s : str) : single_spaced (normalize s).
Proof.
  unfold normalize, strip.
  destruct (lstrip_split isspace (collapse false s)) as [run1 [H1 _]].
  destruct (rstrip_split isspace (lstrip_by isspace (collapse false s)))
    as [run2 [H2 _]].
  apply single_spaced_prefix with (b := run2). rewrite <- H2.
  apply single_spaced_suffix with (a := run1). rewrite <- H1.
  apply collapse_single_spaced.
Qed.

(** Normalizing twice is normalizing once. *)
Lemma normalize_idem (s : str) : normalize (normalize s) = normalize s.
Proof.
  unfold normalize at 1.
  rewrite (collapse_fixed _ (normalize_single_spaced s)).
  unfold normalize. apply strip_idem.
Qed.

Lemma in_text_of (c : char) (s : str) :
  isspace c = false -> (In c (text_of s) <-> In c s).
Proof.
  intros Hc. unfold text_of. rewrite filter_In, Hc. simpl. tauto.
Qed.

Lemma unmatched_text_of (open close : char) (s : str) :
  isspace open = false -> isspace close = false ->
  (unmatched open close (text_of s) <-> unmatched open close s).
Proof.
  intros Ho Hc. induction s as [|x s IH]; [reflexivity|].
  unfold text_of in *. cbn [filter]. destruct (isspace x) eqn:Hx; cbn [negb].
  - rewrite IH. cbn [unmatched]. split; [|tauto].
    intros H. split; [|assumption]. intros ->. congruence.
  - cbn [unmatched]. rewrite IH.
    fold (text_of s). rewrite (@in_text_of close s Hc). reflexivity.
Qed.

Lemma normalize_unmatched (open close : char) (s : str) :
  isspace open = false -> isspace close = false ->
  unmatched open close s -> unmatched open close (normalize s).
Proof.
  intros Ho Hc H.
  apply (proj1 (@unmatched_text_of open close (normalize s) Ho Hc)).
  rewrite text_of_normalize.
  exact (proj2 (@unmatched_text_of open close s Ho Hc) H).
Qed.

(** ** Whole-line brackets *)

Lemma greedy_until_end (close : char) (s : str) :
  forall pos c,
    greedy (other_than close) pos s c
      (fun pos' s' c' =>
         rmatch (Chr close) pos' s' c'
           (fun _ s'' c'' => match s'' with [] => Some c'' | _ => None end))
    = match after_first close s with
      | Some [] => Some c
      | _ => None
      end.
Proof.
  induction s as [|x s IH]; intros pos c; [reflexivity|].
  cbn [greedy after_first]. unfold other_than at 1.
  destruct (char_eqb x close) eqn:Hx.
  - apply char_eqb_eq in Hx. subst x. cbn [negb]. unfold Chr.
    rewrite rmatch_cls. unfold char_eqb. rewrite N.eqb_refl.
    destruct s; reflexivity.
  - cbn [negb]. rewrite IH.
    assert (Hx' : char_eqb close x = false).
    { apply char_eqb_neq. apply char_eqb_neq in Hx. congruence. }
    rewrite Hx'. destruct (after_first close s) as [[|y rest]|];
      try reflexivity; unfold Chr; now rewrite rmatch_cls, Hx'.
Qed.

Lemma fullmatch_bracket (open close : char) (s : str) :
  is_match (re_fullmatch (bracket_re open close) s) = is_span open close s.
Proof.
  unfold re_fullmatch, bracket_re, is_span. rewrite rmatch_cat. unfold Chr at 1.
  destruct s as [|x s']; [reflexivity|]. rewrite rmatch_cls.
  destruct (char_eqb open x); [|reflexivity].
  rewrite rmatch_cat, rmatch_star_cls, greedy_until_end.
  destruct (after_first close s') as [[|y rest]|]; reflexivity.
Qed.

Lemma is_span_split (open close : char) (s : str) :
  is_span open close s = true <->
  exists body, s = open :: body ++ [close] /\ ~ In close body.
Proof.
  unfold is_span. destruct s as [|x s'].
  - split; [discriminate|]. intros [body [H _]]. discriminate.
  - rewrite andb_true_iff, char_eqb_eq. split.
    + intros [<- H]. destruct (after_first close s') as [[|y rest]|] eqn:Haf;
        try discriminate.
      apply after_first_split in Haf. destruct Haf as [body [-> Hn]].
      now exists body.
    + intros [body [H Hn]]. inversion H; subst. split; [reflexivity|].
      assert (Haf : after_first close (body ++ [close]) = Some []).
      { apply after_first_split. now exists body. }
      now rewrite Haf.
Qed.

(** A string without whitespace at either end. *)
Lemma trimmed_cases (s : str) :
  stops isspace s -> stops isspace (rev s) ->
  s = [] \/ (exists x, s = [x] /\ isspace x = false)
  \/ exists x mid y, s = x :: mid ++ [y] /\ isspace x = false /\ isspace y = false.
Proof.
  intros Hhead Hlast. destruct s as [|x s]; [now left|]. right.
  simpl in Hhead. destruct (exists_last (l := x :: s)) as [front [y Hs]];
    [discriminate|].
  rewrite Hs, rev_app_distr in Hlast. simpl in Hlast.
  destruct front as [|x' mid]; simpl in Hs; inversion Hs; subst.
  - left. now exists y.
  - right. exists x', mid, y. auto.
Qed.

Lemma strip_stops_rev (s : str) : stops isspace (rev (strip s)).
Proof.
  unfold strip, rstrip_by. rewrite rev_involutive. apply lstrip_stops.
Qed.

Lemma text_of_app (a b : str) : text_of (a ++ b) = text_of a ++ text_of b.
Proof. unfold text_of. apply filter_app. Qed.

Lemma text_of_keep (x : char) (s : str) :
  isspace x = false -> text_of (x :: s) = x :: text_of s.
Proof. intros H. unfold text_of. cbn [filter]. now rewrite H. Qed.

Lemma text_of_last (s : str) (y : char) :
  isspace y = false -> text_of (s ++ [y]) = text_of s ++ [y].
Proof. intros H. now rewrite text_of_app, (@text_of_keep y [] H). Qed.

(** For a string without whitespace at either end, being one bracketed span
    shows on its text alone. *)
Lemma is_span_text_of (open close : char) (s : str) :
  isspace close = false ->
  stops isspace s -> stops isspace (rev s) ->
  is_span open close s = is_span open close (text_of s).
Proof.
  intros Hc Hhead Hlast.
  destruct (trimmed_cases s Hhead Hlast)
    as [->|[[x [-> Hx]]|[x [mid [y [-> [Hx Hy]]]]]]].
  - reflexivity.
  - now rewrite (@text_of_keep x [] Hx).
  - change (x :: mid ++ [y]) with ((x :: mid) ++ [y]).
    rewrite (@text_of_last (x :: mid) y Hy), (@text_of_keep x mid Hx). cbn [app].
    apply eq_true_iff_eq. rewrite !is_span_split. split.
    + intros [body [H Hn]]. inversion H as [[Hox Hbody]].
      apply app_inj_tail in Hbody. destruct Hbody as [Hb Hyc].
      subst body. subst y. exists (text_of mid). split; [reflexivity|].
      intros Hin. apply Hn. now apply (@in_text_of close mid Hc).
    + intros [body [H Hn]]. inversion H as [[Hox Hbody]].
      apply app_inj_tail in Hbody. destruct Hbody as [Hb Hyc].
      subst body. subst y. exists mid. split; [reflexivity|].
      intros Hin. apply Hn. now apply (@in_text_of close mid Hc).
Qed.

Lemma is_span_normalize (open close : char) (s : str) :
  isspace close = false ->
  is_span open close (normalize s) = is_span open close (strip s).
Proof.
  intros Hc.
  rewrite (@is_span_text_of open close (normalize s) Hc
             (strip_stops _) (strip_stops_rev _)).
  rewrite (@is_span_text_of open close (strip s) Hc
             (strip_stops _) (strip_stops_rev _)).
  now rewrite text_of_normalize, text_of_strip.
Qed.

(** ** Cleaning a line without markup *)

Section PlainLines.
Context {U : UnicodeData}.

Lemma strip_speaker_no_colon (line : str) (cfg : SDHConfig) :
  speaker_free cfg line -> _strip_speaker line cfg = line.
Proof.
  intros Hfree.
  destruct (strip_speaker_cases line cfg) as [H|[Hcfg Hshape]]; [exact H|].
  exfalso. apply (Hfree Hcfg).
  destruct Hshape as [lead [prefix [gap [tail [Hline _]]]]].
  rewrite Hline. apply in_or_app. right. apply in_or_app. right. now left.
Qed.

Lemma remove_inline_brackets_scan (line : str) (cfg : SDHConfig) :
  _remove_inline_brackets line cfg
  = let line1 :=
      if remove_between_square cfg && negb (between_only_if_separate_line cfg)
      then remove_spans (ch "[") (ch "]") false line else line in
    if remove_between_paren cfg && negb (between_only_if_separate_line cfg)
    then remove_spans (ch "(") (ch ")") false line1 else line1.
Proof.
  unfold _remove_inline_brackets.
  change SQUARE_RE with (bracket_re (ch "[") (ch "]")).
  change PAREN_RE with (bracket_re (ch "(") (ch ")")).
  now rewrite !re_sub_bracket.
Qed.

Lemma should_drop_scan (line : str) (cfg : SDHConfig) :
  _should_drop_line_for_brackets line cfg
  = between_only_if_separate_line cfg
    && ((remove_between_square cfg && is_span (ch "[") (ch "]") (strip line))
        || (remove_between_paren cfg && is_span (ch "(") (ch ")") (strip line))).
Proof.
  unfold _should_drop_line_for_brackets.
  change SQUARE_RE with (bracket_re (ch "[") (ch "]")).
  change PAREN_RE with (bracket_re (ch "(") (ch ")")).
  rewrite !fullmatch_bracket.
  destruct (between_only_if_separate_line cfg); [|reflexivity]. cbn [negb andb].
  destruct (remove_between_square cfg && is_span (ch "[") (ch "]") (strip line));
    [reflexivity|]. cbn [orb].
  destruct (remove_between_paren cfg && is_span (ch "(") (ch ")") (strip line));
    reflexivity.
Qed.

Lemma remove_inline_brackets_in (c : char) (line : str) (cfg : SDHConfig) :
  In c (_remove_inline_brackets line cfg) -> In c line.
Proof.
  rewrite remove_inline_brackets_scan. cbv zeta.
  destruct (remove_between_square cfg && negb (between_only_if_separate_line cfg));
    destruct (remove_between_paren cfg && negb (between_only_if_separate_line cfg));
    intros H; repeat (apply remove_spans_in in H); exact H.
Qed.

(** The brackets a pass removes are gone for the next pass. *)
Lemma remove_inline_brackets_settled (line : str) (cfg : SDHConfig) :
  _remove_inline_brackets (normalize (_remove_inline_brackets line cfg)) cfg
  = normalize (_remove_inline_brackets line cfg).
Proof.
  rewrite remove_inline_brackets_scan.
  rewrite (remove_inline_brackets_scan line cfg). cbv zeta.
  destruct (remove_between_square cfg && negb (between_only_if_separate_line cfg)),
    (remove_between_paren cfg && negb (between_only_if_separate_line cfg)).
  - assert (Hsq : unmatched (ch "[") (ch "]")
        (normalize (remove_spans (ch "(") (ch ")") false
                      (remove_spans (ch "[") (ch "]") false line)))).
    { apply normalize_unmatched; try reflexivity.
      apply remove_spans_keeps_unmatched, remove_spans_unmatched. }
    rewrite (remove_spans_fixed _ _ _ Hsq).
    apply remove_spans_fixed. apply normalize_unmatched; try reflexivity.
    apply remove_spans_unmatched.
  - apply remove_spans_fixed. apply normalize_unmatched; try reflexivity.
    apply remove_spans_unmatched.
  - apply remove_spans_fixed. apply normalize_unmatched; try reflexivity.
    apply remove_spans_unmatched.
  - reflexivity.
Qed.

Lemma strip_normalize (s : str) : strip (normalize s) = normalize s.
Proof. unfold normalize. apply strip_idem. Qed.

Lemma should_drop_settled (line : str) (cfg : SDHConfig) :
  _should_drop_line_for_brackets line cfg = false ->
  _should_drop_line_for_brackets
    (normalize (_remove_inline_brackets line cfg)) cfg = false.
Proof.
  rewrite !should_drop_scan, remove_inline_brackets_scan.
  destruct (between_only_if_separate_line cfg); [|reflexivity].
  rewrite !andb_false_r. cbv zeta. cbn [andb].
  now rewrite strip_normalize, !is_span_normalize by reflexivity.
Qed.

(** On a plain line the shielding and the speaker rule do nothing. *)
Lemma clean_line_plain (line : str) (cfg : SDHConfig) :
  plain cfg line ->
  clean_line line cfg
  = if _should_drop_line_for_brackets line cfg then None
    else
      let cleaned := normalize (_remove_inline_brackets line cfg) in
      if remove_if_only_music_symbols cfg && _only_music cleaned then None
      else Some cleaned.
Proof.
  intros [[Hlt [Hbrace Hback]] Hfree]. unfold clean_line.
  destruct (_should_drop_line_for_brackets line cfg); [reflexivity|].
  rewrite shield_plain by assumption.
  rewrite strip_speaker_no_colon.
  - rewrite re_sub_ws. fold (normalize (_remove_inline_brackets line cfg)).
    cbv zeta.
    destruct (remove_if_only_music_symbols cfg
              && _only_music (normalize (_remove_inline_brackets line cfg)));
      reflexivity.
  - intros Hcfg Hin. apply (Hfree Hcfg).
    eapply remove_inline_brackets_in. exact Hin.
Qed.

Lemma plain_settled (line : str) (cfg : SDHConfig) :
  plain cfg line -> plain cfg (normalize (_remove_inline_brackets line cfg)).
Proof.
  assert (Hkeep : forall c, c <> ch " " ->
            In c (normalize (_remove_inline_brackets line cfg)) -> In c line).
  { intros c Hc Hin. apply normalize_in in Hin. destruct Hin as [Hin|E];
      [|contradiction]. eapply remove_inline_brackets_in. exact Hin. }
  intros [[Hlt [Hbrace Hback]] Hfree]. repeat split.
  - intros Hin. apply Hlt. apply Hkeep; [discriminate|assumption].
  - intros Hin. apply Hbrace. apply Hkeep; [discriminate|assumption].
  - intros Hin. apply Hback. apply Hkeep; [discriminate|assumption].
  - intros Hcfg Hin. apply (Hfree Hcfg). apply Hkeep; [discriminate|assumption].
Qed.

(** What [clean_line] makes of a plain line, it leaves alone. *)
Lemma clean_line_plain_fixed (line result : str) (cfg : SDHConfig) :
  plain cfg line ->
  clean_line line cfg = Some result -> clean_line result cfg = Some result.
Proof.
  intros Hplain H. rewrite clean_line_plain in H by assumption.
  destruct (_should_drop_line_for_brackets line cfg) eqn:Hdrop; [discriminate|].
  cbv zeta in H.
  destruct (remove_if_only_music_symbols cfg
            && _only_music (normalize (_remove_inline_brackets line cfg)))
    eqn:Hmusic; [discriminate|].
  inversion H as [Hres].
  rewrite clean_line_plain by now apply plain_settled.
  rewrite (should_drop_settled _ _ Hdrop). cbv zeta.
  rewrite remove_inline_brackets_settled, normalize_idem, Hmusic. reflexivity.
Qed.

End PlainLines.

(** ** Applying SDH to Full twice: the statement *)

Section Twice.
Context {U : UnicodeData}.

(** C3, amended.  Applying [sdh_to_full_blocks] a second time with the same
    configuration changes nothing exactly when every text line that survived
    the first application is returned unchanged by [clean_line].  That is the
    case when no text line has a character that starts a shielded span (an
    angle bracket, a brace, a backslash) and, with [remove_text_before_colon]
    set, none has a colon. *)
Theorem sdh_to_full_twice (blocks : list SRTBlock) (cfg : SDHConfig) :
  (sdh_to_full_blocks (sdh_to_full_blocks blocks cfg) cfg
   = sdh_to_full_blocks blocks cfg
   <-> (forall b t,
          In b (sdh_to_full_blocks blocks cfg) -> In t (texts b) ->
          clean_line t cfg = Some t))
  /\ ((forall b t, In b blocks -> In t (texts b) -> plain cfg t) ->
      sdh_to_full_blocks (sdh_to_full_blocks blocks cfg) cfg
      = sdh_to_full_blocks blocks cfg).
Proof.
  split; [apply twice_same_iff_fixed|].
  intros Hplain. apply twice_same_iff_fixed. intros b t Hb Ht.
  destruct (cleaned_texts_nonempty _ _ _ _ Hb Ht)
    as [_ [block [text [Hblock [Htext Hclean]]]]].
  exact (clean_line_plain_fixed (Hplain block text Hblock Htext) Hclean).
Qed.

End Twice.

Section IdempotenceRuns.
#[local] Existing Instance latin1_only.

(** C3, as stated, fails: one speaker prefix is stripped per application. *)
Lemma sdh_to_full_not_idempotent :
  let entry := {| index := py "1"; timing := py "00:00:01,000 --> 00:00:02,000";
                  texts := [py "JOHN: MARY: Get out!"] |} in
  texts_of (sdh_to_full_blocks [entry] default_config)
  = [[py "MARY: Get out!"]]
  /\ texts_of (sdh_to_full_blocks
                 (sdh_to_full_blocks [entry] default_config) default_config)
     = [[py "Get out!"]]
  /\ sdh_to_full_blocks
       (sdh_to_full_blocks [entry] default_config) default_config
     <> sdh_to_full_blocks [entry] default_config.
Proof.
  intros entry. split; [vm_compute; reflexivity|].
  split; [vm_compute; reflexivity|]. vm_compute. discriminate.
Qed.

Lemma sdh_to_full_twice_scenario_A :
  let entry := {| index := py "1"; timing := py "00:00:01,000 --> 00:00:02,000";
                  texts := [py "(door creaks) JOHN: Get out!"] |} in
  let plain_entry := {| index := py "2"; timing := py "00:00:03,000 --> 00:00:04,000";
                        texts := [py "[wind howling]  Get   out! (sighs)"] |} in
  sdh_to_full_blocks
    (sdh_to_full_blocks [entry] default_config) default_config
  = sdh_to_full_blocks [entry] default_config
  /\ sdh_to_full_blocks
       (sdh_to_full_blocks [plain_entry] default_config) default_config
     = sdh_to_full_blocks [plain_entry] default_config.
Proof.
  split.
  - apply (proj2 (proj1 (@sdh_to_full_twice latin1_only _ default_config))).
    intros b t Hb Ht. vm_compute in Hb. destruct Hb as [<-|[]].
    vm_compute in Ht. destruct Ht as [<-|[]]. vm_compute. reflexivity.
  - apply (proj2 (@sdh_to_full_twice latin1_only _ default_config)).
    intros b t [<-|[]] [<-|[]].
    split; [repeat split|intros _]; intros H; vm_compute in H;
      repeat (destruct H as [H|H]; [discriminate H|]); exact H.
Defined.

End IdempotenceRuns.

(** * The rest of the module *)

(** ** Writing entries and reading them back *)

Lemma text_of_nil_blank (s : str) : is_blank s = true <-> text_of s = [].
Proof.
  unfold is_blank, nonempty. split.
  - intros H. rewrite <- text_of_strip. now destruct (strip s).
  - intros H.
    assert (Hall : forallb isspace s = true).
    { apply forallb_forall. intros c Hc. destruct (isspace c) eqn:E; [reflexivity|].
      apply (@in_text_of c s E) in Hc. rewrite H in Hc. destruct Hc. }
    assert (Hl : lstrip_by isspace s = []).
    { clear H. induction s as [|x s IH]; [reflexivity|]. simpl in *.
      apply andb_true_iff in Hall. destruct Hall as [Hx Hs]. rewrite Hx. auto. }
    unfold strip. rewrite Hl. reflexivity.
Qed.

Lemma text_of_rstrip_nl (s : str) : text_of (rstrip_nl s) = text_of s.
Proof.
  unfold rstrip_nl.
  destruct (rstrip_split (char_eqb newline) s) as [run [Hs Hrun]].
  rewrite Hs at 2. rewrite text_of_app.
  assert (Hnil : text_of run = []).
  { clear Hs. induction run as [|x run IH]; [reflexivity|]. cbn [forallb] in Hrun.
    apply andb_true_iff in Hrun. destruct Hrun as [Hx Hrun].
    apply char_eqb_eq in Hx. subst x. unfold text_of in *. simpl. auto. }
  now rewrite Hnil, app_nil_r.
Qed.

Lemma input_line_solid (lines : list str) (x : str) :
  input_line lines x -> solid x.
Proof.
  intros [l [_ [Hblank ->]]]. split.
  - destruct (is_blank (rstrip_nl l)) eqn:E; [|reflexivity].
    apply text_of_nil_blank in E. rewrite text_of_rstrip_nl in E.
    apply text_of_nil_blank in E. congruence.
  - apply rstrip_idem.
Qed.

Lemma text_solid (s : str) :
  s <> [] -> forallb (fun c => negb (isspace c)) s = true -> solid s.
Proof.
  intros Hne Hall.
  assert (Htext : text_of s = s).
  { unfold text_of. clear Hne. induction s as [|x s IH]; [reflexivity|].
    simpl in *. apply andb_true_iff in Hall. destruct Hall as [Hx Hs].
    rewrite Hx. f_equal. auto. }
  split.
  - destruct (is_blank s) eqn:E; [|reflexivity].
    apply text_of_nil_blank in E. congruence.
  - unfold rstrip_nl.
    destruct (rstrip_split (char_eqb newline) s) as [run [Hs Hrun]].
    destruct run as [|x run]; [now rewrite app_nil_r in Hs|]. exfalso.
    cbn [forallb] in Hrun. apply andb_true_iff in Hrun. destruct Hrun as [Hx _].
    apply char_eqb_eq in Hx. subst x.
    rewrite forallb_forall in Hall.
    assert (Hin : In newline s).
    { rewrite Hs. apply in_or_app. right. now left. }
    specialize (Hall _ Hin). discriminate.
Qed.

Lemma uint_digits_text (d : Decimal.uint) :
  forallb (fun c => negb (isspace c)) (uint_digits d) = true
  /\ one_line (uint_digits d) = true.
Proof.
  unfold one_line. induction d; simpl; try (split; reflexivity);
    destruct IHd as [H1 H2]; rewrite ?H1, ?H2; split; reflexivity.
Qed.

Lemma str_of_nat_nonempty (n : nat) : str_of_nat n <> [].
Proof.
  unfold str_of_nat. destruct (Nat.to_uint n) eqn:E; simpl; try discriminate.
  exfalso. assert (H : Nat.of_uint (Nat.to_uint n) = n) by apply Unsigned.of_to.
  rewrite E in H. simpl in H. subst n. discriminate.
Qed.

Lemma str_of_nat_solid (n : nat) : solid (str_of_nat n).
Proof.
  apply text_solid; [apply str_of_nat_nonempty|]. apply uint_digits_text.
Qed.

Lemma index_line_solid (renumber : bool) (block : SRTBlock) (k : nat) :
  readable renumber block -> solid (index_line renumber block k).
Proof.
  intros [_ [_ Hidx]]. unfold index_line.
  destruct renumber; [apply str_of_nat_solid|].
  destruct (index block) as [|c idx] eqn:E; simpl; [apply str_of_nat_solid|].
  apply Hidx; [reflexivity|discriminate].
Qed.

Lemma parse_loop_solids (xs rest : list str) :
  Forall solid xs ->
  forall blocks buffer,
    parse_loop (xs ++ rest) (blocks, buffer)
    = parse_loop rest (blocks, buffer ++ xs).
Proof.
  induction 1 as [|x xs [Hblank Hfix] _ IH]; intros blocks buffer; simpl.
  - now rewrite app_nil_r.
  - unfold parse_step. unfold is_blank in Hblank.
    rewrite Hblank, Hfix. cbn [bind]. rewrite IH, <- app_assoc. reflexivity.
Qed.

Lemma parse_entries (renumber : bool) (entries : list (nat * SRTBlock)) :
  Forall (fun e => readable renumber (snd e) /\ texts (snd e) <> []) entries ->
  forall blocks,
    parse_loop (flat_map (entry_lines renumber) entries) (blocks, [])
    = Some (blocks ++ map (written renumber) entries, []).
Proof.
  induction 1 as [|[k b] entries [Hread Hne] _ IH]; intros blocks.
  - simpl. now rewrite app_nil_r.
  - simpl in Hread.
    assert (Hsol : Forall solid
                     (index_line renumber b k :: timing b :: texts b)).
    { constructor; [now apply index_line_solid|].
      destruct Hread as [Htm [Htx _]]. now constructor. }
    assert (Hlines : flat_map (entry_lines renumber) ((k, b) :: entries)
                     = (index_line renumber b k :: timing b :: texts b)
                       ++ [] :: flat_map (entry_lines renumber) entries).
    { cbn [flat_map entry_lines app]. now rewrite <- app_assoc. }
    rewrite Hlines, (parse_loop_solids _ Hsol). cbn [app parse_loop].
    assert (Hstep : parse_step
                      (blocks, index_line renumber b k :: timing b :: texts b) []
                    = Some (blocks ++ [written renumber (k, b)], [])).
    { reflexivity. }
    rewrite Hstep. cbn [bind map]. rewrite IH, <- app_assoc. reflexivity.
Qed.

Lemma numbered_from_emitted (start : nat) (blocks : list SRTBlock)
    (P : SRTBlock -> Prop) :
  Forall P (emitted blocks) ->
  Forall (fun e => P (snd e) /\ texts (snd e) <> []) (numbered_from start blocks).
Proof.
  intros H. apply Forall_forall. intros [k b] Hin.
  unfold numbered_from in Hin. apply in_combine_r in Hin. simpl.
  rewrite Forall_forall in H. split; [now apply H|].
  pose proof (emitted_have_texts blocks) as Ht.
  rewrite Forall_forall in Ht. now apply Ht.
Qed.

Lemma parse_format_round_trip_general (blocks : list SRTBlock) (renumber : bool) :
  Forall (readable renumber) (emitted blocks) ->
  parse_srt (format_srt blocks renumber)
  = Some (map (written renumber) (numbered_from 1 blocks)).
Proof.
  intros H. unfold parse_srt. rewrite format_srt_entries.
  rewrite (parse_entries (@numbered_from_emitted 1 blocks _ H)). reflexivity.
Qed.

(** X1.  What [format_srt] writes, [parse_srt] reads back: the entries that
    have text, each with the index line it was given, provided the timing
    and the text lines (and a kept index) are not blank and do not end in a
    newline. *)
Theorem parse_format_round_trip (blocks : list SRTBlock) (renumber : bool) :
  Forall (readable renumber) (emitted blocks) ->
  parse_srt (format_srt blocks renumber)
  = Some (map (written renumber) (numbered_from 1 blocks)).
Proof.
  intros H. unfold parse_srt. rewrite format_srt_entries.
  rewrite (parse_entries (@numbered_from_emitted 1 blocks _ H)). reflexivity.
Qed.

Lemma parse_srt_good (lines : list str) (blocks : list SRTBlock) :
  parse_srt lines = Some blocks -> Forall (good_block lines) blocks.
Proof.
  intros H.
  destruct (@parse_loop_ok lines lines (incl_refl _) [] [])
    as [blocks1 [buffer1 [Hloop [Hb1 Hbuf1]]]]; try constructor.
  destruct (flush_ok Hb1 Hbuf1) as [blocks' [Hfl [Hb _]]].
  unfold parse_srt in H. rewrite Hloop in H. cbn [bind] in H.
  rewrite Hfl in H. cbn [bind fst] in H. now inversion H; subst.
Qed.

Lemma good_block_readable (lines : list str) (block : SRTBlock) (renumber : bool) :
  good_block lines block -> index block <> [] -> readable renumber block.
Proof.
  intros [buffer [_ [_ [Hlay Hin]]]] Hidx.
  destruct Hlay as [[_ [Hnil _]]|Hbuf]; [contradiction|]. subst buffer.
  inversion Hin as [|x xs Hx Hrest]; subst.
  inversion Hrest as [|y ys Hy Htexts]; subst.
  split; [now apply input_line_solid with (lines := lines)|]. split.
  - apply Forall_forall. intros t Ht. rewrite Forall_forall in Htexts.
    apply input_line_solid with (lines := lines). now apply Htexts.
  - intros _ _. now apply input_line_solid with (lines := lines).
Qed.

Lemma written_kept_index (entries : list SRTBlock) (start : nat) :
  Forall (fun b => index b <> []) entries ->
  map (written false) (combine (seq start (List.length entries)) entries) = entries.
Proof.
  intros H; revert start. induction H as [|b entries Hb _ IH]; intros start;
    [reflexivity|].
  simpl. rewrite IH. f_equal. unfold index_line. destruct b as [idx tm ts].
  simpl in *. destruct idx; [congruence|reflexivity].
Qed.

(** X2.  Entries that [parse_srt] has read are read back the same after
    [format_srt]: with two lines or more each (so that the index is not
    empty), parsing the formatted entries gives the entries that have text,
    unchanged when the index is kept and with the counter for index when
    renumbered. *)
Theorem parse_format_of_parsed (lines : list str) (blocks : list SRTBlock) :
  parse_srt lines = Some blocks ->
  Forall (fun b => index b <> []) blocks ->
  parse_srt (format_srt blocks false) = Some (emitted blocks)
  /\ parse_srt (format_srt blocks true)
     = Some (map (written true) (numbered_from 1 blocks)).
Proof.
  intros Hparse Hidx.
  assert (Hread : forall r, Forall (readable r) (emitted blocks)).
  { intros r. apply Forall_forall. intros b Hb. apply filter_In in Hb.
    destruct Hb as [Hb _]. rewrite Forall_forall in Hidx.
    apply good_block_readable with (lines := lines); [|now apply Hidx].
    pose proof (parse_srt_good _ Hparse) as Hgood.
    rewrite Forall_forall in Hgood. now apply Hgood. }
  split; [|now apply parse_format_round_trip_general].
  rewrite parse_format_round_trip_general by apply Hread.
  unfold numbered_from. rewrite written_kept_index; [reflexivity|].
  apply Forall_forall. intros b Hb. apply filter_In in Hb.
  rewrite Forall_forall in Hidx. now apply Hidx.
Qed.

(** ** Blank lines separate *)

Lemma flush_shift (pre blocks : list SRTBlock) (buffer : list str) :
  flush (pre ++ blocks, buffer)
  = option_map (fun st : parse_state => (pre ++ fst st, snd st))
      (flush (blocks, buffer)).
Proof.
  unfold flush. destruct buffer as [|x buffer]; [reflexivity|].
  destruct (_make_block (x :: buffer)); simpl; [|reflexivity].
  now rewrite app_assoc.
Qed.

Lemma parse_loop_shift (lines : list str) (pre : list SRTBlock) :
  forall blocks buffer,
    parse_loop lines (pre ++ blocks, buffer)
    = option_map (fun st : parse_state => (pre ++ fst st, snd st))
        (parse_loop lines (blocks, buffer)).
Proof.
  induction lines as [|line lines IH]; intros blocks buffer; [reflexivity|].
  cbn [parse_loop]. unfold parse_step.
  destruct (negb (nonempty (strip line))).
  - rewrite flush_shift. destruct (flush (blocks, buffer)) as [[bs bf]|];
      [|reflexivity]. cbn [option_map bind fst snd]. apply IH.
  - cbn [bind]. apply IH.
Qed.

Lemma flush_total (blocks : list SRTBlock) (buffer : list str) :
  exists blocks', flush (blocks, buffer) = Some (blocks', []).
Proof.
  unfold flush. destruct buffer as [|x buffer]; [now exists blocks|].
  destruct (make_block_total (x :: buffer)) as [b [Hb _]]. rewrite Hb.
  now eexists.
Qed.

Lemma parse_loop_total (lines : list str) :
  forall st, exists st', parse_loop lines st = Some st'.
Proof.
  induction lines as [|line lines IH]; intros [blocks buffer]; [now eexists|].
  cbn [parse_loop]. unfold parse_step.
  destruct (negb (nonempty (strip line))).
  - destruct (flush_total blocks buffer) as [blocks' E]. rewrite E. apply IH.
  - apply IH.
Qed.

(** X3.  A blank line separates: the entries of two line sequences joined by
    a blank line are the entries of the first followed by the entries of the
    second, so no entry reaches across a blank line. *)
Theorem parse_srt_blank_separates (before after : list str) (blank : str) :
  is_blank blank = true ->
  exists first second,
    parse_srt before = Some first /\ parse_srt after = Some second
    /\ parse_srt (before ++ blank :: after) = Some (first ++ second).
Proof.
  intros Hblank.
  destruct (parse_loop_total before ([], [])) as [[bs1 bf1] H1].
  destruct (flush_total bs1 bf1) as [first Hf1].
  destruct (parse_loop_total after ([], [])) as [[bs2 bf2] H2].
  destruct (flush_total bs2 bf2) as [second Hf2].
  exists first, second. unfold parse_srt.
  rewrite H1, H2. cbn [bind]. rewrite Hf1, Hf2. cbn [bind fst].
  split; [reflexivity|]. split; [reflexivity|].
  rewrite parse_loop_app, H1. cbn [bind parse_loop].
  unfold parse_step. unfold is_blank in Hblank. rewrite Hblank, Hf1. cbn [bind].
  replace first with (first ++ []) at 1 by apply app_nil_r.
  rewrite parse_loop_shift, H2. cbn [option_map fst snd bind].
  rewrite flush_shift, Hf2. reflexivity.
Qed.

(** ** Writing lines and reading them *)

Lemma write_lines_cons (l : str) (ls : list str) :
  _write_lines (l :: ls) = l ++ newline :: _write_lines ls.
Proof.
  unfold _write_lines. destruct ls as [|l' ls]; [reflexivity|].
  change (join [newline] (l :: l' :: ls))
    with (l ++ [newline] ++ join [newline] (l' :: ls)).
  now rewrite <- !app_assoc.
Qed.

Lemma newline_is_linebreak : is_linebreak newline = true.
Proof. reflexivity. Qed.

Lemma one_line_no_newline (x : str) :
  one_line x = true -> forallb (fun c => negb (char_eqb newline c)) x = true.
Proof.
  unfold one_line. rewrite !forallb_forall. intros H c Hc.
  specialize (H c Hc). destruct (char_eqb newline c) eqn:E; [|reflexivity].
  apply char_eqb_eq in E. subst c. now rewrite newline_is_linebreak in H.
Qed.

Lemma split_from_line (x rest : str) :
  one_line x = true ->
  forall cur, split_from (x ++ newline :: rest) cur = (cur ++ x) :: split_from rest [].
Proof.
  induction x as [|c x IH]; intros Hx cur.
  - now rewrite app_nil_r.
  - cbn [one_line forallb] in Hx. apply andb_true_iff in Hx. destruct Hx as [Hc Hx].
    cbn [app split_from]. apply negb_true_iff in Hc. rewrite Hc.
    rewrite (IH Hx). now rewrite <- app_assoc.
Qed.

Lemma iter_from_line (x rest : str) :
  forallb (fun c => negb (char_eqb newline c)) x = true ->
  forall cur,
    iter_from (x ++ newline :: rest) cur = (cur ++ x ++ [newline]) :: iter_from rest [].
Proof.
  induction x as [|c x IH]; intros Hx cur.
  - reflexivity.
  - cbn [forallb] in Hx. apply andb_true_iff in Hx. destruct Hx as [Hc Hx].
    cbn [app iter_from]. apply negb_true_iff in Hc.
    assert (Hc' : char_eqb c newline = false).
    { destruct (char_eqb c newline) eqn:E; [|reflexivity].
      apply char_eqb_eq in E. subst c. unfold char_eqb in Hc.
      now rewrite N.eqb_refl in Hc. }
    rewrite Hc', (IH Hx). now rewrite <- app_assoc.
Qed.

Lemma rstrip_nl_line (x : str) :
  forallb (fun c => negb (char_eqb newline c)) x = true ->
  rstrip_nl (x ++ [newline]) = x.
Proof.
  intros Hx. unfold rstrip_nl, rstrip_by. rewrite rev_app_distr.
  cbn [rev app lstrip_by].
  replace (char_eqb newline newline) with true by reflexivity.
  assert (E : lstrip_by (char_eqb newline) (rev x) = rev x).
  { assert (Hr : forallb (fun c => negb (char_eqb newline c)) (rev x) = true).
    { rewrite forallb_forall in *. intros c Hc. apply Hx. now apply in_rev. }
    destruct (rev x) as [|c r]; [reflexivity|]. cbn [forallb] in Hr.
    apply andb_true_iff in Hr. destruct Hr as [Hc _]. apply negb_true_iff in Hc.
    cbn [lstrip_by]. now rewrite Hc. }
  rewrite E. apply rev_involutive.
Qed.

(** ** The forced-cue test *)

Section ForcedTest.
Context {U : UnicodeData}.

Lemma greedy_to_end (p : char -> bool) (s : str) :
  forall pos c,
    is_match
      (greedy p pos s c
         (fun pos' s' c' =>
            rmatch Eol pos' s' c'
              (fun _ s'' c'' => match s'' with [] => Some c'' | _ => None end)))
    = forallb p s.
Proof.
  induction s as [|x s IH]; intros pos c; [reflexivity|].
  cbn [greedy forallb].
  assert (Hk : rmatch Eol pos (x :: s) c
                 (fun _ s'' c'' => match s'' with [] => Some c'' | _ => None end)
               = None).
  { rewrite rmatch_eol. destruct s; [|reflexivity].
    destruct (char_eqb x newline); reflexivity. }
  destruct (p x); [|now rewrite Hk].
  specialize (IH (S pos) c). cbn [andb].
  destruct (greedy p (S pos) s c _) as [r|]; [exact IH|]. now rewrite Hk.
Qed.

Lemma fullmatch_class_plus (p : char -> bool) (s : str) :
  is_match (re_fullmatch (Cat Bol (Cat (Plus (Cls p)) Eol)) s)
  = nonempty s && forallb p s.
Proof.
  unfold re_fullmatch, Plus. rewrite rmatch_cat, rmatch_bol. cbn [Nat.eqb].
  rewrite !rmatch_cat. destruct s as [|x s]; [now rewrite rmatch_cls_nil|].
  rewrite rmatch_cls. cbn [nonempty nonempty_list forallb andb].
  destruct (p x); [|reflexivity]. rewrite rmatch_star_cls.
  apply greedy_to_end.
Qed.

(** X5.  [is_all_caps_cue] without the regular expression: a line is a
    forced cue exactly when its stripped text is not empty, every character
    of it is of the class of [FORCED_RE] (capital A-Z, the listed accented
    capitals, whitespace, digits, non-word characters), it has two letters or
    more, and every letter is upper case. *)
Theorem is_all_caps_cue_spec (line : str) :
  is_all_caps_cue line = true
  <-> strip line <> []
      /\ forallb forced_class (strip line) = true
      /\ 2 <= List.length (letters (strip line))
      /\ forallb isupper (letters (strip line)) = true.
Proof.
  split.
  - intros H. pose proof (forced_cue_is_all_class _ H) as Hre.
    rewrite fullmatch_class_plus in Hre. apply andb_true_iff in Hre.
    destruct Hre as [Hne Hcls]. unfold is_all_caps_cue in H. cbv zeta in H.
    split; [destruct (strip line); [discriminate|congruence]|].
    split; [assumption|]. fold (letters (strip line)) in H.
    destruct (negb (nonempty (strip line))); [discriminate|].
    destruct (negb (is_match (re_fullmatch FORCED_RE (strip line))));
      [discriminate|].
    destruct (Nat.ltb (List.length (letters (strip line))) 2) eqn:E;
      [discriminate|]. apply Nat.ltb_ge in E. now split.
  - intros [Hne [Hcls [Hlen Hup]]]. unfold is_all_caps_cue. cbv zeta.
    fold (letters (strip line)).
    assert (Hre : is_match (re_fullmatch FORCED_RE (strip line)) = true).
    { pose proof (fullmatch_class_plus forced_class (strip line)) as Hp.
      rewrite Hcls in Hp.
      assert (Hn : nonempty (strip line) = true)
        by (destruct (strip line); [congruence|reflexivity]).
      rewrite Hn in Hp. unfold re_fullmatch in *. unfold FORCED_RE.
      rewrite rmatch_alt.
      destruct (rmatch (Cat Bol (Cat (Plus (Cls forced_class)) Eol)) 0 (strip line) []
                  (fun _ s' c => match s' with [] => Some c | _ => None end));
        [reflexivity|discriminate]. }
    rewrite Hre. cbn [negb].
    assert (Hn : nonempty (strip line) = true)
      by (destruct (strip line); [congruence|reflexivity]).
    rewrite Hn. cbn [negb].
    apply Nat.ltb_ge in Hlen. now rewrite Hlen.
Qed.

Lemma flat_map_filter (A : Type) (f : A -> bool) (l : list A) :
  flat_map (fun x => if f x then [x] else []) l = filter f l.
Proof.
  induction l as [|x l IH]; [reflexivity|]. cbn [flat_map filter].
  rewrite IH. now destruct (f x).
Qed.

Lemma full_to_forced_blocks_filter (blocks : list SRTBlock)
    (cue_checker : option (str -> bool)) :
  full_to_forced_blocks blocks cue_checker
  = filter (forced_entry cue_checker) blocks.
Proof.
  unfold full_to_forced_blocks.
  rewrite (@fold_left_appends _ _ _
             (fun b => if forced_entry cue_checker b then [b] else [])).
  - apply flat_map_filter.
  - intros acc b. unfold forced_entry. cbv zeta.
    destruct (nonempty_list (texts b) && _); [reflexivity|now rewrite app_nil_r].
Qed.

Lemma filter_twice (A : Type) (f : A -> bool) (l : list A) :
  filter f (filter f l) = filter f l.
Proof.
  induction l as [|x l IH]; [reflexivity|]. cbn [filter].
  destruct (f x) eqn:E; [|exact IH]. cbn [filter]. now rewrite E, IH.
Qed.

(** X6.  [full_to_forced_blocks] only selects: it keeps, in order and
    unchanged, exactly the entries that have text and whose every text line,
    its override spans removed, passes the checker; applying it again to its
    result changes nothing. *)
Theorem full_to_forced_blocks_selects (blocks : list SRTBlock)
    (cue_checker : option (str -> bool)) :
  full_to_forced_blocks blocks cue_checker
  = filter (forced_entry cue_checker) blocks
  /\ full_to_forced_blocks (full_to_forced_blocks blocks cue_checker) cue_checker
     = full_to_forced_blocks blocks cue_checker.
Proof.
  split; [apply full_to_forced_blocks_filter|].
  rewrite !full_to_forced_blocks_filter. apply filter_twice.
Qed.

(** X7.  Both steps work entry by entry, with no state from one entry to
    the next: the result for two lists of entries one after the other is the
    result for the first followed by the result for the second. *)
Theorem steps_entry_by_entry (first second : list SRTBlock) (cfg : SDHConfig)
    (cue_checker : option (str -> bool)) :
  sdh_to_full_blocks (first ++ second) cfg
  = sdh_to_full_blocks first cfg ++ sdh_to_full_blocks second cfg
  /\ full_to_forced_blocks (first ++ second) cue_checker
     = full_to_forced_blocks first cue_checker
       ++ full_to_forced_blocks second cue_checker.
Proof.
  split.
  - rewrite !sdh_to_full_blocks_kept. apply flat_map_app.
  - rewrite !full_to_forced_blocks_filter. apply filter_app.
Qed.

(** X8.  An entry of the result of [sdh_to_full_blocks] is an entry of the
    input with the same index and timing; it has text, none of its text lines
    is empty, and each is what [clean_line] returned for a text line of that
    input entry. *)
Theorem sdh_to_full_blocks_entries (blocks : list SRTBlock) (cfg : SDHConfig) :
  Forall (fun cleaned =>
            exists block,
              In block blocks /\ header cleaned = header block
              /\ texts cleaned <> []
              /\ Forall (fun t => t <> []
                                  /\ exists text, In text (texts block)
                                       /\ clean_line text cfg = Some t)
                   (texts cleaned))
    (sdh_to_full_blocks blocks cfg)
  /\ List.length (sdh_to_full_blocks blocks cfg) <= List.length blocks.
Proof.
  split.
  - apply Forall_forall. intros b Hb. rewrite sdh_to_full_blocks_kept in Hb.
    apply in_flat_map in Hb. destruct Hb as [block [Hblock Hb]].
    destruct (kept_block_texts _ _ _ Hb) as [Hi [Ht [Htexts Hne]]].
    exists block. split; [assumption|]. split; [unfold header; congruence|].
    split; [assumption|]. apply Forall_forall. intros t Hin.
    rewrite Htexts in Hin. apply in_flat_map in Hin.
    destruct Hin as [text [Htext Hin]]. apply kept_line_spec in Hin.
    destruct Hin as [Hclean Hnil]. split; [assumption|]. now exists text.
  - rewrite sdh_to_full_blocks_kept. apply flat_map_short. apply kept_block_short.
Qed.

End ForcedTest.

(** ** Bracketed spans *)

Lemma subseq_refl (s : str) : subseq s s.
Proof. induction s; constructor; assumption. Qed.

Lemma subseq_trans (a b c : str) : subseq a b -> subseq b c -> subseq a c.
Proof.
  intros Hab Hbc. revert a Hab.
  induction Hbc as [|x b c Hbc IH|x b c Hbc IH]; intros a Hab.
  - assumption.
  - constructor. now apply IH.
  - inversion Hab; subst.
    + apply subseq_skip. now apply IH.
    + apply subseq_keep. now apply IH.
Qed.

Lemma remove_spans_subseq (open close : char) (s : str) :
  forall inside, subseq (remove_spans open close inside s) s.
Proof.
  induction s as [|x s IH]; intros inside; [constructor|].
  cbn [remove_spans]. destruct inside.
  - constructor. apply IH.
  - destruct (char_eqb open x && mem close s); constructor; apply IH.
Qed.

Lemma absent_unmatched (open close : char) (s : str) :
  ~ In open s -> unmatched open close s.
Proof.
  induction s as [|x s IH]; intros H; [exact I|]. split.
  - intros ->. exfalso. apply H. now left.
  - apply IH. intros Hin. apply H. now right.
Qed.

Lemma remove_inline_brackets_subseq (line : str) (cfg : SDHConfig) :
  subseq (_remove_inline_brackets line cfg) line.
Proof.
  rewrite remove_inline_brackets_scan. cbv zeta.
  destruct (remove_between_square cfg && negb (between_only_if_separate_line cfg));
    destruct (remove_between_paren cfg && negb (between_only_if_separate_line cfg));
    try apply subseq_refl; try apply remove_spans_subseq.
  eapply subseq_trans; apply remove_spans_subseq.
Qed.

Lemma remove_inline_brackets_fixed (line : str) (cfg : SDHConfig) :
  unmatched (ch "[") (ch "]") line -> unmatched (ch "(") (ch ")") line ->
  _remove_inline_brackets line cfg = line.
Proof.
  intros Hsq Hpar. rewrite remove_inline_brackets_scan. cbv zeta.
  destruct (remove_between_square cfg && negb (between_only_if_separate_line cfg));
    destruct (remove_between_paren cfg && negb (between_only_if_separate_line cfg));
    rewrite ?(remove_spans_fixed _ _ _ Hsq), ?(remove_spans_fixed _ _ _ Hpar);
    reflexivity.
Qed.

(** X9.  [_remove_inline_brackets] only deletes characters.  Without
    [between_only_if_separate_line], the result has no opening square bracket
    with a closing one after it when [remove_between_square] is set, and no
    opening parenthesis with a closing one after it when
    [remove_between_paren] is set.  With [between_only_if_separate_line], and
    for a line that has no such pair, the line is returned as it is. *)
Theorem remove_inline_brackets_result (line : str) (cfg : SDHConfig) :
  subseq (_remove_inline_brackets line cfg) line
  /\ (between_only_if_separate_line cfg = false ->
      (remove_between_square cfg = true ->
       unmatched (ch "[") (ch "]") (_remove_inline_brackets line cfg))
      /\ (remove_between_paren cfg = true ->
          unmatched (ch "(") (ch ")") (_remove_inline_brackets line cfg)))
  /\ (between_only_if_separate_line cfg = true ->
      _remove_inline_brackets line cfg = line)
  /\ (unmatched (ch "[") (ch "]") line -> unmatched (ch "(") (ch ")") line ->
      _remove_inline_brackets line cfg = line).
Proof.
  split; [apply remove_inline_brackets_subseq|]. split; [|split].
  - intros Hsep. rewrite remove_inline_brackets_scan, Hsep. cbv zeta.
    rewrite !andb_true_r. split.
    + intros ->. destruct (remove_between_paren cfg).
      * apply remove_spans_keeps_unmatched. apply remove_spans_unmatched.
      * apply remove_spans_unmatched.
    + intros ->. apply remove_spans_unmatched.
  - intros Hsep. rewrite remove_inline_brackets_scan, Hsep.
    now rewrite !andb_false_r.
  - apply remove_inline_brackets_fixed.
Qed.

(** X10.  [_should_drop_line_for_brackets] without the regular expressions:
    a line is dropped exactly when [between_only_if_separate_line] is set and
    the stripped line is one span, an opening bracket of a kind that is to be
    removed, a text without the closing bracket, and the closing bracket.  A
    line of two spans is not one span, and is kept. *)
Theorem should_drop_line_for_brackets_spec (line : str) (cfg : SDHConfig) :
  _should_drop_line_for_brackets line cfg = true
  <-> between_only_if_separate_line cfg = true
      /\ ((remove_between_square cfg = true
           /\ exists body,
               strip line = ch "[" :: body ++ [ch "]"] /\ ~ In (ch "]") body)
          \/ (remove_between_paren cfg = true
              /\ exists body,
                  strip line = ch "(" :: body ++ [ch ")"] /\ ~ In (ch ")") body)).
Proof.
  rewrite should_drop_scan, andb_true_iff, orb_true_iff, !andb_true_iff.
  rewrite !is_span_split. reflexivity.
Qed.

(** X11.  [_text_without_overrides] only deletes characters; its result has
    no opening brace with a closing brace after it; a text without such a
    pair is returned as it is, so applying it twice is applying it once. *)
Theorem text_without_overrides_result (text : str) :
  subseq (_text_without_overrides text) text
  /\ unmatched (ch "{") (ch "}") (_text_without_overrides text)
  /\ (unmatched (ch "{") (ch "}") text -> _text_without_overrides text = text)
  /\ _text_without_overrides (_text_without_overrides text)
     = _text_without_overrides text.
Proof.
  unfold _text_without_overrides.
  change ASS_OVERRIDE_RE with (bracket_re (ch "{") (ch "}")).
  rewrite !re_sub_bracket. split; [apply remove_spans_subseq|].
  split; [apply remove_spans_unmatched|]. split; [apply remove_spans_fixed|].
  apply remove_spans_fixed. apply remove_spans_unmatched.
Qed.

(** ** Lines without markup *)

Section PlainLines.
Context {U : UnicodeData}.

(** X12.  For a line without markup and without a speaker prefix that
    [clean_line] keeps, the result is the line with its bracketed spans
    removed, every run of whitespace made one space and both ends stripped:
    it has no whitespace at either end, its only whitespace is single spaces,
    each of its characters is a character of the line or a space, and
    cleaning it again returns it unchanged. *)
Theorem clean_line_plain_result (line result : str) (cfg : SDHConfig) :
  plain cfg line ->
  clean_line line cfg = Some result ->
  result = normalize (_remove_inline_brackets line cfg)
  /\ strip result = result
  /\ single_spaced result
  /\ (forall c, In c result -> In c line \/ c = ch " ")
  /\ clean_line result cfg = Some result.
Proof.
  intros Hplain Hclean.
  assert (Hres : result = normalize (_remove_inline_brackets line cfg)).
  { pose proof Hclean as H. rewrite (clean_line_plain Hplain) in H. cbv zeta in H.
    destruct (_should_drop_line_for_brackets line cfg); [discriminate|].
    destruct (remove_if_only_music_symbols cfg && _); [discriminate|].
    now inversion H. }
  split; [assumption|]. split; [rewrite Hres; apply strip_normalize|].
  split; [rewrite Hres; apply normalize_single_spaced|]. split.
  - intros c Hc. rewrite Hres in Hc. apply normalize_in in Hc.
    destruct Hc as [Hc|Hc]; [left|now right].
    now apply remove_inline_brackets_in in Hc.
  - now apply clean_line_plain_fixed with (line := line).
Qed.

Lemma lstrip_skip (p : char -> bool) (run s : str) :
  forallb p run = true -> stops p s -> lstrip_by p (run ++ s) = s.
Proof.
  intros Hrun Hs. induction run as [|x run IH]; [now apply lstrip_fixed|].
  cbn [forallb] in Hrun. apply andb_true_iff in Hrun. destruct Hrun as [Hx Hrun].
  cbn [app lstrip_by]. rewrite Hx. now apply IH.
Qed.

Lemma rstrip_skip (p : char -> bool) (s run : str) :
  forallb p run = true -> stops p (rev s) -> rstrip_by p (s ++ run) = s.
Proof.
  intros Hrun Hs. unfold rstrip_by. rewrite rev_app_distr, lstrip_skip.
  - apply rev_involutive.
  - rewrite forallb_forall in *. intros x Hx. apply Hrun. now apply in_rev.
  - assumption.
Qed.

Lemma solid_text_stops (body : str) :
  forallb (fun c => negb (isspace c)) body = true ->
  forall rest, body <> [] -> stops isspace (body ++ rest).
Proof.
  intros H rest Hne. destruct body as [|x body]; [congruence|].
  cbn [forallb] in H. apply andb_true_iff in H. destruct H as [Hx _].
  now apply negb_true_iff in Hx.
Qed.

Lemma solid_text_stops_rev (body : str) :
  forallb (fun c => negb (isspace c)) body = true -> stops isspace (rev body).
Proof.
  intros H.
  assert (Hr : forallb (fun c => negb (isspace c)) (rev body) = true).
  { rewrite forallb_forall in *. intros c Hc. apply H. now apply in_rev. }
  destruct (rev body) as [|x r]; [exact I|]. cbn [forallb] in Hr.
  apply andb_true_iff in Hr. destruct Hr as [Hx _]. now apply negb_true_iff in Hx.
Qed.

Lemma collapse_run (run rest : str) :
  forallb isspace run = true -> collapse true (run ++ rest) = collapse true rest.
Proof.
  intros H. induction run as [|x run IH]; [reflexivity|].
  cbn [forallb] in H. apply andb_true_iff in H. destruct H as [Hx H].
  cbn [app collapse]. rewrite Hx. now apply IH.
Qed.

Lemma collapse_text (body rest : str) :
  forallb (fun c => negb (isspace c)) body = true ->
  collapse false (body ++ rest) = body ++ collapse false rest.
Proof.
  intros H. induction body as [|x body IH]; [reflexivity|].
  cbn [forallb] in H. apply andb_true_iff in H. destruct H as [Hx H].
  apply negb_true_iff in Hx. cbn [app collapse]. rewrite Hx. now rewrite IH.
Qed.

Lemma collapse_spaces (run : str) :
  forallb isspace run = true -> forallb isspace (collapse false run) = true.
Proof.
  intros H. destruct run as [|x run]; [reflexivity|].
  cbn [forallb] in H. apply andb_true_iff in H. destruct H as [Hx H].
  cbn [collapse]. rewrite Hx. cbn [forallb]. rewrite isspace_space.
  replace run with (run ++ []) by apply app_nil_r.
  now rewrite collapse_run.
Qed.

Lemma normalize_word (lead body trail : str) :
  forallb isspace lead = true -> forallb isspace trail = true ->
  body <> [] -> forallb (fun c => negb (isspace c)) body = true ->
  normalize (lead ++ body ++ trail) = body.
Proof.
  intros Hlead Htrail Hne Hbody. unfold normalize, strip.
  assert (Hl : lstrip_by isspace (collapse false (lead ++ body ++ trail))
               = body ++ collapse false trail).
  { destruct lead as [|x lead].
    - cbn [app]. rewrite collapse_text by assumption.
      apply lstrip_fixed. now apply solid_text_stops.
    - cbn [forallb] in Hlead. apply andb_true_iff in Hlead.
      destruct Hlead as [Hx Hlead]. cbn [app collapse]. rewrite Hx.
      cbn [lstrip_by]. rewrite isspace_space, collapse_run by assumption.
      rewrite collapse_stops by now apply solid_text_stops.
      rewrite collapse_text by assumption.
      apply lstrip_fixed. now apply solid_text_stops. }
  rewrite Hl. apply rstrip_skip.
  - now apply collapse_spaces.
  - now apply solid_text_stops_rev.
Qed.

Lemma music_not_space (c : char) :
  mem c MUSIC_SYMBOLS = true -> isspace c = false.
Proof.
  intros H. apply mem_in in H. unfold MUSIC_SYMBOLS in H.
  repeat (destruct H as [<-|H]; [vm_compute; reflexivity|]). destruct H.
Qed.

Lemma only_music_split (line : str) :
  _only_music line = true ->
  exists lead trail,
    line = lead ++ strip line ++ trail
    /\ forallb isspace lead = true /\ forallb isspace trail = true
    /\ strip line <> []
    /\ forallb (fun c => mem c MUSIC_SYMBOLS) (strip line) = true.
Proof.
  intros H. unfold _only_music in H. cbv zeta in H.
  destruct (lstrip_split isspace line) as [lead [Hline Hlead]].
  destruct (rstrip_split isspace (lstrip_by isspace line)) as [trail [Hrest Htrail]].
  exists lead, trail. fold (strip line) in Hrest.
  split; [now rewrite <- Hrest|]. split; [assumption|]. split; [assumption|].
  destruct (strip line); [discriminate|]. split; [congruence|exact H].
Qed.

(** X13.  With [remove_if_only_music_symbols], a line that [_only_music]
    accepts, music symbols with whitespace around them only, is dropped by
    [clean_line], whatever the other options are. *)
Theorem music_only_line_dropped (line : str) (cfg : SDHConfig) :
  remove_if_only_music_symbols cfg = true ->
  _only_music line = true ->
  clean_line line cfg = None.
Proof.
  intros Hcfg Hmusic.
  destruct (only_music_split _ Hmusic) as [lead [trail [Hline [Hlead [Htrail [Hne Hbody]]]]]].
  assert (Hsolid : forallb (fun c => negb (isspace c)) (strip line) = true).
  { rewrite forallb_forall in *. intros c Hc. apply negb_true_iff.
    apply music_not_space. now apply Hbody. }
  assert (Hchars : forall c, In c line -> isspace c = true \/ mem c MUSIC_SYMBOLS = true).
  { intros c Hc. rewrite Hline in Hc. rewrite forallb_forall in *.
    apply in_app_or in Hc. destruct Hc as [Hc|Hc]; [left; now apply Hlead|].
    apply in_app_or in Hc. destruct Hc as [Hc|Hc]; [right; now apply Hbody|].
    left; now apply Htrail. }
  assert (Habsent : forall c, isspace c = false -> mem c MUSIC_SYMBOLS = false ->
                              ~ In c line).
  { intros c Hs Hm Hc. destruct (Hchars c Hc); congruence. }
  assert (Hplain : plain cfg line).
  { split; [split; [|split]|intros _]; apply Habsent; vm_compute; reflexivity. }
  rewrite (clean_line_plain Hplain). cbv zeta.
  destruct (_should_drop_line_for_brackets line cfg); [reflexivity|].
  rewrite remove_inline_brackets_fixed
    by (apply absent_unmatched; apply Habsent; vm_compute; reflexivity).
  rewrite Hline at 1. rewrite normalize_word by assumption.
  assert (Hm : _only_music (strip line) = true).
  { unfold _only_music in *. now rewrite strip_idem. }
  now rewrite Hcfg, Hm.
Qed.

Lemma rstrip_nl_trimmed (s : str) : stops isspace (rev s) -> rstrip_nl s = s.
Proof.
  intros H. unfold rstrip_nl, rstrip_by. rewrite lstrip_fixed.
  - apply rev_involutive.
  - destruct (rev s) as [|x r]; [exact I|]. unfold stops in *.
    destruct (char_eqb newline x) eqn:E; [|reflexivity].
    apply char_eqb_eq in E. subst x. vm_compute in H. discriminate.
Qed.

Lemma plain_rstrip_nl (cfg : SDHConfig) (line : str) :
  plain cfg line -> plain cfg (rstrip_nl line).
Proof.
  intros [[H1 [H2 H3]] H4]. unfold rstrip_nl.
  split; [split; [|split]|intros Hc; specialize (H4 Hc)];
    intros Hin; apply rstrip_in in Hin; contradiction.
Qed.

(** X14.  On lines without markup and without a speaker prefix,
    [sdh_to_full_lines] applied to its own result returns it unchanged. *)
Theorem sdh_to_full_lines_twice (lines : list str) (cfg : SDHConfig) :
  (forall line, In line lines -> plain cfg line) ->
  sdh_to_full_lines (sdh_to_full_lines lines cfg) cfg
  = sdh_to_full_lines lines cfg.
Proof.
  intros Hplain. rewrite (sdh_to_full_lines_kept (sdh_to_full_lines lines cfg)).
  apply flat_map_singletons. intros r Hr.
  rewrite sdh_to_full_lines_kept in Hr. apply in_flat_map in Hr.
  destruct Hr as [line [Hline Hr]]. apply kept_line_spec in Hr.
  destruct Hr as [Hclean Hne].
  pose proof (plain_rstrip_nl (Hplain line Hline)) as Hp.
  assert (Hres : r = normalize (_remove_inline_brackets (rstrip_nl line) cfg)).
  { pose proof Hclean as H. rewrite (clean_line_plain Hp) in H. cbv zeta in H.
    destruct (_should_drop_line_for_brackets (rstrip_nl line) cfg); [discriminate|].
    destruct (remove_if_only_music_symbols cfg && _); [discriminate|].
    now inversion H. }
  assert (Hnl : rstrip_nl r = r).
  { apply rstrip_nl_trimmed. rewrite Hres. apply strip_stops_rev. }
  rewrite Hnl. unfold kept_line.
  rewrite (clean_line_plain_fixed Hp Hclean).
  destruct r; [congruence|reflexivity].
Qed.

(** ** An option without effect *)

Lemma clean_line_colon_option (line : str) (cfg : SDHConfig) (b : bool) :
  clean_line line (with_colon_only_if_uppercase b cfg) = clean_line line cfg.
Proof.
  unfold clean_line.
  change (_should_drop_line_for_brackets line (with_colon_only_if_uppercase b cfg))
    with (_should_drop_line_for_brackets line cfg).
  destruct (_should_drop_line_for_brackets line cfg); [reflexivity|].
  destruct (shield line) as [shielded placeholders].
  change (_remove_inline_brackets shielded (with_colon_only_if_uppercase b cfg))
    with (_remove_inline_brackets shielded cfg).
  rewrite colon_only_if_uppercase_has_no_effect. reflexivity.
Qed.

Lemma sdh_to_full_blocks_colon_option (blocks : list SRTBlock) (cfg : SDHConfig)
    (b : bool) :
  sdh_to_full_blocks blocks (with_colon_only_if_uppercase b cfg)
  = sdh_to_full_blocks blocks cfg.
Proof.
  rewrite !sdh_to_full_blocks_kept. apply flat_map_ext. intros block.
  unfold kept_block.
  assert (E : flat_map (kept_line (with_colon_only_if_uppercase b cfg)) (texts block)
              = flat_map (kept_line cfg) (texts block)).
  { apply flat_map_ext. intros t. unfold kept_line.
    now rewrite clean_line_colon_option. }
  now rewrite E.
Qed.

(** X15.  The option [colon_only_if_uppercase] changes nothing: every
    character a speaker prefix can hold is its own upper case, so the test
    it guards never fails.  [clean_line] and [sdh_to_full_blocks] return the
    same for either value, and [main] writes the same text whether
    [--colon-only-if-uppercase], [--no-colon-only-if-uppercase] or neither is
    given. *)
Theorem colon_only_if_uppercase_ignored :
  (forall line cfg b,
      clean_line line (with_colon_only_if_uppercase b cfg) = clean_line line cfg)
  /\ (forall blocks cfg b,
        sdh_to_full_blocks blocks (with_colon_only_if_uppercase b cfg)
        = sdh_to_full_blocks blocks cfg)
  /\ (forall env args value text,
        main env (with_colon_option value args) text = main env args text).
Proof.
  split; [intros; apply clean_line_colon_option|].
  split; [intros; apply sdh_to_full_blocks_colon_option|].
  intros env args value text. unfold main.
  change (Namespace.preset (with_colon_option value args))
    with (Namespace.preset args).
  destruct (lookup (Namespace.preset args) PRESETS) as [cfg|]; [|reflexivity].
  cbn [bind].
  change (Namespace.input (with_colon_option value args))
    with (Namespace.input args).
  destruct (parse_srt (_read_lines (Namespace.input args) text)) as [blocks|];
    [|reflexivity].
  cbn [bind].
  change (Namespace.mode (with_colon_option value args)) with (Namespace.mode args).
  change (Namespace.output (with_colon_option value args))
    with (Namespace.output args).
  change (_apply_overrides cfg (with_colon_option value args))
    with (with_colon_only_if_uppercase
            (override value (colon_only_if_uppercase cfg))
            (_apply_overrides cfg args)).
  unfold run_mode.
  destruct (Namespace.mode args);
    now rewrite ?sdh_to_full_blocks_colon_option.
Qed.

End PlainLines.

(** ** The program on its own output *)

Lemma unbroken_chars (path : option string) (l x : str) :
  (forall c, In c x -> In c l \/ c = ch " ") ->
  unbroken path l = true -> unbroken path x = true.
Proof.
  intros Hsub Hl. destruct path as [p|]; cbn [unbroken] in *; unfold one_line in *;
    rewrite forallb_forall in *; intros c Hc;
    (destruct (Hsub c Hc) as [Hin| ->]; [now apply Hl|reflexivity]).
Qed.

Lemma one_line_unbroken (path : option string) (l : str) :
  one_line l = true -> unbroken path l = true.
Proof.
  intros H. destruct path; [exact H|]. now apply one_line_no_newline.
Qed.

Lemma unbroken_rstrip_nl (path : option string) (l : str) :
  unbroken path l = true -> unbroken path (rstrip_nl l) = true.
Proof.
  apply unbroken_chars. intros c Hc. left. unfold rstrip_nl in Hc.
  now apply rstrip_in in Hc.
Qed.

Lemma read_lines_written (lines : list str) (path : option string) :
  Forall (fun l => unbroken path l = true) lines ->
  _read_lines path (_write_lines lines) = lines.
Proof.
  intros H. destruct path as [p|]; cbn [_read_lines unbroken] in *.
  - unfold splitlines. induction H as [|l ls Hl _ IH]; [reflexivity|].
    rewrite write_lines_cons, split_from_line by assumption. now rewrite IH.
  - unfold iter_lines. induction H as [|l ls Hl _ IH]; [reflexivity|].
    rewrite write_lines_cons, iter_from_line by assumption.
    cbn [map app]. now rewrite IH, rstrip_nl_line.
Qed.

Lemma one_line_app (a b : str) :
  one_line (a ++ b) = one_line a && one_line b.
Proof. unfold one_line. apply forallb_app. Qed.

Lemma split_from_one_line (n : nat) :
  forall s cur,
    List.length s <= n -> one_line cur = true ->
    Forall (fun l => one_line l = true) (split_from s cur).
Proof.
  induction n as [|n IH]; intros s cur Hlen Hcur.
  - destruct s; [|simpl in Hlen; lia]. cbn [split_from].
    destruct cur; constructor; [assumption|constructor].
  - destruct s as [|c s]; [destruct cur; constructor; [assumption|constructor]|].
    cbn [List.length] in Hlen. cbn [split_from].
    destruct (is_linebreak c) eqn:Hc.
    + destruct (char_eqb c 13%N).
      * destruct s as [|d s'].
        -- constructor; [assumption|]. apply IH; [simpl; lia|reflexivity].
        -- destruct (char_eqb d 10%N); (constructor; [assumption|]);
             apply IH; cbn [List.length] in *; try lia; reflexivity.
      * constructor; [assumption|]. apply IH; [lia|reflexivity].
    + apply IH; [lia|]. rewrite one_line_app, Hcur. cbn [one_line forallb].
      now rewrite Hc.
Qed.

Lemma iter_from_unbroken (s : str) :
  forall cur,
    forallb (fun c => negb (char_eqb newline c)) cur = true ->
    Forall (fun l => forallb (fun c => negb (char_eqb newline c)) (rstrip_nl l) = true)
      (iter_from s cur).
Proof.
  induction s as [|c s IH]; intros cur Hcur.
  - cbn [iter_from]. destruct cur as [|x cur]; constructor; [|constructor].
    apply (@unbroken_rstrip_nl None). exact Hcur.
  - cbn [iter_from]. destruct (char_eqb c newline) eqn:Hc.
    + apply char_eqb_eq in Hc. subst c. constructor.
      * now rewrite rstrip_nl_line.
      * now apply IH.
    + apply IH. rewrite forallb_app, Hcur. cbn [forallb].
      destruct (char_eqb newline c) eqn:E; [|reflexivity].
      apply char_eqb_eq in E. subst c. unfold char_eqb in Hc.
      now rewrite N.eqb_refl in Hc.
Qed.

Lemma read_lines_unbroken (path : option string) (text : str) :
  Forall (fun l => unbroken path l = true) (_read_lines path text).
Proof.
  destruct path as [p|]; cbn [_read_lines unbroken].
  - apply split_from_one_line with (n := List.length text); [lia|reflexivity].
  - apply Forall_map. apply iter_from_unbroken. reflexivity.
Qed.

(** X4.  Lines are read as they were written: [_read_lines] gives back the
    lines whose text [_write_lines] wrote, when no line holds a line boundary
    of the stream read (the newline for standard input, any boundary of
    [splitlines] for a file).  The lines [_read_lines] returns are such
    lines, so writing them and reading again returns them. *)
Theorem read_lines_of_written (path : option string) :
  (forall lines,
      Forall (fun l => unbroken path l = true) lines ->
      _read_lines path (_write_lines lines) = lines)
  /\ (forall text,
        Forall (fun l => unbroken path l = true) (_read_lines path text)
        /\ _read_lines path (_write_lines (_read_lines path text))
           = _read_lines path text).
Proof.
  split; [intros lines; apply read_lines_written|]. intros text.
  split; [apply read_lines_unbroken|].
  apply read_lines_written, read_lines_unbroken.
Qed.

Lemma rstrip_nl_fixed (x : str) :
  forallb (fun c => negb (char_eqb newline c)) x = true -> rstrip_nl x = x.
Proof.
  intros Hx. unfold rstrip_nl, rstrip_by. rewrite lstrip_fixed.
  - apply rev_involutive.
  - assert (Hr : forallb (fun c => negb (char_eqb newline c)) (rev x) = true).
    { rewrite forallb_forall in *. intros c Hc. apply Hx. now apply in_rev. }
    destruct (rev x) as [|c r]; [exact I|]. cbn [forallb] in Hr.
    apply andb_true_iff in Hr. destruct Hr as [Hc _]. now apply negb_true_iff in Hc.
Qed.

Lemma iter_from_split_from (s : str) :
  forallb (fun c => negb (is_linebreak c) || char_eqb c newline) s = true ->
  forall cur,
    forallb (fun c => negb (char_eqb newline c)) cur = true ->
    map rstrip_nl (iter_from s cur) = split_from s cur.
Proof.
  induction s as [|c s IH]; intros Hs cur Hcur.
  - cbn [iter_from split_from]. destruct cur as [|x cur]; [reflexivity|].
    cbn [map]. now rewrite rstrip_nl_fixed.
  - cbn [forallb] in Hs. apply andb_true_iff in Hs. destruct Hs as [Hc Hs].
    cbn [iter_from split_from]. destruct (char_eqb c newline) eqn:E.
    + apply char_eqb_eq in E. subst c. rewrite newline_is_linebreak.
      replace (char_eqb newline 13%N) with false by reflexivity.
      cbn [map]. rewrite rstrip_nl_line by assumption. f_equal.
      now apply IH.
    + rewrite orb_false_r in Hc. apply negb_true_iff in Hc. rewrite Hc.
      apply IH; [assumption|]. rewrite forallb_app, Hcur. cbn [forallb].
      destruct (char_eqb newline c) eqn:E'; [|reflexivity].
      apply char_eqb_eq in E'. subst c. unfold char_eqb in E.
      now rewrite N.eqb_refl in E.
Qed.

(** X17.  A text whose only line boundaries are newlines is read into the
    same lines from standard input and from a file. *)
Theorem read_lines_same_from_both (text : str) (file : string) :
  forallb (fun c => negb (is_linebreak c) || char_eqb c newline) text = true ->
  _read_lines None text = _read_lines (Some file) text.
Proof.
  intros H. cbn [_read_lines]. unfold iter_lines, splitlines.
  now apply iter_from_split_from.
Qed.

Lemma filter_all (A : Type) (f : A -> bool) (l : list A) :
  (forall x, In x l -> f x = true) -> filter f l = l.
Proof.
  induction l as [|x l IH]; intros H; [reflexivity|]. cbn [filter].
  rewrite (H x (or_introl eq_refl)). f_equal. apply IH. intros y Hy. apply H.
  now right.
Qed.

Lemma written_lines (entries : list SRTBlock) :
  forall s s',
    flat_map (entry_lines true)
      (combine (seq s (List.length entries))
         (map (written true) (combine (seq s' (List.length entries)) entries)))
    = flat_map (entry_lines true) (combine (seq s (List.length entries)) entries).
Proof.
  induction entries as [|b entries IH]; intros s s'; [reflexivity|].
  cbn [List.length seq combine map flat_map]. rewrite IH. reflexivity.
Qed.

Lemma written_in (entries : list SRTBlock) (x : SRTBlock) (s : nat) :
  In x (map (written true) (combine (seq s (List.length entries)) entries)) ->
  exists k b, x = written true (k, b) /\ In b entries.
Proof.
  intros H. apply in_map_iff in H. destruct H as [[k b] [Hx Hin]].
  exists k, b. split; [now symmetry|]. now apply in_combine_r in Hin.
Qed.

Lemma format_srt_written (blocks : list SRTBlock) :
  format_srt (map (written true) (numbered_from 1 blocks)) true
  = format_srt blocks true.
Proof.
  rewrite !format_srt_entries. unfold numbered_from at 1 3.
  set (entries := emitted blocks).
  set (X := map (written true) (numbered_from 1 blocks)).
  assert (HX : emitted X = X).
  { apply filter_all. intros x Hx. unfold X, numbered_from in Hx.
    apply written_in in Hx. destruct Hx as [k [b [-> Hb]]].
    pose proof (emitted_have_texts blocks) as H. rewrite Forall_forall in H.
    specialize (H b Hb). unfold has_texts. cbn [written texts].
    destruct (texts b); [congruence|reflexivity]. }
  rewrite HX. unfold X, numbered_from. fold entries.
  assert (Hlen : List.length
                   (map (written true) (combine (seq 1 (List.length entries)) entries))
                 = List.length entries).
  { rewrite length_map, length_combine, length_seq. apply Nat.min_id. }
  rewrite Hlen. apply written_lines.
Qed.

Section Program.
Context {U : UnicodeData}.

Lemma round_trip_through_text (path : option string) (result : list SRTBlock) :
  Forall (sound path) (emitted result) ->
  parse_srt (_read_lines path (_write_lines (format_srt result true)))
  = Some (map (written true) (numbered_from 1 result)).
Proof.
  intros H. rewrite read_lines_written.
  - apply parse_format_round_trip_general. apply Forall_forall. intros b Hb.
    rewrite Forall_forall in H. destruct (H b Hb) as [Ht [Hts _]].
    split; [assumption|]. split; [assumption|discriminate].
  - rewrite format_srt_entries. apply Forall_forall. intros l Hl.
    apply in_flat_map in Hl. destruct Hl as [[k b] [Hkb Hl]].
    unfold numbered_from in Hkb. apply in_combine_r in Hkb.
    rewrite Forall_forall in H. destruct (H b Hkb) as [_ [_ [Hu Hus]]].
    cbn [entry_lines index_line] in Hl. destruct Hl as [<-|[<-|Hl]].
    + apply one_line_unbroken. apply uint_digits_text.
    + assumption.
    + apply in_app_or in Hl. destruct Hl as [Hl|[<-|[]]].
      * rewrite Forall_forall in Hus. now apply Hus.
      * now destruct path.
Qed.

Lemma parsed_sound (path : option string) (text : str) (blocks : list SRTBlock) :
  parse_srt (_read_lines path text) = Some blocks ->
  Forall (fun b => index b <> []) blocks ->
  Forall (sound path) blocks.
Proof.
  intros Hparse Hidx. apply Forall_forall. intros b Hb.
  pose proof (parse_srt_good _ Hparse) as Hgood.
  rewrite Forall_forall in Hgood, Hidx. specialize (Hgood b Hb).
  specialize (Hidx b Hb). destruct Hgood as [buffer [_ [_ [Hlay Hin]]]].
  destruct Hlay as [[_ [Hnil _]]|Hbuf]; [contradiction|]. subst buffer.
  inversion Hin as [|x xs Hx Hrest]; subst.
  inversion Hrest as [|y ys Hy Htexts]; subst.
  assert (Hline : forall z, input_line (_read_lines path text) z ->
                            solid z /\ unbroken path z = true).
  { intros z Hz. split; [now apply input_line_solid with (lines := _read_lines path text)|].
    destruct Hz as [l [Hl [_ ->]]]. apply unbroken_rstrip_nl.
    pose proof (read_lines_unbroken path text) as Hu.
    rewrite Forall_forall in Hu. now apply Hu. }
  rewrite Forall_forall in Htexts.
  split; [now apply Hline|]. split.
  - apply Forall_forall. intros t Ht. now apply Hline, Htexts.
  - split; [now apply Hline|]. apply Forall_forall. intros t Ht.
    now apply Hline, Htexts.
Qed.

Lemma cleaned_plain_line (path : option string) (cfg : SDHConfig) (text t : str) :
  plain cfg text -> clean_line text cfg = Some t -> t <> [] ->
  unbroken path text = true ->
  solid t /\ unbroken path t = true /\ clean_line t cfg = Some t.
Proof.
  intros Hplain Hclean Hne Hu.
  assert (Hres : t = normalize (_remove_inline_brackets text cfg)).
  { pose proof Hclean as H. rewrite (clean_line_plain Hplain) in H. cbv zeta in H.
    destruct (_should_drop_line_for_brackets text cfg); [discriminate|].
    destruct (remove_if_only_music_symbols cfg && _); [discriminate|].
    now inversion H. }
  split; [|split].
  - split.
    + unfold is_blank. rewrite Hres, strip_normalize, <- Hres.
      destruct t; [congruence|reflexivity].
    + apply rstrip_nl_trimmed. rewrite Hres. apply strip_stops_rev.
  - apply unbroken_chars with (l := text); [|assumption].
    intros c Hc. rewrite Hres in Hc. apply normalize_in in Hc.
    destruct Hc as [Hc|Hc]; [left|now right].
    now apply remove_inline_brackets_in in Hc.
  - now apply clean_line_plain_fixed with (line := text).
Qed.

Lemma cleaned_sound (path : option string) (cfg : SDHConfig)
    (blocks : list SRTBlock) (b : SRTBlock) :
  Forall (sound path) blocks ->
  (forall block t, In block blocks -> In t (texts block) -> plain cfg t) ->
  In b (sdh_to_full_blocks blocks cfg) ->
  sound path b /\ texts b <> []
  /\ (forall t, In t (texts b) -> t <> [] /\ clean_line t cfg = Some t).
Proof.
  intros Hsound Hplain Hb. pose proof Hb as Hb'.
  rewrite sdh_to_full_blocks_kept in Hb'. apply in_flat_map in Hb'.
  destruct Hb' as [block [Hblock Hkept]].
  destruct (kept_block_texts _ _ _ Hkept) as [_ [Htm [Htexts Hne]]].
  rewrite Forall_forall in Hsound.
  destruct (Hsound block Hblock) as [Hs [Hss [Hu Hus]]].
  assert (Hline : forall t, In t (texts b) ->
                            solid t /\ unbroken path t = true
                            /\ clean_line t cfg = Some t /\ t <> []).
  { intros t Ht. rewrite Htexts in Ht. apply in_flat_map in Ht.
    destruct Ht as [text [Htext Ht]]. apply kept_line_spec in Ht.
    destruct Ht as [Hclean Hnil]. rewrite Forall_forall in Hus.
    destruct (@cleaned_plain_line path cfg text t) as [H1 [H2 H3]];
      try assumption; [now apply Hplain with (block := block)|now apply Hus|].
    tauto. }
  split; [|split; [assumption|]].
  - split; [now rewrite Htm|]. split.
    + apply Forall_forall. intros t Ht. now apply Hline.
    + split; [now rewrite Htm|]. apply Forall_forall. intros t Ht. now apply Hline.
  - intros t Ht. destruct (Hline t Ht) as [_ [_ [H3 H4]]]. now split.
Qed.

Lemma result_blocks_sound (path : option string) (m : mode) (cfg : SDHConfig)
    (blocks : list SRTBlock) :
  Forall (sound path) blocks ->
  (m <> full_to_forced ->
   forall block t, In block blocks -> In t (texts block) -> plain cfg t) ->
  Forall (sound path) (result_blocks m blocks cfg).
Proof.
  intros Hsound Hplain. apply Forall_forall. intros b Hb.
  destruct m; cbn [result_blocks] in Hb.
  - apply (@cleaned_sound path cfg blocks b); try assumption.
    apply Hplain. discriminate.
  - rewrite full_to_forced_blocks_filter in Hb. apply filter_In in Hb.
    rewrite Forall_forall in Hsound. now apply Hsound.
  - cbv zeta in Hb. rewrite full_to_forced_blocks_filter in Hb.
    apply filter_In in Hb. destruct Hb as [Hb _].
    apply (@cleaned_sound path cfg blocks b); try assumption.
    apply Hplain. discriminate.
Qed.

Lemma sdh_to_full_blocks_settled (cfg : SDHConfig) (entries : list SRTBlock) :
  (forall b, In b entries ->
             texts b <> []
             /\ forall t, In t (texts b) -> t <> [] /\ clean_line t cfg = Some t) ->
  sdh_to_full_blocks entries cfg = entries.
Proof.
  intros H. rewrite sdh_to_full_blocks_kept. apply flat_map_singletons.
  intros b Hb. destruct (H b Hb) as [Hne Hts].
  now apply kept_block_fixed_intro.
Qed.

Lemma result_blocks_settled (m : mode) (cfg : SDHConfig) (blocks : list SRTBlock) :
  (m <> full_to_forced ->
   forall block t, In block blocks -> In t (texts block) -> plain cfg t) ->
  result_blocks m (map (written true) (numbered_from 1 (result_blocks m blocks cfg))) cfg
  = map (written true) (numbered_from 1 (result_blocks m blocks cfg)).
Proof.
  intros Hplain.
  set (result := result_blocks m blocks cfg).
  set (X := map (written true) (numbered_from 1 result)).
  assert (HX : forall x, In x X ->
               exists k b, x = written true (k, b) /\ In b result).
  { intros x Hx. unfold X, numbered_from in Hx. apply written_in in Hx.
    destruct Hx as [k [b [Hx Hb]]]. exists k, b. split; [assumption|].
    apply filter_In in Hb. tauto. }
  assert (Hclean : m <> full_to_forced ->
                   forall b, In b (sdh_to_full_blocks blocks cfg) ->
                     texts b <> []
                     /\ forall t, In t (texts b) ->
                                  t <> [] /\ clean_line t cfg = Some t).
  { intros Hm b Hb. pose proof Hb as Hb'.
    rewrite sdh_to_full_blocks_kept in Hb'. apply in_flat_map in Hb'.
    destruct Hb' as [block [Hblock Hkept]].
    destruct (kept_block_texts _ _ _ Hkept) as [_ [_ [Htexts Hne]]].
    split; [assumption|]. intros t Ht. rewrite Htexts in Ht.
    apply in_flat_map in Ht. destruct Ht as [text [Htext Ht]].
    apply kept_line_spec in Ht. destruct Ht as [Hc Hnil]. split; [assumption|].
    apply clean_line_plain_fixed with (line := text); [|assumption].
    now apply (Hplain Hm block). }
  destruct m; cbn [result_blocks] in *.
  - apply sdh_to_full_blocks_settled. intros x Hx.
    destruct (HX x Hx) as [k [b [-> Hb]]]. cbn [written texts].
    apply Hclean; [discriminate|assumption].
  - rewrite full_to_forced_blocks_filter. apply filter_all. intros x Hx.
    destruct (HX x Hx) as [k [b [-> Hb]]]. unfold result in Hb.
    rewrite full_to_forced_blocks_filter in Hb. apply filter_In in Hb.
    destruct Hb as [_ Hb]. exact Hb.
  - cbv zeta. rewrite sdh_to_full_blocks_settled.
    + rewrite full_to_forced_blocks_filter. apply filter_all. intros x Hx.
      destruct (HX x Hx) as [k [b [-> Hb]]]. unfold result in Hb. cbv zeta in Hb.
      rewrite full_to_forced_blocks_filter in Hb. apply filter_In in Hb.
      destruct Hb as [_ Hb]. exact Hb.
    + intros x Hx. destruct (HX x Hx) as [k [b [-> Hb]]]. cbn [written texts].
      unfold result in Hb. cbv zeta in Hb.
      rewrite full_to_forced_blocks_filter in Hb. apply filter_In in Hb.
      destruct Hb as [Hb _]. apply Hclean; [discriminate|assumption].
Qed.

Lemma uint_digits_in (d : Decimal.uint) (c : char) :
  In c (uint_digits d) -> In c (py "0123456789").
Proof.
  induction d; cbn [uint_digits]; intros H; try (destruct H; fail);
    (destruct H as [<-|H]; [vm_compute; tauto|now apply IHd]).
Qed.

Lemma forallb_chars (P : char -> bool) (l x : str) :
  (forall c, In c x -> In c l \/ c = ch " ") -> P (ch " ") = true ->
  forallb P l = true -> forallb P x = true.
Proof.
  rewrite !forallb_forall. intros Hsub Hsp Hl c Hc.
  destruct (Hsub c Hc) as [Hin| ->]; [now apply Hl|assumption].
Qed.

Lemma forallb_rstrip_nl (P : char -> bool) (l : str) :
  forallb P l = true -> forallb P (rstrip_nl l) = true.
Proof.
  rewrite !forallb_forall. intros H c Hc. apply H. unfold rstrip_nl in Hc.
  now apply rstrip_in in Hc.
Qed.

Lemma split_from_made (P : char -> bool) (n : nat) :
  forall s cur,
    List.length s <= n -> forallb P s = true -> forallb P cur = true ->
    Forall (fun l => forallb P l = true) (split_from s cur).
Proof.
  induction n as [|n IH]; intros s cur Hlen Hs Hcur.
  - destruct s; [|simpl in Hlen; lia]. cbn [split_from].
    destruct cur; constructor; [assumption|constructor].
  - destruct s as [|c s]; [destruct cur; constructor; [assumption|constructor]|].
    cbn [List.length] in Hlen. cbn [forallb] in Hs.
    apply andb_true_iff in Hs. destruct Hs as [Hc Hs]. cbn [split_from].
    destruct (is_linebreak c).
    + destruct (char_eqb c 13%N).
      * destruct s as [|d s'].
        -- constructor; [assumption|]. apply IH; [simpl; lia|reflexivity|reflexivity].
        -- cbn [forallb] in Hs. apply andb_true_iff in Hs. destruct Hs as [Hd Hs'].
           destruct (char_eqb d 10%N); (constructor; [assumption|]);
             apply IH; cbn [List.length forallb] in *; try lia; try reflexivity;
             try assumption. now rewrite Hd, Hs'.
      * constructor; [assumption|]. apply IH; [lia|assumption|reflexivity].
    + apply IH; [lia|assumption|]. rewrite forallb_app, Hcur. cbn [forallb].
      now rewrite Hc.
Qed.

Lemma iter_from_made (P : char -> bool) (s : str) :
  forall cur,
    forallb P s = true -> forallb P cur = true ->
    Forall (fun l => forallb P (rstrip_nl l) = true) (iter_from s cur).
Proof.
  induction s as [|c s IH]; intros cur Hs Hcur.
  - cbn [iter_from]. destruct cur as [|x cur]; constructor; [|constructor].
    now apply forallb_rstrip_nl.
  - cbn [forallb] in Hs. apply andb_true_iff in Hs. destruct Hs as [Hc Hs].
    assert (Hcur' : forallb P (cur ++ [c]) = true).
    { rewrite forallb_app, Hcur. cbn [forallb]. now rewrite Hc. }
    cbn [iter_from]. destruct (char_eqb c newline).
    + constructor; [now apply forallb_rstrip_nl|]. now apply IH.
    + now apply IH.
Qed.

Lemma read_lines_made (P : char -> bool) (path : option string) (text : str) :
  forallb P text = true ->
  Forall (fun l => forallb P l = true) (_read_lines path text).
Proof.
  intros H. destruct path as [p|]; cbn [_read_lines].
  - apply split_from_made with (n := List.length text);
      [lia|assumption|reflexivity].
  - apply Forall_map. now apply iter_from_made.
Qed.

Lemma parsed_made (P : char -> bool) (lines : list str) (blocks : list SRTBlock) :
  parse_srt lines = Some blocks ->
  Forall (fun l => forallb P l = true) lines ->
  Forall (made_of P) blocks.
Proof.
  intros Hparse Hlines. apply Forall_forall. intros b Hb.
  pose proof (parse_srt_good _ Hparse) as Hgood.
  rewrite Forall_forall in Hgood, Hlines.
  destruct (Hgood b Hb) as [buffer [_ [_ [Hlay Hin]]]].
  assert (Hbuf : Forall (fun x => forallb P x = true) buffer).
  { eapply Forall_impl; [|exact Hin]. intros x [l [Hl [_ ->]]].
    apply forallb_rstrip_nl. now apply Hlines. }
  destruct Hlay as [[Htexts [_ [Htm _]]]|Hbuf'].
  - split; [now rewrite Htm|]. now rewrite <- Htexts.
  - rewrite Hbuf' in Hbuf. inversion Hbuf as [|x xs _ Hrest]; subst.
    inversion Hrest as [|y ys Hy Htexts]; subst. now split.
Qed.

Lemma cleaned_made (P : char -> bool) (cfg : SDHConfig) (blocks : list SRTBlock)
    (b : SRTBlock) :
  P (ch " ") = true ->
  Forall (made_of P) blocks ->
  (forall block t, In block blocks -> In t (texts block) -> plain cfg t) ->
  In b (sdh_to_full_blocks blocks cfg) -> made_of P b.
Proof.
  intros Hsp Hmade Hplain Hb. rewrite sdh_to_full_blocks_kept in Hb.
  apply in_flat_map in Hb. destruct Hb as [block [Hblock Hkept]].
  destruct (kept_block_texts _ _ _ Hkept) as [_ [Htm [Htexts _]]].
  rewrite Forall_forall in Hmade. destruct (Hmade block Hblock) as [Ht Hts].
  split; [now rewrite Htm|]. apply Forall_forall. intros t Hin.
  rewrite Htexts in Hin. apply in_flat_map in Hin.
  destruct Hin as [text [Htext Hin]]. apply kept_line_spec in Hin.
  destruct Hin as [Hclean _]. rewrite Forall_forall in Hts.
  pose proof (Hplain block text Hblock Htext) as Hp.
  rewrite (clean_line_plain Hp) in Hclean. cbv zeta in Hclean.
  destruct (_should_drop_line_for_brackets text cfg); [discriminate|].
  destruct (remove_if_only_music_symbols cfg && _); [discriminate|].
  inversion Hclean; subst t.
  apply (@forallb_chars P text); [|assumption|now apply Hts].
  intros c Hc. apply normalize_in in Hc. destruct Hc as [Hc|Hc]; [left|now right].
  now apply remove_inline_brackets_in in Hc.
Qed.

Lemma result_blocks_made (P : char -> bool) (m : mode) (cfg : SDHConfig)
    (blocks : list SRTBlock) :
  P (ch " ") = true ->
  Forall (made_of P) blocks ->
  (m <> full_to_forced ->
   forall block t, In block blocks -> In t (texts block) -> plain cfg t) ->
  Forall (made_of P) (result_blocks m blocks cfg).
Proof.
  intros Hsp Hmade Hplain. apply Forall_forall. intros b Hb.
  destruct m; cbn [result_blocks] in Hb.
  - apply (@cleaned_made P cfg blocks b); try assumption.
    apply Hplain. discriminate.
  - rewrite full_to_forced_blocks_filter in Hb. apply filter_In in Hb.
    rewrite Forall_forall in Hmade. now apply Hmade.
  - cbv zeta in Hb. rewrite full_to_forced_blocks_filter in Hb.
    apply filter_In in Hb. destruct Hb as [Hb _].
    apply (@cleaned_made P cfg blocks b); try assumption.
    apply Hplain. discriminate.
Qed.

Lemma format_srt_made (P : char -> bool) (blocks : list SRTBlock) :
  forallb P (py "0123456789") = true ->
  Forall (made_of P) blocks ->
  Forall (fun l => forallb P l = true) (format_srt blocks true).
Proof.
  intros Hdigits Hmade. rewrite format_srt_entries. apply Forall_forall.
  intros l Hl. apply in_flat_map in Hl. destruct Hl as [[k b] [Hkb Hl]].
  unfold numbered_from in Hkb. apply in_combine_r in Hkb.
  apply filter_In in Hkb. destruct Hkb as [Hb _].
  rewrite Forall_forall in Hmade. destruct (Hmade b Hb) as [Ht Hts].
  cbn [entry_lines index_line] in Hl. destruct Hl as [<-|[<-|Hl]].
  - apply forallb_forall. intros c Hc. unfold str_of_nat in Hc.
    apply uint_digits_in in Hc. rewrite forallb_forall in Hdigits.
    now apply Hdigits.
  - assumption.
  - apply in_app_or in Hl. destruct Hl as [Hl|[<-|[]]]; [|reflexivity].
    rewrite Forall_forall in Hts. now apply Hts.
Qed.

Lemma write_lines_made (P : char -> bool) (lines : list str) :
  P newline = true ->
  Forall (fun l => forallb P l = true) lines ->
  forallb P (_write_lines lines) = true.
Proof.
  intros Hnl H. induction H as [|l ls Hl _ IH]; [reflexivity|].
  rewrite write_lines_cons, forallb_app, Hl. cbn [forallb].
  now rewrite Hnl, IH.
Qed.

(** X16.  The program applied to its own output writes it again unchanged.
    For a known preset, an input all of whose entries have two lines or more
    and, in the two modes that clean, text lines without markup and without
    a speaker prefix, and an output stream that can be opened and can encode
    every character of the input, the digits, the space and the newline (a
    file is written as UTF-8, which encodes all but the surrogates): [main]
    writes a text, and [main] with the same arguments on that text writes the
    same text. *)
Theorem main_twice (env : Env) (args : Namespace.t) (text : str)
    (cfg : SDHConfig) (blocks : list SRTBlock) :
  lookup (Namespace.preset args) PRESETS = Some cfg ->
  parse_srt (_read_lines (Namespace.input args) text) = Some blocks ->
  Forall (fun b => index b <> []) blocks ->
  (Namespace.mode args <> full_to_forced ->
   forall block t, In block blocks -> In t (texts block) ->
                   plain (_apply_overrides cfg args) t) ->
  accepts env (Namespace.output args) (text ++ py "0123456789 " ++ [newline])
  = true ->
  exists out, main env args text = Some out /\ main env args out = Some out.
Proof.
  intros Hpreset Hparse Hidx Hplain Hacc.
  set (cfg' := _apply_overrides cfg args) in *.
  set (m := Namespace.mode args) in *.
  set (path := Namespace.input args) in *.
  set (target := Namespace.output args) in *.
  set (result := result_blocks m blocks cfg').
  set (out := _write_lines (format_srt result true)).
  unfold accepts in Hacc. apply andb_true_iff in Hacc.
  destruct Hacc as [Hopen Hchars]. rewrite forallb_app in Hchars.
  apply andb_true_iff in Hchars. destruct Hchars as [Htext Hascii].
  rewrite forallb_app in Hascii. apply andb_true_iff in Hascii.
  destruct Hascii as [Hprint Hnl]. cbn [forallb] in Hnl.
  rewrite andb_true_r in Hnl.
  assert (Hsp : encodes env target (ch " ") = true).
  { rewrite forallb_forall in Hprint. apply Hprint. vm_compute. tauto. }
  assert (Hdigits : forallb (encodes env target) (py "0123456789") = true).
  { rewrite forallb_forall in *. intros c Hc. apply Hprint.
    vm_compute in Hc. vm_compute. tauto. }
  assert (Hout : accepts env target out = true).
  { unfold accepts. rewrite Hopen. cbn [andb]. unfold out.
    apply write_lines_made; [assumption|].
    apply format_srt_made; [assumption|].
    apply result_blocks_made; [assumption| |assumption].
    apply (parsed_made _ Hparse). now apply read_lines_made. }
  exists out.
  assert (Hrun : forall bs, run_mode m bs cfg' = format_srt (result_blocks m bs cfg') true).
  { intros bs. unfold run_mode. now destruct m. }
  unfold main, _write_lines_to. fold m path target. rewrite Hpreset.
  cbn [bind]. fold cfg'. cbv zeta. split.
  - rewrite Hparse. cbn [bind]. rewrite Hrun. fold result. fold out.
    now rewrite Hout.
  - unfold out at 1. rewrite round_trip_through_text.
    + cbn [bind]. rewrite Hrun. unfold result.
      rewrite (@result_blocks_settled m cfg' blocks Hplain).
      rewrite format_srt_written. fold result. fold out. now rewrite Hout.
    + apply Forall_forall. intros b Hb. apply filter_In in Hb. destruct Hb as [Hb _].
      pose proof (@result_blocks_sound path m cfg' blocks
                    (@parsed_sound path text blocks Hparse Hidx) Hplain) as Hs.
      rewrite Forall_forall in Hs. now apply Hs.
Qed.

End Program.

(** ** Presets *)

Lemma known_presets (name : string) (cfg : SDHConfig) :
  lookup name PRESETS = Some cfg ->
  cfg = default_config \/ cfg = conservative_config.
Proof.
  unfold PRESETS. cbn [lookup].
  destruct (String.eqb name "aggressive"); [intros H; left; congruence|].
  destruct (String.eqb name "netflix"); [intros H; left; congruence|].
  destruct (String.eqb name "conservative"); [intros H; right; congruence|].
  discriminate.
Qed.

(** X18.  The presets differ in [between_only_if_separate_line] only: when
    that option is given on the command line, [_apply_overrides] returns the
    same configuration for every preset of [PRESETS]. *)
Theorem presets_differ_in_one_option (name name' : string) (cfg cfg' : SDHConfig)
    (args : Namespace.t) (value : bool) :
  lookup name PRESETS = Some cfg ->
  lookup name' PRESETS = Some cfg' ->
  Namespace.between_only_if_separate_line args = Some value ->
  _apply_overrides cfg args = _apply_overrides cfg' args.
Proof.
  intros H H' Hopt. unfold _apply_overrides. rewrite Hopt.
  destruct (known_presets _ H) as [-> | ->];
    destruct (known_presets _ H') as [-> | ->]; reflexivity.
Qed.

(** ** Runs *)

Section Runs.
#[local] Existing Instance latin1_only.

Lemma parse_format_round_trip_run :
  let entry := {| index := py "7"; timing := py "00:00:01,000 --> 00:00:02,000";
                  texts := [py "Hello there"; py "- Hi"] |} in
  let silent := {| index := py "8"; timing := py "00:00:03,000 --> 00:00:04,000";
                   texts := [] |} in
  parse_srt (format_srt [silent; entry] false) = Some [entry]
  /\ parse_srt (format_srt [silent; entry] true)
     = Some [{| index := py "1"; timing := timing entry; texts := texts entry |}].
Proof.
  intros entry silent.
  assert (H : forall r, Forall (readable r) (emitted [silent; entry])).
  { intros r. constructor; [|constructor]. split; [|split].
    - split; vm_compute; reflexivity.
    - repeat constructor; vm_compute; reflexivity.
    - intros _ _. split; vm_compute; reflexivity. }
  split.
  - exact (@parse_format_round_trip [silent; entry] false (H false)).
  - exact (@parse_format_round_trip [silent; entry] true (H true)).
Defined.

Lemma parse_format_of_parsed_run :
  let lines := [py "7"; py "00:00:01,000 --> 00:00:02,000"; py "Hello there"; [];
                py "9"; py "00:00:03,000 --> 00:00:04,000"] in
  let blocks := [{| index := py "7"; timing := py "00:00:01,000 --> 00:00:02,000";
                    texts := [py "Hello there"] |};
                 {| index := py "9"; timing := py "00:00:03,000 --> 00:00:04,000";
                    texts := [] |}] in
  parse_srt lines = Some blocks
  /\ parse_srt (format_srt blocks false) = Some (emitted blocks).
Proof.
  intros lines blocks.
  assert (Hparse : parse_srt lines = Some blocks) by (vm_compute; reflexivity).
  split; [exact Hparse|].
  apply (proj1 (@parse_format_of_parsed lines blocks Hparse
                  ltac:(repeat constructor; discriminate))).
Defined.

Lemma parse_srt_blank_separates_run :
  is_blank (py "  ") = true
  /\ exists first second,
       parse_srt [py "1"; py "a --> b"; py "Hello"] = Some first
       /\ parse_srt [py "2"; py "c --> d"; py "Bye"] = Some second
       /\ parse_srt ([py "1"; py "a --> b"; py "Hello"]
                       ++ py "  " :: [py "2"; py "c --> d"; py "Bye"])
          = Some (first ++ second).
Proof.
  split; [reflexivity|].
  apply (@parse_srt_blank_separates [py "1"; py "a --> b"; py "Hello"]
           [py "2"; py "c --> d"; py "Bye"] (py "  ")).
  reflexivity.
Defined.

Lemma clean_line_plain_result_run :
  let line := py "[door]  Hello   there " in
  clean_line line default_config = Some (py "Hello there")
  /\ clean_line (py "Hello there") default_config = Some (py "Hello there").
Proof.
  intros line.
  assert (Hclean : clean_line line default_config = Some (py "Hello there"))
    by (vm_compute; reflexivity).
  split; [exact Hclean|].
  refine (proj2 (proj2 (proj2 (proj2
            (@clean_line_plain_result latin1_only line (py "Hello there")
               default_config _ Hclean))))).
  split; [repeat split|intros _]; intros H; vm_compute in H;
    repeat (destruct H as [H|H]; [discriminate H|]); exact H.
Defined.

Lemma music_only_line_dropped_run :
  _only_music [32; 9834; 9835; 32]%N = true
  /\ clean_line [32; 9834; 9835; 32]%N conservative_config = None.
Proof.
  split; [vm_compute; reflexivity|].
  apply (@music_only_line_dropped latin1_only [32; 9834; 9835; 32]%N
           conservative_config); vm_compute; reflexivity.
Defined.

Lemma sdh_to_full_lines_twice_run :
  let lines := [py "[door] Hello  there"; py "(sighs)"; py "Bye."] in
  sdh_to_full_lines lines default_config = [py "Hello there"; py "Bye."]
  /\ sdh_to_full_lines (sdh_to_full_lines lines default_config) default_config
     = sdh_to_full_lines lines default_config.
Proof.
  intros lines. split; [vm_compute; reflexivity|].
  apply (@sdh_to_full_lines_twice latin1_only lines default_config).
  intros line Hline.
  repeat (destruct Hline as [<-|Hline];
          [split; [repeat split|intros _]; intros H; vm_compute in H;
           repeat (destruct H as [H|H]; [discriminate H|]); exact H|]).
  destruct Hline.
Defined.

Lemma main_twice_run :
  let env := {| opens := fun _ => true;
                stdout_encodes := fun c => N.leb c 127 |} in
  let args := {| Namespace.mode := sdh_to_forced;
                 Namespace.preset := "conservative";
                 Namespace.input := None;
                 Namespace.output := Some "out.srt"%string;
                 Namespace.remove_between_square := None;
                 Namespace.remove_between_paren := None;
                 Namespace.between_only_if_separate_line := Some false;
                 Namespace.remove_text_before_colon := None;
                 Namespace.colon_only_if_uppercase := None;
                 Namespace.remove_if_only_music_symbols := None |} in
  let text := _write_lines [py "4"; py "00:00:01,000 --> 00:00:02,000";
                            py "[door]  HELLO   THERE"; [];
                            py "5"; py "00:00:03,000 --> 00:00:04,000";
                            py "hello"] in
  exists out, main env args text = Some out /\ main env args out = Some out.
Proof.
  intros env args text.
  apply (@main_twice latin1_only env args text conservative_config
           [{| index := py "4"; timing := py "00:00:01,000 --> 00:00:02,000";
               texts := [py "[door]  HELLO   THERE"] |};
            {| index := py "5"; timing := py "00:00:03,000 --> 00:00:04,000";
               texts := [py "hello"] |}]).
  - reflexivity.
  - vm_compute. reflexivity.
  - repeat constructor; discriminate.
  - intros _ block t Hblock Ht.
    repeat (destruct Hblock as [<-|Hblock];
            [destruct Ht as [<-|[]];
             split; [repeat split|intros _]; intros H; vm_compute in H;
             repeat (destruct H as [H|H]; [discriminate H|]); exact H|]).
    destruct Hblock.
  - vm_compute. reflexivity.
Defined.

(** The write can fail: a lone surrogate, which standard input delivers under
    the [surrogateescape] error handler, cannot be written to a file. *)
Example main_unencodable_output :
  let env := {| opens := fun _ => true; stdout_encodes := fun _ => true |} in
  let args := {| Namespace.mode := sdh_to_full;
                 Namespace.preset := "aggressive";
                 Namespace.input := None;
                 Namespace.output := Some "out.srt"%string;
                 Namespace.remove_between_square := None;
                 Namespace.remove_between_paren := None;
                 Namespace.between_only_if_separate_line := None;
                 Namespace.remove_text_before_colon := None;
                 Namespace.colon_only_if_uppercase := None;
                 Namespace.remove_if_only_music_symbols := None |} in
  let text := _write_lines [py "1"; py "t"; py "caf" ++ [56553%N]; []] in
  main env args text = None
  /\ main env (with_output None args) text = Some text.
Proof. split; vm_compute; reflexivity. Qed.

Lemma read_lines_same_from_both_run :
  _read_lines None (py "a" ++ [newline] ++ py "b" ++ [newline])
  = _read_lines (Some "in.srt"%string) (py "a" ++ [newline] ++ py "b" ++ [newline]).
Proof.
  apply (@read_lines_same_from_both (py "a" ++ [newline] ++ py "b" ++ [newline])
           "in.srt"%string).
  vm_compute. reflexivity.
Defined.

Lemma presets_differ_in_one_option_run :
  let args := {| Namespace.mode := sdh_to_full;
                 Namespace.preset := "netflix";
                 Namespace.input := None;
                 Namespace.output := None;
                 Namespace.remove_between_square := None;
                 Namespace.remove_between_paren := Some false;
                 Namespace.between_only_if_separate_line := Some true;
                 Namespace.remove_text_before_colon := None;
                 Namespace.colon_only_if_uppercase := None;
                 Namespace.remove_if_only_music_symbols := None |} in
  _apply_overrides default_config args = _apply_overrides conservative_config args.
Proof.
  intros args.
  apply (@presets_differ_in_one_option "netflix" "conservative"
           default_config conservative_config args true); reflexivity.
Defined.

End Runs.

(** ** Lines with tags: shielding *)

Section SubFacts.
Variable St : Type.
Variable repl : str -> St -> str * St.

Lemma sub_from_skip (r : regex) (a rest : str) :
  forall pos st,
    sub_from r repl pos (a ++ rest) (List.length a) st
    = sub_from r repl (pos + List.length a) rest 0 st.
Proof.
  induction a as [|c a IH]; intros pos st.
  - cbn [app List.length]. now rewrite Nat.add_0_r.
  - cbn [app List.length sub_from]. rewrite IH.
    replace (S pos + List.length a) with (pos + S (List.length a)) by lia.
    reflexivity.
Qed.

Lemma sub_from_hit (r : regex) (t rest : str) (pos : nat) (st : St) :
  t <> [] ->
  match_here r pos (t ++ rest) = Some rest ->
  sub_from r repl pos (t ++ rest) 0 st
  = let (out, st1) := repl t st in
    let (tail, st2) := sub_from r repl (pos + List.length t) rest 0 st1 in
    (out ++ tail, st2).
Proof.
  intros Hne Hm. destruct t as [|c t]; [congruence|].
  cbn [app] in *. cbn [sub_from]. rewrite Hm.
  assert (Hlen : List.length (c :: t ++ rest) - List.length rest
                 = S (List.length t)).
  { cbn [List.length]. rewrite length_app. lia. }
  rewrite Hlen.
  assert (Hf : firstn (S (List.length t)) (c :: t ++ rest) = c :: t).
  { rewrite <- Hlen. apply (firstn_consumed (c :: t) rest). }
  rewrite Hf. destruct (repl (c :: t) st) as [out st1].
  rewrite sub_from_skip.
  replace (S pos + List.length t) with (pos + List.length (c :: t))
    by (cbn [List.length]; lia).
  reflexivity.
Qed.

Lemma sub_from_copy (x : char) (r' : regex) (a rest : str) :
  ~ In x a ->
  forall pos st,
    sub_from (Cat (Chr x) r') repl pos (a ++ rest) 0 st
    = let (tail, st') :=
        sub_from (Cat (Chr x) r') repl (pos + List.length a) rest 0 st in
      (a ++ tail, st').
Proof.
  induction a as [|y a IH]; intros Hn pos st.
  - cbn [app List.length]. rewrite Nat.add_0_r.
    now destruct (sub_from (Cat (Chr x) r') repl pos rest 0 st).
  - cbn [app sub_from]. unfold match_here. rewrite rmatch_cat. unfold Chr.
    rewrite rmatch_cls.
    assert (Hy : char_eqb x y = false).
    { apply char_eqb_neq. intros ->. apply Hn. now left. }
    rewrite Hy. fold (Chr x). rewrite IH by (intros Hin; apply Hn; now right).
    cbn [List.length].
    replace (pos + S (List.length a)) with (S pos + List.length a) by lia.
    now destruct (sub_from (Cat (Chr x) r') repl (S pos + List.length a) rest 0 st).
Qed.

Lemma sub_from_miss (x : char) (r' : regex) (c : char) (t rest : str)
    (pos : nat) (st : St) :
  match_here (Cat (Chr x) r') pos (c :: t ++ rest) = None ->
  ~ In x t ->
  sub_from (Cat (Chr x) r') repl pos ((c :: t) ++ rest) 0 st
  = let (tail, st') :=
      sub_from (Cat (Chr x) r') repl (pos + List.length (c :: t)) rest 0 st in
    ((c :: t) ++ tail, st').
Proof.
  intros Hm Hn. cbn [app sub_from]. rewrite Hm.
  rewrite sub_from_copy by assumption. cbn [List.length].
  replace (pos + S (List.length t)) with (S pos + List.length t) by lia.
  now destruct (sub_from (Cat (Chr x) r') repl (S pos + List.length t) rest 0 st).
Qed.

End SubFacts.

Lemma rmatch_eps (R : Type) (k : cont R) (pos : nat) (s : str) (c : caps) :
  rmatch Eps pos s c k = k pos s c.
Proof. reflexivity. Qed.

Lemma match_here_html (pos : nat) (body rest : str) :
  body <> [] -> ~ In (ch ">") body ->
  match_here HTML_TAG_RE pos (ch "<" :: body ++ ch ">" :: rest) = Some rest.
Proof.
  intros Hne Hn. unfold match_here, HTML_TAG_RE, Plus.
  rewrite rmatch_cat. unfold Chr at 1. rewrite rmatch_cls.
  replace (char_eqb (ch "<") (ch "<")) with true by reflexivity.
  rewrite !rmatch_cat. destruct body as [|y body]; [congruence|].
  cbn [app]. rewrite rmatch_cls.
  assert (Hclass : forall c, In c (y :: body) -> other_than (ch ">") c = true).
  { intros c Hc. unfold other_than. apply negb_true_iff. apply char_eqb_neq.
    intros ->. contradiction. }
  rewrite (Hclass y (or_introl eq_refl)), rmatch_star_cls.
  apply greedy_max.
  - apply forallb_forall. intros c Hc. apply Hclass. now right.
  - reflexivity.
  - unfold Chr. rewrite rmatch_cls. reflexivity.
Qed.

Lemma match_here_override (pos : nat) (body rest : str) :
  ~ In (ch "}") body ->
  match_here ASS_OVERRIDE_RE pos (ch "{" :: body ++ ch "}" :: rest) = Some rest.
Proof.
  intros Hn. change ASS_OVERRIDE_RE with (bracket_re (ch "{") (ch "}")).
  rewrite match_here_bracket.
  replace (char_eqb (ch "{") (ch "{")) with true by reflexivity.
  apply after_first_split. now exists body.
Qed.

Lemma match_here_newline (pos : nat) (c : char) (rest : str) :
  mem c [ch "N"; ch "n"] = true ->
  match_here ASS_NEWLINE_RE pos (ch "\" :: c :: rest) = Some rest.
Proof.
  intros Hc. unfold match_here, ASS_NEWLINE_RE. rewrite rmatch_cat.
  unfold Chr. rewrite !rmatch_cls, Hc. reflexivity.
Qed.

Lemma lstrip_app (p : char -> bool) (a rest : str) :
  stops p rest -> lstrip_by p (a ++ rest) = lstrip_by p a ++ rest.
Proof.
  intros Hrest. induction a as [|y a IH]; [now apply lstrip_fixed|].
  cbn [app lstrip_by]. now destruct (p y).
Qed.

Lemma greedy_lstrip (R : Type) (p : char -> bool) (k : cont R) :
  (forall pos pos' s c, k pos s c = k pos' s c) ->
  (forall pos x s c, p x = true -> k pos (x :: s) c = None) ->
  forall s pos c, greedy p pos s c k = k pos (lstrip_by p s) c.
Proof.
  intros Hpos Hfail s. induction s as [|x s IH]; intros pos c; [reflexivity|].
  cbn [greedy lstrip_by]. destruct (p x) eqn:Hx; [|reflexivity].
  rewrite IH, (Hpos (S pos) pos).
  destruct (k pos (lstrip_by p s) c); [reflexivity|]. now apply Hfail.
Qed.

(** What [/?>] matches. *)
Lemma br_tail (pos : nat) (s : str) (c : caps) :
  rmatch (Cat (Opt (Chr (ch "/"))) (Chr (ch ">"))) pos s c
    (fun _ s' _ => Some s')
  = match s with
    | x :: s1 =>
        if char_eqb (ch "/") x
        then match s1 with
             | y :: s2 => if char_eqb (ch ">") y then Some s2 else None
             | [] => None
             end
        else if char_eqb (ch ">") x then Some s1 else None
    | [] => None
    end.
Proof.
  rewrite rmatch_cat. unfold Opt. rewrite rmatch_alt, rmatch_eps.
  destruct s as [|x s1]; unfold Chr; [now rewrite !rmatch_cls_nil|].
  rewrite !rmatch_cls. destruct (char_eqb (ch "/") x) eqn:Ex.
  - apply char_eqb_eq in Ex. subst x.
    replace (char_eqb (ch ">") (ch "/")) with false by reflexivity.
    destruct s1 as [|y s2]; [now rewrite rmatch_cls_nil|].
    rewrite rmatch_cls. now destruct (char_eqb (ch ">") y).
  - reflexivity.
Qed.

(** [BR_TAG_RE] at a tag in angle brackets. *)
Lemma match_here_br_tag (pos : nat) (body rest : str) :
  ~ In (ch ">") body ->
  match_here BR_TAG_RE pos (ch "<" :: body ++ ch ">" :: rest)
  = if is_br body then Some rest else None.
Proof.
  intros Hgt. unfold match_here, BR_TAG_RE.
  rewrite rmatch_cat. unfold Chr at 1. rewrite rmatch_cls.
  replace (char_eqb (ch "<") (ch "<")) with true by reflexivity.
  rewrite rmatch_cat. destruct body as [|c1 [|c2 tail]]; cbn [app is_br].
  { rewrite rmatch_cls. reflexivity. }
  { rewrite rmatch_cls. destruct (mem c1 [ch "b"; ch "B"]); [|reflexivity].
    rewrite rmatch_cat, rmatch_cls. reflexivity. }
  rewrite rmatch_cls. destruct (mem c1 [ch "b"; ch "B"]); [|reflexivity].
  rewrite rmatch_cat, rmatch_cls.
  destruct (mem c2 [ch "r"; ch "R"]); [|reflexivity].
  cbn [andb]. rewrite rmatch_cat. unfold ws. rewrite rmatch_star_cls.
  rewrite greedy_lstrip.
  - rewrite lstrip_app by reflexivity. rewrite br_tail.
    assert (Hin : forall x, In x (lstrip_by isspace tail) -> x <> ch ">").
    { intros x Hx ->. apply Hgt. right. right. now apply lstrip_in in Hx. }
    destruct (lstrip_by isspace tail) as [|x [|y more]]; cbn [app].
    + reflexivity.
    + replace (char_eqb (ch ">") (ch ">")) with true by reflexivity.
      destruct (char_eqb (ch "/") x); [reflexivity|].
      assert (E : char_eqb (ch ">") x = false).
      { apply char_eqb_neq. intros E. apply (Hin x); [now left|now symmetry]. }
      now rewrite E.
    + assert (Ex : char_eqb (ch ">") x = false).
      { apply char_eqb_neq. intros E. apply (Hin x); [now left|now symmetry]. }
      assert (Ey : char_eqb (ch ">") y = false).
      { apply char_eqb_neq. intros E. apply (Hin y); [right; now left|now symmetry]. }
      rewrite Ex, Ey. now destruct (char_eqb (ch "/") x).
  - intros p1 p2 s c. now rewrite !br_tail.
  - intros p1 x s c Hx. rewrite br_tail.
    assert (E1 : char_eqb (ch "/") x = false).
    { apply char_eqb_neq. intros <-. discriminate Hx. }
    assert (E2 : char_eqb (ch ">") x = false).
    { apply char_eqb_neq. intros <-. discriminate Hx. }
    now rewrite E1, E2.
Qed.

Lemma token_chars (n : nat) (c : char) :
  In c (tag_token n) -> In c (py "_TAG0123456789").
Proof.
  unfold tag_token. intros H. apply in_app_or in H. destruct H as [H|H].
  - vm_compute in H. vm_compute. tauto.
  - apply in_app_or in H. destruct H as [H|H].
    + apply uint_digits_in in H. vm_compute in H. vm_compute. tauto.
    + vm_compute in H. vm_compute. tauto.
Qed.

Lemma token_absent (n : nat) (x : char) :
  mem x (py "_TAG0123456789") = false -> ~ In x (tag_token n).
Proof.
  intros Hx Hin. apply token_chars in Hin. apply mem_in in Hin. congruence.
Qed.

Lemma quiet_absent (s : str) (x : char) :
  quiet s = true -> mem x (py "<{\_[(:") = true -> ~ In x s.
Proof.
  unfold quiet. rewrite forallb_forall. intros H Hx Hin.
  specialize (H x Hin). now rewrite Hx in H.
Qed.

Lemma tagged_cons (lead t s : str) (parts : list (str * str)) :
  tagged lead ((t, s) :: parts) = lead ++ t ++ tagged s parts.
Proof. unfold tagged. cbn [flat_map fst snd]. now rewrite <- app_assoc. Qed.

Lemma inert_copied (k : kind) (x : char) (r' : regex) (a : str) :
  pattern k = Cat (Chr x) r' -> ~ In x a -> copied k a.
Proof.
  intros Hpat Hn pos rest st. rewrite Hpat. now apply sub_from_copy.
Qed.

Lemma pass_ok (k : kind) :
  (forall n, copied k (tag_token n)) ->
  forall parts lead pos ph,
    copied k lead -> Forall (passable k) parts ->
    sub_from (pattern k) _store pos (tagged lead (shown parts)) 0 ph
    = (tagged lead (shown (fst (pass k parts ph))), snd (pass k parts ph)).
Proof.
  intros Htok parts. induction parts as [|[m s] parts IH];
    intros lead pos ph Hlead Hparts.
  - unfold tagged. cbn [shown map flat_map pass fst snd]. rewrite Hlead.
    reflexivity.
  - inversion Hparts as [|p ps [Hs Hm] Hrest]; subst. cbn [fst snd] in *.
    cbn [shown map fst snd]. fold (shown parts). rewrite tagged_cons, Hlead.
    destruct m as [t|n]; cbn [show pass].
    + destruct (kind_eqb (kind_of t) k).
      * destruct Hm as [Hne Hm]. rewrite sub_from_hit by (try apply Hm; assumption).
        unfold _store at 1. cbv zeta.
        rewrite (IH s _ (ph ++ [t]) Hs Hrest).
        destruct (pass k parts (ph ++ [t])) as [more' ph'] eqn:E.
        cbn [fst snd shown map]. fold (shown more'). rewrite tagged_cons.
        cbn [show]. rewrite length_app. cbn [List.length].
        replace (List.length ph + 1 - 1) with (List.length ph) by lia.
        reflexivity.
      * rewrite Hm, (IH s _ ph Hs Hrest).
        destruct (pass k parts ph) as [more' ph'] eqn:E.
        cbn [fst snd shown map]. fold (shown more'). rewrite tagged_cons.
        reflexivity.
    + rewrite Htok, (IH s _ ph Hs Hrest).
      destruct (pass k parts ph) as [more' ph'] eqn:E.
      cbn [fst snd shown map]. fold (shown more'). rewrite tagged_cons.
      reflexivity.
Qed.

Lemma angle_tag_kind (t : str) :
  angle_tag t -> kind_of t = Br \/ kind_of t = Html.
Proof.
  intros [body [-> _]]. cbn [kind_of].
  replace (char_eqb (ch "<") (ch "<")) with true by reflexivity.
  destruct (is_br (removelast (body ++ [ch ">"]))); [now left|now right].
Qed.

Lemma angle_tag_br (t : str) :
  angle_tag t ->
  (kind_of t = Br /\ stored Br t) \/ (kind_of t = Html /\ copied Br t).
Proof.
  intros [body [-> [Hne [Hgt Hlt]]]].
  pose proof (fun pos rest => @match_here_br_tag pos body rest Hgt) as Hm.
  cbn [kind_of].
  replace (char_eqb (ch "<") (ch "<")) with true by reflexivity.
  rewrite removelast_last. destruct (is_br body).
  - left. split; [reflexivity|]. split; [discriminate|].
    intros pos rest. cbn [pattern app]. rewrite <- app_assoc. apply Hm.
  - right. split; [reflexivity|]. intros pos rest st. cbn [pattern].
    unfold BR_TAG_RE. apply sub_from_miss.
    + rewrite <- app_assoc. fold BR_TAG_RE. apply Hm.
    + intros Hin. apply in_app_or in Hin. destruct Hin as [Hin|[Hin|[]]];
        [contradiction|discriminate Hin].
Qed.

Lemma override_tag_kind (t : str) : override_tag t -> kind_of t = Override.
Proof. intros [body [-> _]]. reflexivity. Qed.

Lemma newline_tag_kind (t : str) : newline_tag t -> kind_of t = Newline.
Proof. intros [c [-> _]]. reflexivity. Qed.

Lemma newline_letter (c x : char) :
  mem c [ch "N"; ch "n"] = true -> mem x (py "<{") = true -> c <> x.
Proof.
  intros Hc Hx ->. apply mem_in in Hc. apply mem_in in Hx.
  vm_compute in Hc, Hx. destruct Hc as [<-|[<-|[]]];
    destruct Hx as [Hx|[Hx|[]]]; discriminate Hx.
Qed.

Lemma angle_tag_stored (t : str) : angle_tag t -> stored Html t.
Proof.
  intros [body [-> [Hne [Hgt _]]]]. split; [discriminate|].
  intros pos rest. cbn [pattern app]. rewrite <- app_assoc.
  now apply match_here_html.
Qed.

Lemma override_tag_stored (t : str) : override_tag t -> stored Override t.
Proof.
  intros [body [-> [Hn _]]]. split; [discriminate|].
  intros pos rest. cbn [pattern app]. rewrite <- app_assoc.
  now apply match_here_override.
Qed.

Lemma newline_tag_stored (t : str) : newline_tag t -> stored Newline t.
Proof.
  intros [c [-> Hc]]. split; [discriminate|].
  intros pos rest. cbn [pattern app]. now apply match_here_newline.
Qed.

Lemma override_tag_inert (t : str) : override_tag t -> ~ In (ch "<") t.
Proof.
  intros [body [-> [_ Hlt]]] [Hin|Hin]; [discriminate Hin|].
  apply in_app_or in Hin. destruct Hin as [Hin|[Hin|[]]];
    [contradiction|discriminate Hin].
Qed.

Lemma newline_tag_inert (t : str) (x : char) :
  newline_tag t -> mem x (py "<{") = true -> ~ In x t.
Proof.
  intros [c [-> Hc]] Hx [Hin|[Hin|[]]].
  - subst x. vm_compute in Hx. discriminate.
  - now apply (@newline_letter c x Hc Hx).
Qed.

Lemma tag_kinds (t : str) :
  tag t ->
  (kind_of t = Br /\ stored Br t)
  \/ (kind_of t = Html /\ copied Br t /\ stored Html t)
  \/ (kind_of t = Override /\ override_tag t)
  \/ (kind_of t = Newline /\ newline_tag t).
Proof.
  intros [_ [H|[H|H]]].
  - destruct (angle_tag_br H) as [[Hk Hs]|[Hk Hc]].
    + left. now split.
    + right; left. split; [assumption|]. split; [assumption|].
      now apply angle_tag_stored.
  - right; right; left. split; [now apply override_tag_kind|assumption].
  - right; right; right. split; [now apply newline_tag_kind|assumption].
Qed.

Lemma pattern_trigger (k : kind) :
  exists x r', pattern k = Cat (Chr x) r' /\ mem x (py "<{\") = true.
Proof.
  destruct k; cbn [pattern].
  - exists (ch "<"). eexists. split; [reflexivity|reflexivity].
  - exists (ch "<"). eexists. split; [reflexivity|reflexivity].
  - exists (ch "{"). eexists. split; [reflexivity|reflexivity].
  - exists (ch "\"). eexists. split; [reflexivity|reflexivity].
Qed.

Lemma quiet_copied (k : kind) (s : str) : quiet s = true -> copied k s.
Proof.
  intros Hq. destruct (pattern_trigger k) as [x [r' [Hpat Hx]]].
  apply (@inert_copied k x r' _ Hpat). apply (@quiet_absent s x Hq).
  apply mem_in in Hx. apply mem_in. vm_compute in Hx. vm_compute. tauto.
Qed.

Lemma token_copied (k : kind) (n : nat) : copied k (tag_token n).
Proof.
  destruct (pattern_trigger k) as [x [r' [Hpat Hx]]].
  apply (@inert_copied k x r' _ Hpat). apply token_absent.
  apply mem_in in Hx. vm_compute in Hx.
  destruct Hx as [<-|[<-|[<-|[]]]]; reflexivity.
Qed.

Lemma ready_passable (k : kind) (p : mark * str) :
  ready (rank k) p -> passable k p.
Proof.
  destruct p as [m s]. intros [Hq Hm]. unfold passable. cbn [fst snd] in *.
  split; [now apply quiet_copied|]. destruct m as [t|n]; [|exact I].
  destruct Hm as [Ht Hrank].
  destruct (tag_kinds Ht) as [[Hk H]|[[Hk [Hc H]]|[[Hk H]|[Hk H]]]];
    rewrite Hk in *; destruct k; cbn [rank] in Hrank; try lia;
    cbn [kind_eqb rank Nat.eqb].
  - exact H.
  - exact Hc.
  - exact H.
  - apply (@inert_copied Br (ch "<") _ t eq_refl). now apply override_tag_inert.
  - apply (@inert_copied Html (ch "<") _ t eq_refl). now apply override_tag_inert.
  - now apply override_tag_stored.
  - apply (@inert_copied Br (ch "<") _ t eq_refl).
    now apply (@newline_tag_inert t (ch "<") H).
  - apply (@inert_copied Html (ch "<") _ t eq_refl).
    now apply (@newline_tag_inert t (ch "<") H).
  - apply (@inert_copied Override (ch "{") _ t eq_refl).
    now apply (@newline_tag_inert t (ch "{") H).
  - now apply newline_tag_stored.
Qed.

Lemma indexed_more (ph added : list str) (p : mark * str) :
  indexed ph p -> indexed (ph ++ added) p.
Proof.
  unfold indexed. destruct (fst p); [trivial|]. rewrite length_app. lia.
Qed.

Lemma restored_more (ph added : list str) (parts : list (mark * str)) :
  Forall (indexed ph) parts -> restored (ph ++ added) parts = restored ph parts.
Proof.
  induction 1 as [|[m s] parts Hp _ IH]; [reflexivity|].
  unfold restored in *. cbn [map fst snd]. rewrite IH. f_equal. f_equal.
  destruct m as [t|n]; [reflexivity|]. cbn [orig]. unfold indexed in Hp.
  cbn [fst] in Hp. now apply app_nth1.
Qed.

Lemma pass_spec (k : kind) (parts : list (mark * str)) :
  forall ph,
    Forall (indexed ph) parts ->
    exists added,
      snd (pass k parts ph) = ph ++ added
      /\ restored (ph ++ added) (fst (pass k parts ph)) = restored ph parts
      /\ Forall (indexed (ph ++ added)) (fst (pass k parts ph)).
Proof.
  induction parts as [|[m s] parts IH]; intros ph Hidx.
  - exists []. cbn [pass fst snd]. rewrite app_nil_r. now split.
  - inversion Hidx as [|p ps Hp Hrest]; subst. destruct m as [t|n]; cbn [pass].
    + destruct (kind_eqb (kind_of t) k).
      * assert (Hrest' : Forall (indexed (ph ++ [t])) parts).
        { eapply Forall_impl; [|exact Hrest]. intros p. apply indexed_more. }
        destruct (IH (ph ++ [t]) Hrest') as [added [Hph [Hres Hidx']]].
        destruct (pass k parts (ph ++ [t])) as [more' ph'] eqn:E.
        cbn [fst snd] in *. exists (t :: added).
        assert (Eapp : ph ++ t :: added = (ph ++ [t]) ++ added)
          by now rewrite <- app_assoc.
        rewrite Eapp. split; [assumption|]. split.
        -- unfold restored in *. cbn [map fst snd orig]. rewrite Hres.
           fold (restored (ph ++ [t]) parts). fold (restored ph parts).
           rewrite restored_more by assumption. f_equal. f_equal.
           rewrite <- Eapp. apply nth_middle.
        -- constructor; [|assumption]. unfold indexed. cbn [fst].
           rewrite !length_app. cbn [List.length]. lia.
      * destruct (IH ph Hrest) as [added [Hph [Hres Hidx']]].
        destruct (pass k parts ph) as [more' ph'] eqn:E.
        cbn [fst snd] in *. exists added. split; [assumption|]. split.
        -- unfold restored in *. cbn [map fst snd orig]. now rewrite Hres.
        -- constructor; [exact I|assumption].
    + destruct (IH ph Hrest) as [added [Hph [Hres Hidx']]].
      destruct (pass k parts ph) as [more' ph'] eqn:E.
      cbn [fst snd] in *. exists added. split; [assumption|]. split.
      * unfold restored in *. cbn [map fst snd orig]. rewrite Hres.
        f_equal. f_equal. unfold indexed in Hp. cbn [fst] in Hp.
        now apply app_nth1.
      * constructor; [|assumption]. now apply indexed_more.
Qed.

Lemma pass_stores (k : kind) (Q : str -> Prop) (parts : list (mark * str)) :
  Forall (fun p => match fst p with Tag t => Q t | Tok _ => True end) parts ->
  forall ph, Forall Q ph -> Forall Q (snd (pass k parts ph)).
Proof.
  induction 1 as [|[m s] parts Hp _ IH]; intros ph Hph; [exact Hph|].
  cbn [fst] in Hp. destruct m as [t|n]; cbn [pass].
  - destruct (kind_eqb (kind_of t) k).
    + specialize (IH (ph ++ [t])).
      destruct (pass k parts (ph ++ [t])) as [more' ph']. cbn [snd] in *.
      apply IH. apply Forall_app. split; [assumption|]. now constructor.
    + specialize (IH ph). destruct (pass k parts ph) as [more' ph'].
      cbn [snd] in *. now apply IH.
  - specialize (IH ph). destruct (pass k parts ph) as [more' ph'].
    cbn [snd] in *. now apply IH.
Qed.

Lemma pass_keeps (k : kind) (Q : str -> Prop) (parts : list (mark * str)) :
  Forall (fun p => match fst p with Tag t => Q t | Tok _ => True end) parts ->
  forall ph,
    Forall (fun p => match fst p with Tag t => Q t | Tok _ => True end)
      (fst (pass k parts ph)).
Proof.
  induction 1 as [|[m s] parts Hp _ IH]; intros ph; [constructor|].
  cbn [fst] in Hp. destruct m as [t|n]; cbn [pass].
  - destruct (kind_eqb (kind_of t) k).
    + specialize (IH (ph ++ [t])).
      destruct (pass k parts (ph ++ [t])) as [more' ph']. cbn [fst] in *.
      constructor; [exact I|assumption].
    + specialize (IH ph). destruct (pass k parts ph) as [more' ph'].
      cbn [fst] in *. constructor; assumption.
  - specialize (IH ph). destruct (pass k parts ph) as [more' ph'].
    cbn [fst] in *. constructor; [exact I|assumption].
Qed.

Lemma pass_ready (k : kind) (parts : list (mark * str)) :
  Forall (ready (rank k)) parts ->
  forall ph, Forall (ready (S (rank k))) (fst (pass k parts ph)).
Proof.
  induction 1 as [|[m s] parts [Hq Hm] _ IH]; intros ph; [constructor|].
  cbn [fst snd] in *. destruct m as [t|n]; cbn [pass].
  - destruct (kind_eqb (kind_of t) k) eqn:E.
    + specialize (IH (ph ++ [t])).
      destruct (pass k parts (ph ++ [t])) as [more' ph']. cbn [fst] in *.
      constructor; [|assumption]. now split.
    + specialize (IH ph). destruct (pass k parts ph) as [more' ph'].
      cbn [fst] in *. constructor; [|assumption]. split; [assumption|].
      cbn [fst]. destruct Hm as [Ht Hrank]. split; [assumption|].
      unfold kind_eqb in E. apply Nat.eqb_neq in E. lia.
  - specialize (IH ph). destruct (pass k parts ph) as [more' ph'].
    cbn [fst] in *. constructor; [|assumption]. now split.
Qed.

Lemma shown_tags_of (parts : list (str * str)) : shown (tags_of parts) = parts.
Proof.
  unfold shown, tags_of. rewrite map_map. cbn [fst snd show].
  rewrite <- (map_id parts) at 2. apply map_ext. now intros [t s].
Qed.

Lemma restored_tags_of (ph : list str) (parts : list (str * str)) :
  restored ph (tags_of parts) = parts.
Proof.
  unfold restored, tags_of. rewrite map_map. cbn [fst snd orig].
  rewrite <- (map_id parts) at 2. apply map_ext. now intros [t s].
Qed.

Lemma ready_all_passable (k : kind) (parts : list (mark * str)) :
  Forall (ready (rank k)) parts -> Forall (passable k) parts.
Proof.
  intros H. eapply Forall_impl; [|exact H]. intros p. apply ready_passable.
Qed.

(** The four substitutions on a line of texts and tags: every tag is
    replaced by a token that stands for it. *)
Lemma shield_tagged (lead : str) (parts : list (str * str)) :
  quiet lead = true ->
  Forall (fun p => tag (fst p) /\ quiet (snd p) = true) parts ->
  exists toks ph,
    shield (tagged lead parts) = (tagged lead (shown toks), ph)
    /\ restored ph toks = parts
    /\ Forall (fun p => quiet (snd p) = true
                        /\ exists n, fst p = Tok n /\ n < List.length ph) toks
    /\ Forall (fun o => ~ In underscore o) ph.
Proof.
  intros Hlead Hparts.
  set (p0 := tags_of parts).
  assert (H0 : Forall (ready (rank Br)) p0).
  { unfold p0, tags_of. apply Forall_map. eapply Forall_impl; [|exact Hparts].
    intros [t s] [Ht Hs]. split; [assumption|]. cbn [fst]. split; [assumption|].
    cbn [rank]. lia. }
  assert (Q0 : Forall (fun p => match fst p with
                                | Tag t => ~ In underscore t
                                | Tok _ => True
                                end) p0).
  { unfold p0, tags_of. apply Forall_map. eapply Forall_impl; [|exact Hparts].
    intros [t s] [[Ht _] _]. exact Ht. }
  assert (I0 : Forall (indexed []) p0).
  { unfold p0, tags_of. apply Forall_map. apply Forall_forall. intros p _. exact I. }
  set (p1 := fst (pass Br p0 [])). set (ph1 := snd (pass Br p0 [])).
  pose proof (@pass_ready Br p0 H0 [] : Forall (ready (rank Html)) p1) as H1.
  destruct (@pass_spec Br p0 [] I0) as [a1 [E1 [R1 I1]]]. fold p1 ph1 in E1, R1, I1.
  rewrite <- E1 in R1, I1.
  set (p2 := fst (pass Html p1 ph1)). set (ph2 := snd (pass Html p1 ph1)).
  pose proof (@pass_ready Html p1 H1 ph1 : Forall (ready (rank Override)) p2) as H2.
  destruct (@pass_spec Html p1 ph1 I1) as [a2 [E2 [R2 I2]]]. fold p2 ph2 in E2, R2, I2.
  rewrite <- E2 in R2, I2.
  set (p3 := fst (pass Override p2 ph2)). set (ph3 := snd (pass Override p2 ph2)).
  pose proof (@pass_ready Override p2 H2 ph2 : Forall (ready (rank Newline)) p3) as H3.
  destruct (@pass_spec Override p2 ph2 I2) as [a3 [E3 [R3 I3]]]. fold p3 ph3 in E3, R3, I3.
  rewrite <- E3 in R3, I3.
  set (p4 := fst (pass Newline p3 ph3)). set (ph4 := snd (pass Newline p3 ph3)).
  pose proof (@pass_ready Newline p3 H3 ph3 : Forall (ready 4) p4) as H4.
  destruct (@pass_spec Newline p3 ph3 I3) as [a4 [E4 [R4 I4]]]. fold p4 ph4 in E4, R4, I4.
  rewrite <- E4 in R4, I4.
  exists p4, ph4. split; [|split; [|split]].
  - unfold shield, re_sub_with. rewrite <- (shown_tags_of parts). fold p0.
    change BR_TAG_RE with (pattern Br).
    rewrite (@pass_ok Br (token_copied Br) p0 lead 0 []
               (@quiet_copied Br lead Hlead) (ready_all_passable Br H0)).
    fold p1 ph1. change HTML_TAG_RE with (pattern Html).
    rewrite (@pass_ok Html (token_copied Html) p1 lead 0 ph1
               (@quiet_copied Html lead Hlead) (ready_all_passable Html H1)).
    fold p2 ph2. change ASS_OVERRIDE_RE with (pattern Override).
    rewrite (@pass_ok Override (token_copied Override) p2 lead 0 ph2
               (@quiet_copied Override lead Hlead)
               (ready_all_passable Override H2)).
    fold p3 ph3. change ASS_NEWLINE_RE with (pattern Newline).
    rewrite (@pass_ok Newline (token_copied Newline) p3 lead 0 ph3
               (@quiet_copied Newline lead Hlead)
               (ready_all_passable Newline H3)).
    reflexivity.
  - rewrite R4, R3, R2, R1. apply restored_tags_of.
  - apply Forall_forall. intros [m s] Hp. rewrite Forall_forall in H4, I4.
    destruct (H4 _ Hp) as [Hq Hm]. specialize (I4 _ Hp). cbn [fst snd] in *.
    split; [assumption|]. destruct m as [t|n].
    + destruct Hm as [_ Hrank]. destruct (kind_of t); cbn [rank] in Hrank; lia.
    + exists n. split; [reflexivity|exact I4].
  - unfold ph4, ph3, ph2, ph1. apply pass_stores.
    { unfold p3, p2, p1. now repeat apply pass_keeps. }
    apply pass_stores.
    { unfold p2, p1. now repeat apply pass_keeps. }
    apply pass_stores.
    { unfold p1. now repeat apply pass_keeps. }
    apply pass_stores; [assumption|constructor].
Qed.

(** ** Lines with tags: whitespace *)

Lemma rstrip_app (p : char -> bool) (a s : str) :
  stops p (rev a) -> rstrip_by p (a ++ s) = a ++ rstrip_by p s.
Proof.
  intros Ha. unfold rstrip_by. rewrite rev_app_distr, lstrip_app by assumption.
  now rewrite rev_app_distr, rev_involutive.
Qed.

Lemma collapse_app_solid (t : str) :
  t <> [] -> forallb (fun c => negb (isspace c)) t = true ->
  forall a in_run rest,
    collapse in_run (a ++ t ++ rest) = collapse in_run a ++ t ++ collapse false rest.
Proof.
  intros Hne Ht a. induction a as [|y a IH]; intros in_run rest.
  - cbn [app collapse]. destruct t as [|x t]; [congruence|].
    cbn [forallb] in Ht. apply andb_true_iff in Ht. destruct Ht as [Hx Ht].
    apply negb_true_iff in Hx. cbn [app collapse]. rewrite Hx.
    now rewrite collapse_text.
  - cbn [app collapse]. destruct (isspace y); [destruct in_run|];
      now rewrite IH.
Qed.

Lemma collapse_tagged (parts : list (str * str)) :
  Forall (fun p => fst p <> []
                   /\ forallb (fun c => negb (isspace c)) (fst p) = true) parts ->
  forall lead in_run,
    collapse in_run (tagged lead parts)
    = tagged (collapse in_run lead) (collapsed parts).
Proof.
  induction 1 as [|[t s] parts [Hne Ht] _ IH]; intros lead in_run.
  - unfold tagged. cbn [collapsed map flat_map]. now rewrite !app_nil_r.
  - cbn [fst] in *. cbn [collapsed map fst snd]. fold (collapsed parts).
    rewrite !tagged_cons, collapse_app_solid by assumption. now rewrite IH.
Qed.

Lemma lstrip_tagged (lead : str) (parts : list (str * str)) :
  Forall (fun p => fst p <> []
                   /\ forallb (fun c => negb (isspace c)) (fst p) = true) parts ->
  lstrip_by isspace (tagged lead parts)
  = tagged (lstrip_by isspace lead) parts.
Proof.
  intros H. destruct H as [|[t s] parts [Hne Ht] _].
  - unfold tagged. cbn [flat_map]. now rewrite !app_nil_r.
  - cbn [fst] in *. rewrite !tagged_cons. apply lstrip_app.
    now apply solid_text_stops.
Qed.

Lemma rstrip_tagged (parts : list (str * str)) :
  parts <> [] ->
  Forall (fun p => fst p <> []
                   /\ forallb (fun c => negb (isspace c)) (fst p) = true) parts ->
  forall lead,
    rstrip_by isspace (tagged lead parts) = tagged lead (rstrip_last parts).
Proof.
  intros Hne H. revert Hne.
  induction H as [|[t s] parts [Hnt Ht] Hrest IH]; intros Hne;
    [exfalso; now apply Hne|].
  intros lead. cbn [fst] in *. destruct parts as [|p parts].
  - cbn [rstrip_last]. unfold tagged. cbn [flat_map fst snd].
    rewrite !app_nil_r, !app_assoc. apply rstrip_app.
    rewrite rev_app_distr. apply solid_text_stops; [|destruct t; [congruence|]].
    + rewrite forallb_forall in *. intros c Hc. apply Ht. now apply in_rev.
    + intros E. apply (f_equal (@List.length char)) in E.
      rewrite length_rev in E. discriminate E.
  - change (rstrip_last ((t, s) :: p :: parts))
      with ((t, s) :: rstrip_last (p :: parts)).
    rewrite !tagged_cons.
    assert (E : forall l ps, lead ++ t ++ tagged l ps = tagged (lead ++ t ++ l) ps).
    { intros l ps. unfold tagged. now rewrite !app_assoc. }
    rewrite !E. apply IH. discriminate.
Qed.

Lemma collapsed_marks (parts : list (str * str)) (P : str -> Prop) :
  Forall (fun p => P (fst p)) parts -> Forall (fun p => P (fst p)) (collapsed parts).
Proof.
  intros H. unfold collapsed. apply Forall_map. eapply Forall_impl; [|exact H].
  now intros [t s].
Qed.

Lemma normalize_tagged (lead : str) (parts : list (str * str)) :
  parts <> [] ->
  Forall (fun p => fst p <> []
                   /\ forallb (fun c => negb (isspace c)) (fst p) = true) parts ->
  normalize (tagged lead parts)
  = tagged (lstrip_by isspace (collapse false lead)) (settle parts).
Proof.
  intros Hne H. unfold normalize, strip, settle.
  rewrite collapse_tagged by assumption.
  pose proof (@collapsed_marks parts
                (fun t => t <> []
                          /\ forallb (fun c => negb (isspace c)) t = true) H) as Hc.
  rewrite lstrip_tagged by assumption. apply rstrip_tagged; [|assumption].
  destruct parts; [congruence|discriminate].
Qed.

(** ** Lines with tags: restoring *)

Lemma startswith_app (old rest : str) : startswith old (old ++ rest) = true.
Proof.
  induction old as [|x old IH]; [reflexivity|]. cbn [app startswith].
  unfold char_eqb. now rewrite N.eqb_refl, IH.
Qed.

Lemma replace_from_skip (old new a rest : str) :
  replace_from old new (a ++ rest) (List.length a) = replace_from old new rest 0.
Proof. induction a as [|c a IH]; [reflexivity|exact IH]. Qed.

Lemma replace_hit (o : char) (old new rest : str) :
  replace_from (o :: old) new ((o :: old) ++ rest) 0
  = new ++ replace_from (o :: old) new rest 0.
Proof.
  cbn [app replace_from].
  change (o :: old ++ rest) with ((o :: old) ++ rest).
  rewrite startswith_app. now rewrite replace_from_skip.
Qed.

Lemma replace_miss (o : char) (old new : str) (c : char) (s : str) :
  startswith (o :: old) (c :: s) = false ->
  replace_from (o :: old) new (c :: s) 0 = c :: replace_from (o :: old) new s 0.
Proof. intros H. cbn [replace_from]. now rewrite H. Qed.

Lemma replace_copy (o : char) (old new a rest : str) :
  ~ In o a ->
  replace_from (o :: old) new (a ++ rest) 0
  = a ++ replace_from (o :: old) new rest 0.
Proof.
  induction a as [|c a IH]; intros Hn; [reflexivity|].
  cbn [app]. rewrite replace_miss.
  - rewrite IH; [reflexivity|]. intros Hin. apply Hn. now right.
  - cbn [startswith].
    assert (E : char_eqb o c = false).
    { apply char_eqb_neq. intros ->. apply Hn. now left. }
    now rewrite E.
Qed.

Lemma tag_token_eq (k : nat) :
  tag_token k
  = underscore :: underscore :: ch "T" :: ch "A" :: ch "G" :: underscore
      :: str_of_nat k ++ [underscore; underscore].
Proof. reflexivity. Qed.

Lemma digit_not_underscore (c : char) :
  In c (py "0123456789") -> c <> underscore.
Proof.
  intros H ->. vm_compute in H.
  repeat (destruct H as [H|H]; [discriminate H|]). exact H.
Qed.

Lemma str_of_nat_digits (k : nat) (c : char) :
  In c (str_of_nat k) -> c <> underscore.
Proof.
  intros H. apply digit_not_underscore. unfold str_of_nat in H.
  now apply uint_digits_in in H.
Qed.

Lemma digits_prefix (a : str) :
  forall b x y,
    (forall c, In c a -> c <> underscore) ->
    (forall c, In c b -> c <> underscore) ->
    startswith (a ++ underscore :: x) (b ++ underscore :: y) = true ->
    a = b.
Proof.
  induction a as [|d a IH]; intros b x y Ha Hb H.
  - destruct b as [|e b]; [reflexivity|]. cbn [app startswith] in H.
    apply andb_true_iff in H. destruct H as [H _]. apply char_eqb_eq in H.
    exfalso. apply (Hb e); [now left|now symmetry].
  - destruct b as [|e b]; cbn [app startswith] in H;
      apply andb_true_iff in H; destruct H as [H H'];
      apply char_eqb_eq in H.
    + exfalso. apply (Ha d); [now left|assumption].
    + subst e. f_equal. apply (IH b x y); [| |assumption].
      * intros c Hc. apply Ha. now right.
      * intros c Hc. apply Hb. now right.
Qed.

Lemma token_miss (k j : nat) (rest : str) :
  k <> j -> startswith (tag_token k) (tag_token j ++ rest) = false.
Proof.
  intros Hkj. destruct (startswith (tag_token k) (tag_token j ++ rest)) eqn:E;
    [|reflexivity].
  exfalso. apply Hkj. apply str_of_nat_inj. rewrite !tag_token_eq in E.
  cbn [app startswith] in E.
  replace (char_eqb underscore underscore) with true in E by reflexivity.
  replace (char_eqb (ch "T") (ch "T")) with true in E by reflexivity.
  replace (char_eqb (ch "A") (ch "A")) with true in E by reflexivity.
  replace (char_eqb (ch "G") (ch "G")) with true in E by reflexivity.
  cbn [andb] in E. rewrite <- app_assoc in E. cbn [app] in E.
  apply (digits_prefix _ _ _ _ (@str_of_nat_digits k) (@str_of_nat_digits j) E).
Qed.

Lemma flatten_app (a b : list piece) : flatten (a ++ b) = flatten a ++ flatten b.
Proof. apply flat_map_app. Qed.

Lemma flatten_chars (s : str) : flatten (chars s) = s.
Proof.
  unfold flatten, chars. induction s as [|c s IH]; [reflexivity|].
  cbn [map flat_map show_piece app]. now rewrite IH.
Qed.

Lemma follows_underscore (rest : str) (pieces : list piece) :
  Forall sound_piece pieces ->
  startswith (underscore :: ch "T" :: rest) (flatten pieces) = false.
Proof.
  intros Hp. destruct Hp as [|[c|j] pieces Hc _]; [reflexivity| |].
  - cbn [flatten flat_map show_piece app startswith].
    assert (E : char_eqb underscore c = false).
    { apply char_eqb_neq. intros E. apply Hc. now symmetry. }
    now rewrite E.
  - cbn [flatten flat_map show_piece]. rewrite tag_token_eq. reflexivity.
Qed.

Lemma follows_token_digits (k : nat) (pieces : list piece) :
  Forall sound_piece pieces ->
  startswith (underscore :: str_of_nat k ++ [underscore; underscore])
    (flatten pieces) = false.
Proof.
  intros Hp. destruct Hp as [|[c|j] pieces Hc _]; [reflexivity| |].
  - cbn [flatten flat_map show_piece app startswith].
    assert (E : char_eqb underscore c = false).
    { apply char_eqb_neq. intros E. apply Hc. now symmetry. }
    now rewrite E.
  - cbn [flatten flat_map show_piece]. rewrite tag_token_eq.
    cbn [app startswith].
    replace (char_eqb underscore underscore) with true by reflexivity.
    cbn [andb]. pose proof (str_of_nat_nonempty k) as Hne.
    pose proof (@str_of_nat_digits k) as Hd.
    destruct (str_of_nat k) as [|d ds]; [congruence|].
    cbn [app startswith].
    assert (Ed : char_eqb d underscore = false).
    { apply char_eqb_neq. apply Hd. now left. }
    now rewrite Ed.
Qed.

Lemma follows_letter (x : char) (pattern_rest : str) (pieces : list piece) :
  x <> underscore ->
  (forall more, Forall sound_piece more ->
                startswith pattern_rest (flatten more) = false) ->
  Forall sound_piece pieces ->
  startswith (x :: pattern_rest) (flatten pieces) = false.
Proof.
  intros Hx Hrest Hp. destruct Hp as [|[c|j] pieces Hc Hmore]; [reflexivity| |].
  - cbn [flatten flat_map show_piece app startswith]. fold (flatten pieces).
    rewrite (Hrest pieces Hmore). apply andb_false_r.
  - cbn [flatten flat_map show_piece]. rewrite tag_token_eq.
    cbn [app startswith].
    assert (E : char_eqb x underscore = false) by now apply char_eqb_neq.
    now rewrite E.
Qed.

Lemma follows_token_end (k : nat) (pieces : list piece) :
  Forall sound_piece pieces ->
  startswith (ch "T" :: ch "A" :: ch "G" :: underscore
                :: str_of_nat k ++ [underscore; underscore])
    (flatten pieces) = false.
Proof.
  intros Hp.
  apply follows_letter; [discriminate| |assumption]. intros p1 H1.
  apply follows_letter; [discriminate| |assumption]. intros p2 H2.
  apply follows_letter; [discriminate| |assumption]. intros p3 H3.
  now apply follows_token_digits.
Qed.

Lemma pass_token (k j : nat) (new : str) (pieces : list piece) :
  k <> j -> Forall sound_piece pieces ->
  replace_from (tag_token k) new (tag_token j ++ flatten pieces) 0
  = tag_token j ++ replace_from (tag_token k) new (flatten pieces) 0.
Proof.
  intros Hkj Hp.
  pose proof (@token_miss k j (flatten pieces) Hkj) as H0.
  rewrite (tag_token_eq j) in *. rewrite (tag_token_eq k) in *.
  cbn [app] in *. rewrite <- app_assoc. cbn [app].
  rewrite <- app_assoc in H0. cbn [app] in H0.
  set (old := underscore :: ch "T" :: ch "A" :: ch "G" :: underscore
                :: str_of_nat k ++ [underscore; underscore]) in *.
  rewrite (@replace_miss _ _ new _ _ H0).
  rewrite replace_miss by reflexivity.
  f_equal. f_equal.
  change (ch "T" :: ch "A" :: ch "G" :: underscore
            :: str_of_nat j ++ underscore :: underscore :: flatten pieces)
    with ([ch "T"; ch "A"; ch "G"]
            ++ underscore :: str_of_nat j
            ++ underscore :: underscore :: flatten pieces).
  rewrite replace_copy
    by (intros H; vm_compute in H;
        repeat (destruct H as [H|H]; [discriminate H|]); exact H).
  cbn [app]. f_equal. f_equal. f_equal.
  pose proof (str_of_nat_nonempty j) as Hne.
  assert (Hd : forall c, In c (str_of_nat j) -> c <> underscore)
    by apply str_of_nat_digits.
  rewrite replace_miss.
  2:{ destruct (str_of_nat j) as [|d ds]; [congruence|].
      unfold old. cbn [app startswith].
      assert (Ed : char_eqb underscore d = false).
      { apply char_eqb_neq. intros E. apply (Hd d); [now left|now symmetry]. }
      now rewrite Ed, andb_false_r. }
  f_equal. rewrite replace_copy by (intros H; now apply (Hd underscore H)).
  rewrite <- app_assoc. cbn [app]. f_equal. rewrite replace_miss.
  2:{ unfold old. cbn [startswith].
      replace (char_eqb underscore underscore) with true by reflexivity.
      cbn [andb]. now apply follows_token_end. }
  f_equal. rewrite replace_miss.
  2:{ change (startswith (underscore :: old) (underscore :: flatten pieces))
        with (char_eqb underscore underscore && startswith old (flatten pieces)).
      replace (char_eqb underscore underscore) with true by reflexivity.
      cbn [andb]. unfold old. now apply follows_underscore. }
  reflexivity.
Qed.

Lemma subst_app (k : nat) (o : str) (a b : list piece) :
  subst k o (a ++ b) = subst k o a ++ subst k o b.
Proof. apply flat_map_app. Qed.

Lemma subst_chars (k : nat) (o s : str) : subst k o (chars s) = chars s.
Proof.
  unfold subst, chars. induction s as [|c s IH]; [reflexivity|].
  cbn [map flat_map app]. now rewrite IH.
Qed.

Lemma chars_sound (s : str) : ~ In underscore s -> Forall sound_piece (chars s).
Proof.
  intros H. unfold chars. apply Forall_map. apply Forall_forall.
  intros c Hc E. cbn in E. subst c. contradiction.
Qed.

Lemma subst_sound (k : nat) (o : str) (pieces : list piece) :
  ~ In underscore o -> Forall sound_piece pieces ->
  Forall sound_piece (subst k o pieces).
Proof.
  intros Ho H. induction H as [|p pieces Hp _ IH]; [constructor|].
  unfold subst in *. cbn [flat_map]. apply Forall_app. split; [|exact IH].
  destruct p as [c|n]; [now constructor|].
  destruct (Nat.eqb n k); [now apply chars_sound|now constructor].
Qed.

Lemma replace_pieces (k : nat) (new : str) (pieces : list piece) :
  Forall sound_piece pieces ->
  replace (tag_token k) new (flatten pieces) = flatten (subst k new pieces).
Proof.
  unfold replace. intros H. induction H as [|p pieces Hp Hrest IH].
  - rewrite tag_token_eq. reflexivity.
  - destruct p as [c|j].
    + change (flatten (inl c :: pieces)) with (c :: flatten pieces).
      change (flatten (subst k new (inl c :: pieces)))
        with (c :: flatten (subst k new pieces)).
      rewrite <- IH. rewrite (tag_token_eq k). apply replace_miss.
      cbn [startswith].
      assert (E : char_eqb underscore c = false).
      { apply char_eqb_neq. intros E. apply Hp. now symmetry. }
      now rewrite E.
    + change (flatten (inr j :: pieces)) with (tag_token j ++ flatten pieces).
      unfold subst. cbn [flat_map]. fold (subst k new pieces).
      rewrite flatten_app, <- IH. destruct (Nat.eqb j k) eqn:E.
      * apply Nat.eqb_eq in E. subst j. rewrite flatten_chars.
        rewrite (tag_token_eq k). apply replace_hit.
      * apply Nat.eqb_neq in E.
        change (flatten [inr j]) with (tag_token j ++ []).
        rewrite app_nil_r. apply pass_token; [congruence|assumption].
Qed.

Lemma restore_from_pieces (ph : list str) :
  Forall (fun o => ~ In underscore o) ph ->
  forall k pieces,
    Forall sound_piece pieces ->
    restore_from k ph (flatten pieces) = flatten (restore_pieces k ph pieces).
Proof.
  induction 1 as [|o ph Ho _ IH]; intros k pieces Hp; [reflexivity|].
  cbn [restore_from restore_pieces]. rewrite replace_pieces by assumption.
  apply IH. now apply subst_sound.
Qed.

Lemma restore_pieces_app (ph : list str) :
  forall k a b,
    restore_pieces k ph (a ++ b) = restore_pieces k ph a ++ restore_pieces k ph b.
Proof.
  induction ph as [|o ph IH]; intros k a b; [reflexivity|].
  cbn [restore_pieces]. now rewrite subst_app, IH.
Qed.

Lemma restore_pieces_chars (ph : list str) :
  forall k s, restore_pieces k ph (chars s) = chars s.
Proof.
  induction ph as [|o ph IH]; intros k s; [reflexivity|].
  cbn [restore_pieces]. now rewrite subst_chars, IH.
Qed.

Lemma restore_pieces_nil (ph : list str) : forall k, restore_pieces k ph [] = [].
Proof. induction ph as [|o ph IH]; intros k; [reflexivity|apply IH]. Qed.

Lemma restore_pieces_token (ph : list str) :
  forall k n,
    k <= n -> n < k + List.length ph ->
    restore_pieces k ph [inr n] = chars (nth (n - k) ph []).
Proof.
  induction ph as [|o ph IH]; intros k n Hk Hn.
  - cbn [List.length] in Hn. lia.
  - cbn [restore_pieces subst flat_map app]. destruct (Nat.eqb n k) eqn:E.
    + apply Nat.eqb_eq in E. subst n. rewrite app_nil_r, restore_pieces_chars.
      now rewrite Nat.sub_diag.
    + apply Nat.eqb_neq in E. cbn [List.length] in Hn.
      rewrite app_nil_r, IH by lia.
      replace (n - k) with (S (n - S k)) by lia. reflexivity.
Qed.

Lemma flatten_pieces_of (lead : str) (parts : list (mark * str)) :
  flatten (pieces_of lead parts) = tagged lead (shown parts).
Proof.
  unfold pieces_of, tagged. rewrite flatten_app, flatten_chars. f_equal.
  induction parts as [|[m s] parts IH]; [reflexivity|].
  cbn [flat_map shown map fst snd]. fold (shown parts).
  rewrite !flatten_app, flatten_chars, IH. f_equal. f_equal.
  destruct m as [t|n]; [apply flatten_chars|]. cbn [show flatten flat_map show_piece].
  apply app_nil_r.
Qed.

Lemma restore_tagged (lead : str) (toks : list (mark * str)) (ph : list str) :
  ~ In underscore lead ->
  Forall (fun p => ~ In underscore (snd p)
                   /\ exists n, fst p = Tok n /\ n < List.length ph) toks ->
  Forall (fun o => ~ In underscore o) ph ->
  restore_from 0 ph (tagged lead (shown toks)) = tagged lead (restored ph toks).
Proof.
  intros Hlead Htoks Hph. rewrite <- flatten_pieces_of.
  rewrite restore_from_pieces; [|assumption|].
  - unfold pieces_of, tagged. rewrite restore_pieces_app, restore_pieces_chars.
    rewrite flatten_app, flatten_chars. f_equal.
    induction Htoks as [|[m s] toks [Hs [n [Hm Hn]]] _ IH];
      [cbn [flat_map]; now rewrite restore_pieces_nil|].
    cbn [fst snd] in *. subst m. cbn [flat_map restored map fst snd orig].
    fold (restored ph toks).
    rewrite !restore_pieces_app, !flatten_app, IH, restore_pieces_chars.
    rewrite restore_pieces_token by lia. rewrite Nat.sub_0_r, !flatten_chars.
    now rewrite <- app_assoc.
  - unfold pieces_of. apply Forall_app. split; [now apply chars_sound|].
    induction Htoks as [|[m s] toks [Hs [n [Hm Hn]]] _ IH]; [constructor|].
    cbn [fst snd flat_map] in *. subst m. apply Forall_app. split; [|exact IH].
    constructor; [exact I|now apply chars_sound].
Qed.

(** ** Lines with tags: the result of [clean_line] *)

Lemma rstrip_last_map (M N : Type) (f : M -> N) (parts : list (M * str)) :
  rstrip_last (map (fun p => (f (fst p), snd p)) parts)
  = map (fun p => (f (fst p), snd p)) (rstrip_last parts).
Proof.
  induction parts as [|[m s] parts IH]; [reflexivity|].
  destruct parts as [|[m' s'] parts]; [reflexivity|].
  change (rstrip_last ((m, s) :: (m', s') :: parts))
    with ((m, s) :: rstrip_last ((m', s') :: parts)).
  cbn [map fst snd] in *.
  change (rstrip_last ((f m, s) :: (f m', s')
                         :: map (fun p => (f (fst p), snd p)) parts))
    with ((f m, s) :: rstrip_last ((f m', s')
                         :: map (fun p => (f (fst p), snd p)) parts)).
  now rewrite IH.
Qed.

Lemma settle_map (M N : Type) (f : M -> N) (parts : list (M * str)) :
  settle (map (fun p => (f (fst p), snd p)) parts)
  = map (fun p => (f (fst p), snd p)) (settle parts).
Proof.
  unfold settle, collapsed. rewrite <- rstrip_last_map. f_equal.
  rewrite !map_map. reflexivity.
Qed.

Lemma rstrip_last_forall (M : Type) (P : M * str -> Prop) (parts : list (M * str)) :
  (forall m s, P (m, s) -> P (m, rstrip_by isspace s)) ->
  Forall P parts -> Forall P (rstrip_last parts).
Proof.
  intros Hstep H. induction H as [|[m s] parts Hp Hrest IH]; [constructor|].
  destruct parts as [|p parts]; [constructor; [now apply Hstep|constructor]|].
  change (rstrip_last ((m, s) :: p :: parts))
    with ((m, s) :: rstrip_last (p :: parts)).
  now constructor.
Qed.

Lemma settle_forall (M : Type) (P : M -> Prop) (parts : list (M * str)) :
  Forall (fun p => ~ In underscore (snd p) /\ P (fst p)) parts ->
  Forall (fun p => ~ In underscore (snd p) /\ P (fst p)) (settle parts).
Proof.
  intros H. unfold settle. apply rstrip_last_forall.
  - intros m s [Hs Hm]. cbn [fst snd] in *. split; [|assumption].
    intros Hin. apply Hs. now apply rstrip_in in Hin.
  - unfold collapsed. apply Forall_map. eapply Forall_impl; [|exact H].
    intros [m s] [Hs Hm]. cbn [fst snd] in *. split; [|assumption].
    intros Hin. apply collapse_in in Hin. destruct Hin as [Hin|Hin];
      [contradiction|discriminate Hin].
Qed.

Lemma tagged_in (c : char) (lead : str) (parts : list (str * str)) :
  In c (tagged lead parts) ->
  In c lead \/ exists p, In p parts /\ (In c (fst p) \/ In c (snd p)).
Proof.
  unfold tagged. intros H. apply in_app_or in H. destruct H as [H|H]; [now left|].
  right. apply in_flat_map in H. destruct H as [p [Hp H]]. exists p.
  split; [assumption|]. now apply in_app_or in H.
Qed.

Lemma shielded_absent (x : char) (lead : str) (toks : list (mark * str))
    (ph : list str) :
  mem x (py "<{\_[(:") = true -> mem x (py "_TAG0123456789") = false ->
  quiet lead = true ->
  Forall (fun p => quiet (snd p) = true
                   /\ exists n, fst p = Tok n /\ n < List.length ph) toks ->
  ~ In x (tagged lead (shown toks)).
Proof.
  intros Hx Hx' Hlead Htoks Hin. apply tagged_in in Hin.
  destruct Hin as [Hin|[p [Hp Hin]]].
  - now apply (@quiet_absent lead x Hlead Hx).
  - unfold shown in Hp. apply in_map_iff in Hp. destruct Hp as [[m s] [<- Hp]].
    rewrite Forall_forall in Htoks. destruct (Htoks _ Hp) as [Hs [n [Hm _]]].
    cbn [fst snd] in *. subst m. destruct Hin as [Hin|Hin].
    + now apply (@token_absent n x Hx').
    + now apply (@quiet_absent s x Hs Hx).
Qed.

Lemma tag_head (t : str) :
  tag t -> exists c t', t = c :: t' /\ mem c (py "<{\") = true.
Proof.
  intros [_ [H|[H|H]]].
  - destruct H as [body [-> _]]. now eexists; eexists.
  - destruct H as [body [-> _]]. now eexists; eexists.
  - destruct H as [c [-> _]]. now eexists; eexists.
Qed.

Lemma line_head (lead : str) (parts : list (str * str)) (x : char) (r : str) :
  quiet lead = true ->
  Forall (fun p => tag (fst p) /\ quiet (snd p) = true) parts ->
  strip (tagged lead parts) = x :: r ->
  mem x (py "[(") = false.
Proof.
  intros Hlead Hparts Hstrip.
  destruct (rstrip_split isspace (lstrip_by isspace (tagged lead parts)))
    as [run [Hl _]].
  fold (strip (tagged lead parts)) in Hl. rewrite Hstrip in Hl.
  assert (Hrest : stops isspace (flat_map (fun p => fst p ++ snd p) parts)).
  { destruct Hparts as [|[t s] parts [Ht _] _]; [exact I|].
    cbn [flat_map fst snd] in *. destruct (tag_head Ht) as [c [t' [-> Hc]]].
    cbn [app stops]. apply mem_in in Hc. vm_compute in Hc.
    destruct Hc as [<-|[<-|[<-|[]]]]; reflexivity. }
  unfold tagged in Hl. rewrite lstrip_app in Hl by assumption.
  destruct (lstrip_by isspace lead) as [|y l] eqn:E.
  - cbn [app] in Hl. destruct Hparts as [|[t s] parts [Ht _] _];
      [discriminate Hl|].
    cbn [flat_map fst snd] in *. destruct (tag_head Ht) as [c [t' [-> Hc]]].
    cbn [app] in Hl. inversion Hl; subst. apply mem_in in Hc. vm_compute in Hc.
    destruct Hc as [<-|[<-|[<-|[]]]]; reflexivity.
  - cbn [app] in Hl. inversion Hl; subst.
    assert (Hy : In x lead).
    { apply (@lstrip_in isspace). rewrite E. now left. }
    destruct (mem x (py "[(")) eqn:Hm; [|reflexivity]. exfalso.
    apply (@quiet_absent lead x Hlead); [|assumption].
    apply mem_in in Hm. apply mem_in. vm_compute in Hm. vm_compute. tauto.
Qed.

Lemma should_drop_tagged (lead : str) (parts : list (str * str)) (cfg : SDHConfig) :
  quiet lead = true ->
  Forall (fun p => tag (fst p) /\ quiet (snd p) = true) parts ->
  _should_drop_line_for_brackets (tagged lead parts) cfg = false.
Proof.
  intros Hlead Hparts. rewrite should_drop_scan.
  assert (Hspan : forall o c, mem o (py "[(") = true ->
                              is_span o c (strip (tagged lead parts)) = false).
  { intros o c Ho. destruct (strip (tagged lead parts)) as [|x r] eqn:E;
      [reflexivity|]. cbn [is_span].
    destruct (char_eqb o x) eqn:Ex; [|reflexivity]. apply char_eqb_eq in Ex.
    subst x. rewrite (@line_head lead parts o r Hlead Hparts E) in Ho.
    discriminate. }
  rewrite !Hspan by reflexivity. now rewrite !andb_false_r.
Qed.

(** ** Lines with tags: cleaning twice *)

Lemma quiet_chars (s x : str) :
  (forall c, In c x -> In c s \/ c = ch " ") -> quiet s = true -> quiet x = true.
Proof.
  unfold quiet. rewrite !forallb_forall. intros Hsub Hs c Hc.
  destruct (Hsub c Hc) as [Hin| ->]; [now apply Hs|reflexivity].
Qed.

Lemma lstrip_single_spaced (s : str) :
  single_spaced s -> single_spaced (lstrip_by isspace s).
Proof.
  intros H. destruct (lstrip_split isspace s) as [run [Hs _]].
  rewrite Hs in H. now apply single_spaced_suffix in H.
Qed.

Lemma rstrip_single_spaced (s : str) :
  single_spaced s -> single_spaced (rstrip_by isspace s).
Proof.
  intros H. destruct (rstrip_split isspace s) as [run [Hs _]].
  rewrite Hs in H. now apply single_spaced_prefix in H.
Qed.

Lemma settle_cases (M : Type) (parts : list (M * str)) :
  Forall (fun p => exists s, snd p = rstrip_by isspace (collapse false s)
                             \/ snd p = collapse false s) (settle parts).
Proof.
  unfold settle. induction parts as [|[m s] parts IH]; [constructor|].
  cbn [collapsed map fst snd]. fold (collapsed parts).
  destruct parts as [|p parts].
  - cbn [collapsed map rstrip_last]. constructor; [|constructor].
    exists s. now left.
  - change (rstrip_last ((m, collapse false s) :: collapsed (p :: parts)))
      with ((m, collapse false s) :: rstrip_last (collapsed (p :: parts))).
    constructor; [|exact IH]. exists s. now right.
Qed.

Lemma rstrip_last_fixed (M : Type) (parts : list (M * str)) :
  rstrip_last (rstrip_last parts) = rstrip_last parts.
Proof.
  induction parts as [|[m s] parts IH]; [reflexivity|].
  destruct parts as [|p parts]; [cbn [rstrip_last]; now rewrite rstrip_idem|].
  change (rstrip_last ((m, s) :: p :: parts))
    with ((m, s) :: rstrip_last (p :: parts)).
  destruct (rstrip_last (p :: parts)) as [|q qs] eqn:E.
  - destruct parts as [|p' parts]; [destruct p; discriminate E|].
    destruct p. discriminate E.
  - change (rstrip_last ((m, s) :: q :: qs)) with ((m, s) :: rstrip_last (q :: qs)).
    now rewrite IH.
Qed.

Lemma settle_fixed (M : Type) (parts : list (M * str)) :
  settle (settle parts) = settle parts.
Proof.
  assert (Hc : collapsed (settle parts) = settle parts).
  { pose proof (settle_cases parts) as H. induction H as [|[m s] ps [s0 Hs] _ IH];
      [reflexivity|].
    cbn [collapsed map fst snd] in *. fold (collapsed ps). rewrite IH. f_equal.
    f_equal. apply collapse_fixed. destruct Hs as [-> | ->].
    - apply rstrip_single_spaced. apply collapse_single_spaced.
    - apply collapse_single_spaced. }
  unfold settle at 1. rewrite Hc. unfold settle. apply rstrip_last_fixed.
Qed.

Lemma settle_nonempty (M : Type) (parts : list (M * str)) :
  parts <> [] -> settle parts <> [].
Proof.
  unfold settle, collapsed. destruct parts as [|[m s] [|p parts]];
    [congruence|discriminate|discriminate].
Qed.

Lemma settle_tags (parts : list (str * str)) :
  Forall (fun p => tag (fst p) /\ quiet (snd p) = true) parts ->
  Forall (fun p => tag (fst p) /\ quiet (snd p) = true) (settle parts).
Proof.
  intros H. unfold settle. apply rstrip_last_forall.
  - intros m s [Hm Hs]. cbn [fst snd] in *. split; [assumption|].
    apply (@quiet_chars s); [|assumption]. intros c Hc. left.
    now apply rstrip_in in Hc.
  - unfold collapsed. apply Forall_map. eapply Forall_impl; [|exact H].
    intros [m s] [Hm Hs]. cbn [fst snd] in *. split; [assumption|].
    apply (@quiet_chars s); [|assumption]. intros c Hc.
    now apply collapse_in in Hc.
Qed.

Section TaggedLines.
Context {U : UnicodeData}.

(** X19.  Tags are kept.  A line made of a leading text and one or more
    tags, each followed by a text, where every tag is a tag in angle brackets
    with at least one character and no angle bracket inside (line-break tags
    included), an override in braces with no closing brace and no opening
    angle bracket inside, or a backslash followed by N or n, and has no
    underscore, and where the texts have no angle bracket, brace, backslash,
    underscore, square bracket, parenthesis or colon: [clean_line] returns
    the line with every tag unchanged and in place, the whitespace runs of
    the texts made one space each, and the whitespace at both ends of the
    line removed; and [clean_line] applied to that result returns it
    unchanged. *)
Theorem clean_line_keeps_tags (lead : str) (parts : list (str * str))
    (cfg : SDHConfig) :
  quiet lead = true ->
  Forall (fun p => tag (fst p) /\ quiet (snd p) = true) parts ->
  parts <> [] ->
  let result := tagged (lstrip_by isspace (collapse false lead)) (settle parts) in
  clean_line (tagged lead parts) cfg = Some result
  /\ clean_line result cfg = Some result.
Proof.
  revert lead parts.
  assert (Hkept : forall lead parts,
             quiet lead = true ->
             Forall (fun p => tag (fst p) /\ quiet (snd p) = true) parts ->
             parts <> [] ->
             clean_line (tagged lead parts) cfg
             = Some (tagged (lstrip_by isspace (collapse false lead))
                       (settle parts))).
  {
    intros lead parts Hlead Hparts Hne. unfold clean_line.
    rewrite should_drop_tagged by assumption.
    destruct (@shield_tagged lead parts Hlead Hparts)
      as [toks [ph [Hsh [Hres [Htoks Hph]]]]].
    rewrite Hsh.
    assert (Habsent : forall x, mem x (py "[(:") = true ->
                                ~ In x (tagged lead (shown toks))).
    { intros x Hx. apply (@shielded_absent x lead toks ph); try assumption;
        apply mem_in in Hx; vm_compute in Hx;
        destruct Hx as [<-|[<-|[<-|[]]]]; reflexivity. }
    rewrite remove_inline_brackets_fixed
      by (apply absent_unmatched; apply Habsent; reflexivity).
    rewrite strip_speaker_no_colon by (intros _; apply Habsent; reflexivity).
    rewrite re_sub_ws. fold (normalize (tagged lead (shown toks))).
    assert (Hmarks : Forall (fun p => fst p <> []
                               /\ forallb (fun c => negb (isspace c)) (fst p) = true)
                       (shown toks)).
    { unfold shown. apply Forall_map. eapply Forall_impl; [|exact Htoks].
      intros [m s] [_ [n [Hm _]]]. cbn [fst snd] in *. subst m. cbn [show]. split.
      - rewrite tag_token_eq. discriminate.
      - apply forallb_forall. intros c Hc. apply token_chars in Hc.
        vm_compute in Hc.
        repeat (destruct Hc as [<-|Hc]; [reflexivity|]). destruct Hc. }
    assert (Hne' : shown toks <> []).
    { intros E. apply Hne. rewrite <- Hres. unfold shown, restored in *.
      apply map_eq_nil in E. now rewrite E. }
    assert (Hmusic : _only_music (normalize (tagged lead (shown toks))) = false).
    { destruct (_only_music (normalize (tagged lead (shown toks)))) eqn:E;
        [exfalso|reflexivity].
      destruct (only_music_split _ E) as [a [b [Hline [Ha [Hb [_ Hbody]]]]]].
      assert (Hin : In underscore (normalize (tagged lead (shown toks)))).
      { apply (in_text_of underscore); [reflexivity|].
        rewrite text_of_normalize. apply (in_text_of underscore); [reflexivity|].
        destruct toks as [|[m s] toks]; [now elim Hne'|].
        inversion Htoks as [|p ps [_ [n [Hm _]]] _]; subst. cbn [fst] in Hm.
        subst m. cbn [shown map fst snd show]. rewrite tagged_cons.
        apply in_or_app. right. apply in_or_app. left. rewrite tag_token_eq.
        now left. }
      rewrite Hline in Hin. rewrite forallb_forall in Ha, Hb, Hbody.
      apply in_app_or in Hin. destruct Hin as [Hin|Hin];
        [specialize (Ha _ Hin); discriminate Ha|].
      apply in_app_or in Hin. destruct Hin as [Hin|Hin];
        [specialize (Hbody _ Hin); discriminate Hbody
        |specialize (Hb _ Hin); discriminate Hb]. }
    rewrite Hmusic, andb_false_r.
    rewrite normalize_tagged by assumption.
    unfold shown at 1. rewrite settle_map. fold (shown (settle toks)).
    set (lead' := lstrip_by isspace (collapse false lead)).
    assert (Hlead' : ~ In underscore lead').
    { intros Hin. unfold lead' in Hin. apply lstrip_in in Hin.
      apply collapse_in in Hin. destruct Hin as [Hin|Hin]; [|discriminate Hin].
      now apply (@quiet_absent lead underscore Hlead). }
    assert (Hsettled : Forall (fun p => ~ In underscore (snd p)
                                 /\ exists n, fst p = Tok n /\ n < List.length ph)
                         (settle toks)).
    { apply (@settle_forall mark (fun m => exists n, m = Tok n /\ n < List.length ph)).
      eapply Forall_impl; [|exact Htoks]. intros [m s] [Hs Hm]. cbn [fst snd] in *.
      split; [|assumption]. now apply (@quiet_absent s underscore Hs). }
    rewrite restore_tagged by assumption.
    unfold restored. rewrite <- settle_map. fold (restored ph toks).
    now rewrite Hres.
  }
  intros lead parts Hlead Hparts Hne result. split; [now apply Hkept|].
  unfold result. set (lead' := lstrip_by isspace (collapse false lead)).
  assert (Hq : quiet lead' = true).
  { apply (@quiet_chars lead); [|assumption]. intros c Hc.
    unfold lead' in Hc. apply lstrip_in in Hc. now apply collapse_in in Hc. }
  rewrite Hkept; [|assumption|now apply settle_tags|now apply settle_nonempty].
  rewrite settle_fixed. f_equal. f_equal.
  assert (Hs : single_spaced lead').
  { apply lstrip_single_spaced. apply collapse_single_spaced. }
  rewrite (collapse_fixed _ Hs). apply lstrip_idem.
Qed.

End TaggedLines.

Section TaggedRuns.
#[local] Existing Instance latin1_only.

Lemma clean_line_keeps_tags_run :
  clean_line (py "  {\an8}<i>  Hello   there </i>  <br /><brx>") conservative_config
  = Some (py "{\an8}<i> Hello there </i> <br /><brx>")
  /\ clean_line (py "{\an8}<i> Hello there </i> <br /><brx>") conservative_config
     = Some (py "{\an8}<i> Hello there </i> <br /><brx>").
Proof.
  assert (Hno : forall (x : char) (s : str), mem x s = false -> ~ In x s).
  { intros x s H Hin. apply mem_in in Hin. congruence. }
  refine (@clean_line_keeps_tags latin1_only (py "  ")
            [(py "{\an8}", []); (py "<i>", py "  Hello   there ");
             (py "</i>", py "  "); (py "<br />", []); (py "<brx>", [])]
            conservative_config eq_refl _ _); [|discriminate].
  apply Forall_cons; [split; [split; [apply Hno; reflexivity|]|reflexivity]|].
  { right; left. exists (py "\an8").
    repeat split; apply Hno; reflexivity. }
  apply Forall_cons; [split; [split; [apply Hno; reflexivity|]|reflexivity]|].
  { left. exists (py "i").
    repeat split; try discriminate; apply Hno; reflexivity. }
  apply Forall_cons; [split; [split; [apply Hno; reflexivity|]|reflexivity]|].
  { left. exists (py "/i").
    repeat split; try discriminate; apply Hno; reflexivity. }
  apply Forall_cons; [split; [split; [apply Hno; reflexivity|]|reflexivity]|].
  { left. exists (py "br /").
    repeat split; try discriminate; apply Hno; reflexivity. }
  apply Forall_cons; [split; [split; [apply Hno; reflexivity|]|reflexivity]|].
  { left. exists (py "brx").
    repeat split; try discriminate; apply Hno; reflexivity. }
  apply Forall_nil.
Defined.

End TaggedRuns.

(** ** An entry of one line *)

(** X20.  An entry of a single line is not read back.  [parse_srt] makes of
    it an entry without index and timing; [format_srt] writes the counter,
    an empty timing line and the line; parsing that gives two entries, one
    for the counter and one for the line. *)
Theorem single_line_entry_splits (x : str) :
  solid x ->
  parse_srt [x] = Some [lone x]
  /\ format_srt [lone x] true = [py "1"; []; x; []]
  /\ parse_srt (format_srt [lone x] true) = Some [lone (py "1"); lone x].
Proof.
  intros [Hblank Hnl]. unfold is_blank in Hblank.
  assert (Hstep : forall blocks buffer,
             parse_step (blocks, buffer) x = Some (blocks, buffer ++ [x])).
  { intros blocks buffer. unfold parse_step. now rewrite Hblank, Hnl. }
  split; [|split].
  - unfold parse_srt. cbn [parse_loop]. rewrite Hstep. reflexivity.
  - reflexivity.
  - unfold parse_srt.
    change (format_srt [lone x] true) with [py "1"; []; x; []].
    cbn [parse_loop].
    change (parse_step ([], []) (py "1")) with (Some (([] : list SRTBlock), [py "1"])).
    cbn [bind].
    change (parse_step ([], [py "1"]) []) with (Some ([lone (py "1")], ([] : list str))).
    cbn [bind]. rewrite Hstep. cbn [bind app].
    change (parse_step ([lone (py "1")], [x]) [])
      with (Some ([lone (py "1"); lone x], ([] : list str))).
    reflexivity.
Qed.

Lemma single_line_entry_splits_run :
  parse_srt (format_srt [lone (py "Hello")] true)
  = Some [lone (py "1"); lone (py "Hello")].
Proof.
  apply (@single_line_entry_splits (py "Hello")). split; reflexivity.
Defined.
